(** * color-utils: hex/RGB/HSL conversion, colour naming and tonal palettes

    A shallow embedding of [colorConversions.ts], [colorNaming.ts],
    [colorPalette.ts], [colorInterpolation.ts] and [colorRandom.ts].

    Numbers.  A JavaScript [number] is modelled by an exact rational ([Q]):
    sums, products, quotients, comparisons, [Math.floor], [Math.round] and
    the remainder operator [%] are the exact ones, so every definition up to
    the HSL arithmetic computes.  The only transcendental operation of the
    library, [Math.pow(x, 2.4)] in the WCAG luminance, is the real power
    function [Rpower]; luminances and contrast ratios are therefore real
    numbers ([R]).  Integer-valued numbers (RGB channels, which the library
    only ever produces with [parseInt] and [Math.round], step labels, array
    indices) are integers ([Z], [nat]).

    Not-a-number and the infinities are not represented: where the source
    divides by a number that can be zero, the theorems assume it is not.

    Randomness.  The results of the calls of [Math.random()] are arguments
    of the function that makes them, in the order of the calls.

    Strings.  A string is the sequence of its code units ([ascii]); the
    case mappings are the ASCII ones, which is all the library applies them
    to once a colour has been accepted.

    Errors.  [throw new Error(msg)] is the [Throw] result; a function that
    can throw returns a [result].

    The file has three parts: the embedding of the source, file by file;
    the definitions the specification is stated with; the lemmas and
    theorems. *)

From Stdlib Require Import ZArith QArith Qround Qabs Qminmax.
From Stdlib Require Import Reals Rpower Psatz Lia.
From Stdlib Require Import List String Ascii Bool.
Import ListNotations.

Local Open Scope string_scope.

(* ------------------------------------------------------------------ *)
(** ** Exceptions *)

Inductive Error : Type := mkError (message : string).

Inductive result (A : Type) : Type :=
| Ok (a : A)
| Throw (e : Error).
Arguments Ok {A} a.
Arguments Throw {A} e.

Definition bind {A B : Type} (m : result A) (k : A -> result B) : result B :=
  match m with
  | Ok a => k a
  | Throw e => Throw e
  end.

Notation "x <- m ;; k" := (bind m (fun x => k))
  (at level 61, m at next level, right associativity).

(** [a ?? b] on a possibly undefined value. *)
Definition orElse {A : Type} (o : option A) (d : A) : A :=
  match o with
  | Some a => a
  | None => d
  end.

(** [arr[i]] for an integer-valued index: [undefined] outside the array. *)
Definition index {A : Type} (arr : list A) (i : Z) : option A :=
  if (i <? 0)%Z then None else nth_error arr (Z.to_nat i).

(* ------------------------------------------------------------------ *)
(** ** Numbers *)

Definition Qltb (x y : Q) : bool := negb (Qle_bool y x).

Definition Math_floor (x : Q) : Z := Qfloor x.

(** [Math.round]: the nearest integer, halves towards +infinity. *)
Definition Math_round (x : Q) : Z := Qfloor (x + (1 # 2)).

(** Truncation towards zero, and the remainder [a % n] it defines (the
    sign of the result is that of the dividend). *)
Definition Qtrunc (x : Q) : Z := Z.quot (Qnum x) (Zpos (Qden x)).

Definition Qrem (a n : Q) : Q := a - n * inject_Z (Qtrunc (a / n)).

(* ------------------------------------------------------------------ *)
(** ** Strings *)

Definition dquote : string := String "034" EmptyString.

Definition isDigit (c : ascii) : bool :=
  let n := nat_of_ascii c in (48 <=? n)%nat && (n <=? 57)%nat.

Definition isUpperAF (c : ascii) : bool :=
  let n := nat_of_ascii c in (65 <=? n)%nat && (n <=? 70)%nat.

Definition isLowerAF (c : ascii) : bool :=
  let n := nat_of_ascii c in (97 <=? n)%nat && (n <=? 102)%nat.

(** The character class [[0-9A-Fa-f]]. *)
Definition isHexDigit (c : ascii) : bool :=
  isDigit c || isUpperAF c || isLowerAF c.

Fixpoint allChars (p : ascii -> bool) (s : string) : bool :=
  match s with
  | EmptyString => true
  | String c r => p c && allChars p r
  end.

(** [/^[0-9A-Fa-f]{6}$/.test(s)] *)
Definition testHex6 (s : string) : bool :=
  (length s =? 6)%nat && allChars isHexDigit s.

Definition upperChar (c : ascii) : ascii :=
  let n := nat_of_ascii c in
  if (97 <=? n)%nat && (n <=? 122)%nat then ascii_of_nat (n - 32) else c.

Definition lowerChar (c : ascii) : ascii :=
  let n := nat_of_ascii c in
  if (65 <=? n)%nat && (n <=? 90)%nat then ascii_of_nat (n + 32) else c.

Fixpoint toUpperCase (s : string) : string :=
  match s with
  | EmptyString => EmptyString
  | String c r => String (upperChar c) (toUpperCase r)
  end.

(** [hex.replace(/^#/, '')] *)
Definition stripHash (hex : string) : string :=
  match hex with
  | String "#" rest => rest
  | _ => hex
  end.

(** [s.split('').map(char => char + char).join('')] *)
Fixpoint doubleChars (s : string) : string :=
  match s with
  | EmptyString => EmptyString
  | String c r => String c (String c (doubleChars r))
  end.

Definition hexDigitValue (c : ascii) : Z :=
  let n := Z.of_nat (nat_of_ascii c) in
  if isDigit c then n - 48
  else if isUpperAF c then n - 55
  else n - 87.

(** [parseInt(s, 16)] on a string of hexadecimal digits. *)
Definition parseInt16 (s : string) : Z :=
  (fix go (acc : Z) (s : string) : Z :=
     match s with
     | EmptyString => acc
     | String c r => if isHexDigit c then go (16 * acc + hexDigitValue c)%Z r else acc
     end) 0%Z s.

Definition hexDigitChar (d : Z) : ascii :=
  if (d <? 10)%Z then ascii_of_nat (Z.to_nat (d + 48))
  else ascii_of_nat (Z.to_nat (d + 87)).

(** [n.toString(16)] for a non-negative integer: lower-case digits, no
    leading zero. *)
Fixpoint toString16_digits (fuel : nat) (n : Z) (acc : string) : string :=
  match fuel with
  | O => acc
  | S fuel' =>
      let acc' := String (hexDigitChar (n mod 16)) acc in
      if (n <? 16)%Z then acc' else toString16_digits fuel' (n / 16) acc'
  end.

Definition toString16 (n : Z) : string :=
  toString16_digits (S (Z.to_nat (Z.log2 n))) n EmptyString.

(* ------------------------------------------------------------------ *)
(** ** types.ts *)

Record RGB : Type := mkRGB { r : Z; g : Z; b : Z }.

Record HSL : Type := mkHSL { h : Q; s : Q; l : Q }.

(** The fields of [HSV] are [HSV.h], [HSV.s] and [HSV.v]. *)
Module HSV.
Record t : Type := mk { h : Q; s : Q; v : Q }.
End HSV.

Definition HexColor : Type := string.

(* ------------------------------------------------------------------ *)
(** ** colorConversions.ts *)

Definition invalidHexMessage (hex : HexColor) : string :=
  "Invalid hex color format: " ++ dquote ++ hex ++ dquote
    ++ ". Expected format: #RGB or #RRGGBB".

Definition hexToRgb (hex : HexColor) : result RGB :=
  let cleanHex := stripHash hex in
  let cleanHex :=
    if (length cleanHex =? 3)%nat then doubleChars cleanHex else cleanHex in
  if negb (testHex6 cleanHex) then
    Throw (mkError (invalidHexMessage hex))
  else
    Ok {| r := parseInt16 (substring 0 2 cleanHex);
          g := parseInt16 (substring 2 2 cleanHex);
          b := parseInt16 (substring 4 2 cleanHex) |}.

Definition toHex (n : Q) : string :=
  let clamped := Z.max 0 (Z.min 255 (Math_round n)) in
  let hex := toString16 clamped in
  if (length hex =? 1)%nat then "0" ++ hex else hex.

Definition rgbToHex (r g b : Q) : HexColor :=
  toUpperCase ("#" ++ toHex r ++ toHex g ++ toHex b).

Definition Qmax3 (x y z : Q) : Q := Qmax (Qmax x y) z.
Definition Qmin3 (x y z : Q) : Q := Qmin (Qmin x y) z.

Definition rgbToHsv (r g b : Q) : HSV.t :=
  let r := r / 255 in
  let g := g / 255 in
  let b := b / 255 in
  let max := Qmax3 r g b in
  let min := Qmin3 r g b in
  let diff := max - min in
  let s := if Qeq_bool max 0 then 0 else diff / max in
  let v := max in
  let h :=
    if negb (Qeq_bool diff 0) then
      if Qeq_bool max r then ((g - b) / diff + (if Qltb g b then 6 else 0)) / 6
      else if Qeq_bool max g then ((b - r) / diff + 2) / 6
      else ((r - g) / diff + 4) / 6
    else 0 in
  {| HSV.h := h * 360; HSV.s := s * 100; HSV.v := v * 100 |}.

(** [switch (i % 6)] has no default case: outside 0..5 the channels keep
    their initial value 0. *)
Definition hsvToRgb (h s v : Q) : RGB :=
  let h := h / 360 in
  let s := s / 100 in
  let v := v / 100 in
  let i := Math_floor (h * 6) in
  let f := h * 6 - inject_Z i in
  let p := v * (1 - s) in
  let q := v * (1 - f * s) in
  let t := v * (1 - (1 - f) * s) in
  let '(r, g, b) :=
    match Z.rem i 6 with
    | 0%Z => (v, t, p)
    | 1%Z => (q, v, p)
    | 2%Z => (p, v, t)
    | 3%Z => (p, q, v)
    | 4%Z => (t, p, v)
    | 5%Z => (v, p, q)
    | _ => (0, 0, 0)
    end in
  {| r := Math_round (r * 255);
     g := Math_round (g * 255);
     b := Math_round (b * 255) |}.

Definition hexToHsv (hex : HexColor) : result HSV.t :=
  rgb <- hexToRgb hex ;;
  Ok (rgbToHsv (inject_Z (r rgb)) (inject_Z (g rgb)) (inject_Z (b rgb))).

Definition hsvToHex (h s v : Q) : HexColor :=
  let rgb := hsvToRgb h s v in
  rgbToHex (inject_Z (r rgb)) (inject_Z (g rgb)) (inject_Z (b rgb)).

Definition rgbToHsl (r g b : Q) : HSL :=
  let r := r / 255 in
  let g := g / 255 in
  let b := b / 255 in
  let max := Qmax3 r g b in
  let min := Qmin3 r g b in
  let diff := max - min in
  let l := (max + min) / 2 in
  let '(h, s) :=
    if negb (Qeq_bool diff 0) then
      let s := if Qltb (1 # 2) l then diff / (2 - max - min)
               else diff / (max + min) in
      let h :=
        if Qeq_bool max r then ((g - b) / diff + (if Qltb g b then 6 else 0)) / 6
        else if Qeq_bool max g then ((b - r) / diff + 2) / 6
        else ((r - g) / diff + 4) / 6 in
      (h, s)
    else (0, 0) in
  {| h := h * 360; s := s * 100; l := l * 100 |}.

Definition hue2rgb (p q t : Q) : Q :=
  let t := if Qltb t 0 then t + 1 else t in
  let t := if Qltb 1 t then t - 1 else t in
  if Qltb t (1 / 6) then p + (q - p) * 6 * t
  else if Qltb t (1 / 2) then q
  else if Qltb t (2 / 3) then p + (q - p) * (2 / 3 - t) * 6
  else p.

Definition hslToRgb (h s l : Q) : RGB :=
  let h := h / 360 in
  let s := s / 100 in
  let l := l / 100 in
  if Qeq_bool s 0 then
    let v := Math_round (l * 255) in
    {| r := v; g := v; b := v |}
  else
    let q := if Qltb l (1 # 2) then l * (1 + s) else l + s - l * s in
    let p := 2 * l - q in
    let r := hue2rgb p q (h + 1 / 3) in
    let g := hue2rgb p q h in
    let b := hue2rgb p q (h - 1 / 3) in
    {| r := Math_round (r * 255);
       g := Math_round (g * 255);
       b := Math_round (b * 255) |}.

Definition hexToHsl (hex : HexColor) : result HSL :=
  rgb <- hexToRgb hex ;;
  Ok (rgbToHsl (inject_Z (r rgb)) (inject_Z (g rgb)) (inject_Z (b rgb))).

Definition hslToHex (h s l : Q) : HexColor :=
  let rgb := hslToRgb h s l in
  rgbToHex (inject_Z (r rgb)) (inject_Z (g rgb)) (inject_Z (b rgb)).

(* ------------------------------------------------------------------ *)
(** ** colorNaming.ts *)

Record ColorClassification : Type := mkClassification {
  fullName : string;
  tokenName : string;
  tone : string;
  hueGroup : string;
  hsl : HSL
}.

Definition norm (v : Q) : Q := Qrem (v + 360) 360.

Definition choose (h a b : Q) (names : list string) : string :=
  let pos := (h - a) / (b - a) in
  let len := Z.of_nat (List.length names) in
  let idx := Z.min (len - 1) (Math_floor (pos * inject_Z len)) in
  orElse (index names idx) (orElse (index names 0) "Gray").

Definition getHueName (h s : Q) : string :=
  if Qltb s 8 then "Neutral" else
  let h := norm h in
  if Qltb h 15 then choose h 0 15 ["Scarlet"; "Red"; "Crimson"] else
  if Qltb h 35 then choose h 15 35 ["Tangerine"; "Orange"] else
  if Qltb h 50 then choose h 35 50 ["Amber"; "Honey"] else
  if Qltb h 70 then choose h 50 70 ["Lemon"; "Yellow"; "Gold"] else
  if Qltb h 85 then choose h 70 85 ["Lime"; "Chartreuse"] else
  if Qltb h 155 then choose h 85 155 ["Mint"; "Green"; "Emerald"] else
  if Qltb h 180 then choose h 155 180 ["Teal"; "Aqua"] else
  if Qltb h 200 then choose h 180 200 ["Cyan"; "Sky"] else
  if Qltb h 240 then choose h 200 240 ["Azure"; "Blue"; "Cobalt"] else
  if Qltb h 270 then "Indigo" else
  if Qltb h 295 then choose h 270 295 ["Violet"; "Lavender"] else
  if Qltb h 320 then choose h 295 320 ["Purple"; "Grape"] else
  if Qltb h 335 then choose h 320 335 ["Magenta"; "Fuchsia"] else
  if Qltb h 350 then choose h 335 350 ["Rose"; "Cerise"; "Rosewood"] else
  choose h 350 360 ["Scarlet"; "Red"; "Crimson"].

Module toneBuckets.
Definition veryLight := ["Pale"; "Washed"; "Faint"].
Definition lightSoft := ["Soft"; "Subdued"].
Definition light := ["Light"; "Gentle"].
Definition bright := ["Bright"; "Lively"].
Definition muted := ["Muted"; "Hazy"; "Smokey"].
Definition medium := ["Medium"; "Balanced"].
Definition vivid := ["Vivid"; "Strong"].
Definition dim := ["Dim"; "Muddy"; "Dirty"].
Definition dark := ["Dark"].
Definition rich := ["Rich"; "Intense"].
Definition charcoal := ["Charcoal"; "Dusky"].
Definition deep := ["Deep"].
Definition inky := ["Inky"].
End toneBuckets.

Definition deterministicPick (list : list string) (h s l : Q) : string :=
  let seed :=
    Math_floor (Qrem (h * 7 + s * 5 + l * 3)
                     (inject_Z (Z.of_nat (List.length list)))) in
  orElse (index list seed) (orElse (index list 0) "Medium").

Definition getToneName (s l h : Q) : string :=
  if Qltb 85 l then deterministicPick toneBuckets.veryLight h s l else
  if Qltb 65 l then
    if Qltb s 30 then deterministicPick toneBuckets.lightSoft h s l else
    if Qltb s 60 then deterministicPick toneBuckets.light h s l else
    deterministicPick toneBuckets.bright h s l
  else
  if Qltb 35 l then
    if Qltb s 30 then deterministicPick toneBuckets.muted h s l else
    if Qltb s 60 then deterministicPick toneBuckets.medium h s l else
    deterministicPick toneBuckets.vivid h s l
  else
  if Qltb 25 l then
    if Qltb s 30 then deterministicPick toneBuckets.dim h s l else
    if Qltb s 70 then deterministicPick toneBuckets.dark h s l else
    deterministicPick toneBuckets.rich h s l
  else
  if Qltb s 30 then deterministicPick toneBuckets.charcoal h s l else
  if Qltb s 70 then deterministicPick toneBuckets.deep h s l else
  deterministicPick toneBuckets.inky h s l.

(** The class [\s] restricted to code units below 256, and [-]. *)
Definition isWhitespace (c : ascii) : bool :=
  let n := nat_of_ascii c in
  ((9 <=? n)%nat && (n <=? 13)%nat) || (n =? 32)%nat || (n =? 160)%nat.

Definition isSpaceOrHyphen (c : ascii) : bool :=
  isWhitespace c || (nat_of_ascii c =? 45)%nat.

(** [s.replace(/[\s-]+/g, "")] *)
Fixpoint removeSpacesHyphens (s : string) : string :=
  match s with
  | EmptyString => EmptyString
  | String c r =>
      if isSpaceOrHyphen c then removeSpacesHyphens r
      else String c (removeSpacesHyphens r)
  end.

Definition isLineTerminator (c : ascii) : bool :=
  let n := nat_of_ascii c in (n =? 10)%nat || (n =? 13)%nat.

(** [s.replace(/^./, (c) => c.toLowerCase())] *)
Definition lowerFirst (s : string) : string :=
  match s with
  | EmptyString => EmptyString
  | String c r => if isLineTerminator c then s else String (lowerChar c) r
  end.

Definition classifyHexColor (hex : HexColor) : result ColorClassification :=
  rgb <- hexToRgb hex ;;
  let hsl := rgbToHsl (inject_Z (r rgb)) (inject_Z (g rgb)) (inject_Z (b rgb)) in
  let hueGroup := getHueName (h hsl) (s hsl) in
  let tone := getToneName (s hsl) (l hsl) (h hsl) in
  let fullName :=
    if String.eqb hueGroup "Neutral" then tone ++ " Neutral"
    else tone ++ " " ++ hueGroup in
  let tokenName := lowerFirst (removeSpacesHyphens fullName) in
  Ok {| fullName := fullName; tokenName := tokenName; tone := tone;
        hueGroup := hueGroup; hsl := hsl |}.

(* ------------------------------------------------------------------ *)
(** ** colorPalette.ts *)

Local Open Scope R_scope.

Definition channel (c : R) : R :=
  let c := c / 255 in
  if Rle_dec c 0.03928 then c / 12.92
  else Rpower ((c + 0.055) / 1.055) 2.4.

Definition getLuminanceHex (hex : HexColor) : result R :=
  rgb <- hexToRgb hex ;;
  Ok (0.2126 * channel (IZR (r rgb)) +
      0.7152 * channel (IZR (g rgb)) +
      0.0722 * channel (IZR (b rgb))).

Definition getContrastRatio (a b : HexColor) : result R :=
  lum1 <- getLuminanceHex a ;;
  lum2 <- getLuminanceHex b ;;
  let bright := Rmax lum1 lum2 in
  let dark := Rmin lum1 lum2 in
  Ok ((bright + 0.05) / (dark + 0.05)).

Inductive Compliance : Type := AAA | AA | Fail.

Definition compliance (r : R) : Compliance :=
  if Rle_dec 7 r then AAA
  else if Rle_dec 4.5 r then AA
  else Fail.

Local Close Scope R_scope.

Record ColorStep : Type := mkColorStep {
  step : Z;
  hex : HexColor;
  contrastWhite : R;
  contrastDark : R;
  wcagWhite : Compliance;
  wcagDark : Compliance;
  isChosenColor : bool
}.

Record ColorPalette : Type := mkColorPalette {
  name : string;
  tokenName' : string;
  chosenStep : Z;
  steps : list ColorStep;
  classification : ColorClassification
}.

Definition stepValues : list Z :=
  [50; 100; 200; 300; 400; 500; 600; 700; 800; 900]%Z.

Definition lightnessSteps : list Q :=
  [95; 90; 80; 65; 50; 40; 30; 20; 12; 8]%Q.

(** The first loop of [generateColorPalette]: one iteration updates
    [(closestIndex, minDiff)] at index [i]. *)
Definition closestIteration (baseL : Q) (lightnessSteps : list Q)
    (st : nat * Q) (i : nat) : nat * Q :=
  match nth_error lightnessSteps i with
  | None => st
  | Some stepLightness =>
      let diff := Qabs (baseL - stepLightness) in
      if Qltb diff (snd st) then (i, diff) else st
  end.

Definition closestLoop (baseL : Q) (lightnessSteps : list Q) : nat * Q :=
  fold_left (closestIteration baseL lightnessSteps)
    (seq 1 (List.length lightnessSteps - 1))
    (0%nat, Qabs (baseL - orElse (nth_error lightnessSteps 0) 50)).

(** The body of the second loop at index [i]: the step pushed onto
    [steps], if any. *)
Definition stepIteration (hex : HexColor) (baseHsl : HSL) (closestIndex : nat)
    (stepValues : list Z) (lightnessSteps : list Q)
    (steps : list ColorStep) (i : nat) : result (list ColorStep) :=
  match nth_error stepValues i, nth_error lightnessSteps i with
  | Some stepValue, Some stepLightness =>
      let stepHex :=
        if (i =? closestIndex)%nat then toUpperCase hex
        else
          let s := s baseHsl in
          let s := if (i <? 2)%nat then s * (3 # 10) else s in
          let s := if (7 <? i)%nat then Qmin (s * (12 # 10)) 100 else s in
          hslToHex (h baseHsl) s stepLightness in
      contrastWhite <- getContrastRatio stepHex "#FFFFFF" ;;
      contrastDark <- getContrastRatio stepHex "#0A0A0A" ;;
      Ok (steps ++ [ {| step := stepValue;
                        hex := stepHex;
                        contrastWhite := contrastWhite;
                        contrastDark := contrastDark;
                        wcagWhite := compliance contrastWhite;
                        wcagDark := compliance contrastDark;
                        isChosenColor := (i =? closestIndex)%nat |} ])%list
  | _, _ => Ok steps
  end.

Fixpoint stepLoop (body : list ColorStep -> nat -> result (list ColorStep))
    (indices : list nat) (steps : list ColorStep) : result (list ColorStep) :=
  match indices with
  | [] => Ok steps
  | i :: rest => steps' <- body steps i ;; stepLoop body rest steps'
  end.

Definition generateColorPalette (hex : HexColor) : result ColorPalette :=
  classification <- classifyHexColor hex ;;
  let baseHsl := hsl classification in
  let closestIndex := fst (closestLoop (l baseHsl) lightnessSteps) in
  steps <- stepLoop
             (stepIteration hex baseHsl closestIndex stepValues lightnessSteps)
             (seq 0 (List.length stepValues)) [] ;;
  Ok {| name := fullName classification;
        tokenName' := tokenName classification;
        chosenStep := orElse (nth_error stepValues closestIndex) 500%Z;
        steps := steps;
        classification := classification |}.

(* ------------------------------------------------------------------ *)
(** ** colorInterpolation.ts *)

(** The argument types [{ x; y }] and [{ x; y; color }].  In
    [barycentricInterpolation] the channels of [rgbA], [rgbB] and [rgbC] are
    read by pattern matching, the parameter [b] hiding the field [b]. *)
Module Point.
Record t : Type := mk { x : Q; y : Q }.
End Point.

Module Vertex.
Record t : Type := mk { x : Q; y : Q; color : HexColor }.
End Vertex.

Definition barycentricInterpolation (p : Point.t) (a b c : Vertex.t)
    : result HexColor :=
  let v0 := {| Point.x := Vertex.x b - Vertex.x a;
               Point.y := Vertex.y b - Vertex.y a |} in
  let v1 := {| Point.x := Vertex.x c - Vertex.x a;
               Point.y := Vertex.y c - Vertex.y a |} in
  let v2 := {| Point.x := Point.x p - Vertex.x a;
               Point.y := Point.y p - Vertex.y a |} in
  let dot00 := Point.x v0 * Point.x v0 + Point.y v0 * Point.y v0 in
  let dot01 := Point.x v0 * Point.x v1 + Point.y v0 * Point.y v1 in
  let dot02 := Point.x v0 * Point.x v2 + Point.y v0 * Point.y v2 in
  let dot11 := Point.x v1 * Point.x v1 + Point.y v1 * Point.y v1 in
  let dot12 := Point.x v1 * Point.x v2 + Point.y v1 * Point.y v2 in
  let invDenom := 1 / (dot00 * dot11 - dot01 * dot01) in
  let u := (dot11 * dot02 - dot01 * dot12) * invDenom in
  let v := (dot00 * dot12 - dot01 * dot02) * invDenom in
  let w := 1 - u - v in
  rgbA <- hexToRgb (Vertex.color a) ;;
  rgbB <- hexToRgb (Vertex.color b) ;;
  rgbC <- hexToRgb (Vertex.color c) ;;
  let 'mkRGB rA gA bA := rgbA in
  let 'mkRGB rB gB bB := rgbB in
  let 'mkRGB rC gC bC := rgbC in
  let r := w * inject_Z rA + u * inject_Z rB + v * inject_Z rC in
  let g := w * inject_Z gA + u * inject_Z gB + v * inject_Z gC in
  let bVal := w * inject_Z bA + u * inject_Z bB + v * inject_Z bC in
  Ok (rgbToHex r g bVal).

(* ------------------------------------------------------------------ *)
(** ** colorRandom.ts *)

(** [random1], [random2] and [random3] are the results of the three calls
    of [Math.random()], each in [[0, 1)]. *)
Definition generateRandomColor (random1 random2 random3 : Q) : HexColor :=
  let h := random1 * 360 in
  let s := 30 + random2 * 40 in
  let l := 50 + random3 * 30 in
  let hue := h / 360 in
  let sat := s / 100 in
  let light := l / 100 in
  let c := (1 - Qabs (2 * light - 1)) * sat in
  let x := c * (1 - Qabs (Qrem (hue * 6) 2 - 1)) in
  let m := light - c / 2 in
  let '(r, g, b) :=
    if Qltb hue (1 / 6) then (c, x, 0)
    else if Qltb hue (2 / 6) then (x, c, 0)
    else if Qltb hue (3 / 6) then (0, c, x)
    else if Qltb hue (4 / 6) then (0, x, c)
    else if Qltb hue (5 / 6) then (x, 0, c)
    else (c, 0, x) in
  rgbToHex ((r + m) * 255) ((g + m) * 255) ((b + m) * 255).

(* ================================================================== *)
(** * Specification-side definitions *)

(** The pattern [#?[0-9A-Fa-f]{3|6}]: one optional leading [#], then
    exactly three or exactly six hexadecimal digits, and nothing else. *)
Definition HexPattern (hex : string) : Prop :=
  exists digits : string,
    (hex = digits \/ hex = String "#" digits) /\
    (String.length digits = 3%nat \/ String.length digits = 6%nat) /\
    allChars isHexDigit digits = true.

(** A channel value as [rgbToHex] encodes it: rounded, then clamped. *)
Definition clampByte (n : Q) : Z := Z.max 0 (Z.min 255 (Math_round n)).

Definition isUpperHexDigit (c : ascii) : bool := isDigit c || isUpperAF c.

(** [#] followed by exactly six upper-case hexadecimal digits. *)
Definition isUpperHex6 (hex : string) : bool :=
  match hex with
  | String "#" digits =>
      (String.length digits =? 6)%nat && allChars isUpperHexDigit digits
  | _ => false
  end.

(** The two upper-case digits of a byte. *)
Definition hexByte (v : Z) : string :=
  String (upperChar (hexDigitChar (v / 16)))
    (String (upperChar (hexDigitChar (v mod 16))) EmptyString).

(** The hue wheel: each band [(a, b, names)] covers the angles [a <= h < b]. *)
Definition hueBands : list (Q * Q * list string) :=
  [ (0, 15, ["Scarlet"; "Red"; "Crimson"]);
    (15, 35, ["Tangerine"; "Orange"]);
    (35, 50, ["Amber"; "Honey"]);
    (50, 70, ["Lemon"; "Yellow"; "Gold"]);
    (70, 85, ["Lime"; "Chartreuse"]);
    (85, 155, ["Mint"; "Green"; "Emerald"]);
    (155, 180, ["Teal"; "Aqua"]);
    (180, 200, ["Cyan"; "Sky"]);
    (200, 240, ["Azure"; "Blue"; "Cobalt"]);
    (240, 270, ["Indigo"]);
    (270, 295, ["Violet"; "Lavender"]);
    (295, 320, ["Purple"; "Grape"]);
    (320, 335, ["Magenta"; "Fuchsia"]);
    (335, 350, ["Rose"; "Cerise"; "Rosewood"]);
    (350, 360, ["Scarlet"; "Red"; "Crimson"]) ]%Q.

(** The index within a band of [n] names:
    [min(n-1, floor(((h - a) / (b - a)) * n))]. *)
Definition bandIndex (h a b : Q) (n : nat) : nat :=
  Nat.min (n - 1) (Z.to_nat (Qfloor ((h - a) / (b - a) * inject_Z (Z.of_nat n)))).

Definition hueVocabulary : list string :=
  "Neutral" :: List.concat (List.map snd hueBands).

(** The thirteen tone buckets by lightness band and saturation tier. *)
Inductive toneBucket (s l : Q) : list string -> Prop :=
| bucket_veryLight : (85 < l)%Q -> toneBucket s l toneBuckets.veryLight
| bucket_lightSoft : (65 < l <= 85)%Q -> (s < 30)%Q -> toneBucket s l toneBuckets.lightSoft
| bucket_light : (65 < l <= 85)%Q -> (30 <= s < 60)%Q -> toneBucket s l toneBuckets.light
| bucket_bright : (65 < l <= 85)%Q -> (60 <= s)%Q -> toneBucket s l toneBuckets.bright
| bucket_muted : (35 < l <= 65)%Q -> (s < 30)%Q -> toneBucket s l toneBuckets.muted
| bucket_medium : (35 < l <= 65)%Q -> (30 <= s < 60)%Q -> toneBucket s l toneBuckets.medium
| bucket_vivid : (35 < l <= 65)%Q -> (60 <= s)%Q -> toneBucket s l toneBuckets.vivid
| bucket_dim : (25 < l <= 35)%Q -> (s < 30)%Q -> toneBucket s l toneBuckets.dim
| bucket_dark : (25 < l <= 35)%Q -> (30 <= s < 70)%Q -> toneBucket s l toneBuckets.dark
| bucket_rich : (25 < l <= 35)%Q -> (70 <= s)%Q -> toneBucket s l toneBuckets.rich
| bucket_charcoal : (l <= 25)%Q -> (s < 30)%Q -> toneBucket s l toneBuckets.charcoal
| bucket_deep : (l <= 25)%Q -> (30 <= s < 70)%Q -> toneBucket s l toneBuckets.deep
| bucket_inky : (l <= 25)%Q -> (70 <= s)%Q -> toneBucket s l toneBuckets.inky.

(** The mathematical [x mod n] (result in [[0, n)] for [n > 0]) and the
    index [floor((h*7 + s*5 + l*3) mod bucketSize)]. *)
Definition Qmod (x n : Q) : Q := x - n * inject_Z (Qfloor (x / n)).


Definition toneVocabulary : list string :=
  (toneBuckets.veryLight ++ toneBuckets.lightSoft ++ toneBuckets.light
   ++ toneBuckets.bright ++ toneBuckets.muted ++ toneBuckets.medium
   ++ toneBuckets.vivid ++ toneBuckets.dim ++ toneBuckets.dark
   ++ toneBuckets.rich ++ toneBuckets.charcoal ++ toneBuckets.deep
   ++ toneBuckets.inky)%list.

(** The input colour written as [#RRGGBB] with upper-case digits. *)
Definition normalizeHex (hex : HexColor) : HexColor :=
  match hexToRgb hex with
  | Ok rgb => rgbToHex (inject_Z (r rgb)) (inject_Z (g rgb)) (inject_Z (b rgb))
  | Throw _ => hex
  end.

(** Reading a list of values in order. *)
Definition nonIncreasing (xs : list R) : Prop :=
  forall (i j : nat) (x y : R),
    (i <= j)%nat -> nth_error xs i = Some x -> nth_error xs j = Some y ->
    (y <= x)%R.

Definition nonDecreasing (xs : list R) : Prop :=
  forall (i j : nat) (x y : R),
    (i <= j)%nat -> nth_error xs i = Some x -> nth_error xs j = Some y ->
    (x <= y)%R.

(* ------------------------------------------------------------------ *)
(** ** The palette in closed form

    What the two loops of [generateColorPalette] compute, written without
    the loops and without the detour through hex strings: the proofs relate
    the generator to these once, and reason on them afterwards. *)

Local Open Scope Q_scope.

(** The WCAG relative luminance of a colour and the contrast ratio of two
    luminances, as [getLuminanceHex] and [getContrastRatio] compute them. *)
Definition luminance (rgb : RGB) : R :=
  (0.2126 * channel (IZR (r rgb)) +
   0.7152 * channel (IZR (g rgb)) +
   0.0722 * channel (IZR (b rgb)))%R.

Definition contrast (lum1 lum2 : R) : R :=
  ((Rmax lum1 lum2 + 0.05) / (Rmin lum1 lum2 + 0.05))%R.

Definition white : RGB := mkRGB 255 255 255.
Definition nearBlack : RGB := mkRGB 10 10 10.

Definition clamp255 (z : Z) : Z := Z.max 0 (Z.min 255 z).

Definition clampRgb (rgb : RGB) : RGB :=
  mkRGB (clamp255 (r rgb)) (clamp255 (g rgb)) (clamp255 (b rgb)).

(** The saturation of a synthesized step: times 0.3 at indices 0 and 1,
    times 1.2 capped at 100 at indices 8 and 9, unchanged in between. *)
Definition adjustedSaturation (s : Q) (i : nat) : Q :=
  match i with
  | 0%nat | 1%nat => s * (3 # 10)
  | 8%nat | 9%nat => Qmin (s * (12 # 10)) 100
  | _ => s
  end.

Definition synthesizedRgb (baseHsl : HSL) (i : nat) : RGB :=
  hslToRgb (h baseHsl) (adjustedSaturation (s baseHsl) i) (nth i lightnessSteps 0).

Definition synthesizedHex (baseHsl : HSL) (i : nat) : HexColor :=
  hslToHex (h baseHsl) (adjustedSaturation (s baseHsl) i) (nth i lightnessSteps 0).

(** The colour shown at step [i], as a string and as channels. *)
Definition stepHexAt (hex : HexColor) (baseHsl : HSL) (closestIndex i : nat)
    : HexColor :=
  if (i =? closestIndex)%nat then toUpperCase hex else synthesizedHex baseHsl i.

Definition stepRgbAt (rgb : RGB) (baseHsl : HSL) (closestIndex i : nat) : RGB :=
  if (i =? closestIndex)%nat then rgb else clampRgb (synthesizedRgb baseHsl i).

Definition stepAt (hex : HexColor) (rgb : RGB) (baseHsl : HSL)
    (closestIndex i : nat) : ColorStep :=
  let lum := luminance (stepRgbAt rgb baseHsl closestIndex i) in
  {| step := nth i stepValues 0%Z;
     hex := stepHexAt hex baseHsl closestIndex i;
     contrastWhite := contrast lum (luminance white);
     contrastDark := contrast lum (luminance nearBlack);
     wcagWhite := compliance (contrast lum (luminance white));
     wcagDark := compliance (contrast lum (luminance nearBlack));
     isChosenColor := (i =? closestIndex)%nat |}.

(** The index the first loop ends with. *)
Abbreviation closestIndexOf baseHsl :=
  (fst (closestLoop (l baseHsl) lightnessSteps)).

(** The state [(closestIndex, minDiff)] after the indices below [k] have
    been scanned: [minDiff] is the distance at [closestIndex], no scanned
    index is nearer, and every earlier one is strictly farther. *)
Definition closestInv (baseL : Q) (ls : list Q) (k : nat) (st : nat * Q) : Prop :=
  (fst st < k)%nat /\
  (exists t, nth_error ls (fst st) = Some t /\ snd st = Qabs (baseL - t)) /\
  (forall j t, (j < k)%nat -> nth_error ls j = Some t ->
     snd st <= Qabs (baseL - t) /\
     ((j < fst st)%nat -> snd st < Qabs (baseL - t))).

Definition channelsWithin (lo hi : Z) (c : RGB) : Prop :=
  (lo <= r c <= hi)%Z /\ (lo <= g c <= hi)%Z /\ (lo <= b c <= hi)%Z.

(** The channels shown at step [i] of the palette of the gray [v]. *)
Definition grayStep (v : Z) (i : nat) : RGB :=
  let rgb := mkRGB v v v in
  let baseHsl := rgbToHsl (inject_Z (r rgb)) (inject_Z (g rgb)) (inject_Z (b rgb)) in
  stepRgbAt rgb baseHsl (closestIndexOf baseHsl) i.

(* ------------------------------------------------------------------ *)
(** ** The hue by sector

    [rgbToHsl] and [rgbToHsv] compute the hue of the channels [r], [g], [b]
    (scaled to [[0, 1]]) from their maximum [Mx] and minimum [mn] in the
    same way.  [hexcone r g b Mx mn H] says what the hue [H], in degrees,
    then is: 0 for a gray, and otherwise [60 * k + X], where the sector
    [k] is 0 or 6, 2, 4 as the maximum is [r], [g], [b], and the offset [X],
    given by [X * (Mx - mn)], is 60 times the difference of the two other
    channels. *)
Definition hexcone (r g b Mx mn H : Q) : Prop :=
  (mn <= r /\ r <= Mx) /\ (mn <= g /\ g <= Mx) /\ (mn <= b /\ b <= Mx) /\
  ((mn == Mx /\ H == 0) \/
   (mn < Mx /\
    ((Mx == r /\ mn == b /\ H * (Mx - mn) == 60 * (g - b)) \/
     (Mx == r /\ mn == g /\ g < b /\ (H - 360) * (Mx - mn) == 60 * (g - b)) \/
     (Mx == g /\ mn == b /\ (H - 120) * (Mx - mn) == 60 * (b - r)) \/
     (Mx == g /\ mn == r /\ (H - 120) * (Mx - mn) == 60 * (b - r)) \/
     (Mx == b /\ mn == r /\ (H - 240) * (Mx - mn) == 60 * (r - g)) \/
     (Mx == b /\ mn == g /\ (H - 240) * (Mx - mn) == 60 * (r - g))))).

(** The label of the step nearest to a lightness, by the midpoints of
    neighbouring targets; a midpoint belongs to the lighter step. *)
Definition stepForLightness (lightness : Q) : Z :=
  if Qle_bool (925 # 10) lightness then 50
  else if Qle_bool 85 lightness then 100
  else if Qle_bool (725 # 10) lightness then 200
  else if Qle_bool (575 # 10) lightness then 300
  else if Qle_bool 45 lightness then 400
  else if Qle_bool 35 lightness then 500
  else if Qle_bool 25 lightness then 600
  else if Qle_bool 16 lightness then 700
  else if Qle_bool 10 lightness then 800
  else 900.



(* ------------------------------------------------------------------ *)
(** ** Finite checks

    Facts about the 256 byte values, the 22 hexadecimal digits, the 26 x 33
    names and the 256 grays are established by evaluating a boolean check
    over all of them. *)

(** [toHex] writes the byte [n] as [hexByte n], two upper-case digits whose
    value is [n]. *)
Definition byteCheck (n : nat) : bool :=
  let v := Z.of_nat n in
  let hex := toString16 v in
  String.eqb (toUpperCase (if (String.length hex =? 1)%nat then "0" ++ hex else hex))
             (hexByte v)
  && isUpperHexDigit (upperChar (hexDigitChar (v / 16)))
  && isUpperHexDigit (upperChar (hexDigitChar (v mod 16)))
  && (16 * hexDigitValue (upperChar (hexDigitChar (v / 16)))
      + hexDigitValue (upperChar (hexDigitChar (v mod 16))) =? v)%Z.

Definition hexChars : list ascii :=
  filter isHexDigit (List.map ascii_of_nat (seq 0 256)).

(** Two digits denote a byte, which [hexByte] writes back in upper case. *)
Definition pairCheck (c1 c2 : ascii) : bool :=
  let v := (16 * hexDigitValue c1 + hexDigitValue c2)%Z in
  String.eqb (hexByte v) (String (upperChar c1) (String (upperChar c2) EmptyString))
  && (0 <=? v)%Z && (v <=? 255)%Z.

(** The token of ["t g"] is [t] with a lower-case initial, then [g]. *)
Definition tokenCheck (t g : string) : bool :=
  String.eqb (lowerFirst (removeSpacesHyphens (t ++ " " ++ g)))
             (lowerFirst t ++ g)
  && negb (String.eqb t "").

Definition graySteps (v : Z) : list RGB := List.map (grayStep v) (seq 0 10).

(** Every step of a gray palette is a gray; the gray levels never increase
    along the ramp; when the last step is darker than near-black, the
    others are at least as light as level 31. *)
Definition grayCheck (n : nat) : bool :=
  let steps := graySteps (Z.of_nat n) in
  let last := r (nth 9 steps white) in
  forallb
    (fun i =>
       let c := nth i steps white in
       (g c =? r c)%Z && (b c =? r c)%Z && (0 <=? r c)%Z && (r c <=? 255)%Z
       && implb ((i <? 9)%nat && (last <? 10)%Z) (31 <=? r c)%Z
       && forallb (fun j => implb (i <=? j)%nat (r (nth j steps white) <=? r c)%Z)
            (seq 0 10))
    (seq 0 10).

(* ================================================================== *)
(** * Characters and strings *)

Ltac each_char c :=
  destruct c as [[] [] [] [] [] [] [] []]; vm_compute;
  try solve [intuition congruence].

Lemma isHexDigit_upperChar (c : ascii) :
  isHexDigit (upperChar c) = isHexDigit c.
Proof. each_char c. Qed.

Lemma hexDigitValue_upperChar (c : ascii) :
  isHexDigit c = true -> hexDigitValue (upperChar c) = hexDigitValue c.
Proof. each_char c. Qed.

Lemma upperChar_hash (c : ascii) :
  upperChar c = "#"%char <-> c = "#"%char.
Proof. each_char c. Qed.

Lemma isUpperHexDigit_upperChar (c : ascii) :
  isHexDigit c = true -> isUpperHexDigit (upperChar c) = true.
Proof. each_char c. Qed.

Lemma isUpperHexDigit_isHexDigit (c : ascii) :
  isUpperHexDigit c = true -> isHexDigit c = true.
Proof. each_char c. Qed.

Lemma isHexDigit_not_hash (c : ascii) :
  isHexDigit c = true -> c <> "#"%char.
Proof. each_char c. Qed.

Lemma toUpperCase_length (s : string) :
  String.length (toUpperCase s) = String.length s.
Proof. induction s; simpl; congruence. Qed.

Lemma toUpperCase_app (s t : string) :
  toUpperCase (s ++ t) = toUpperCase s ++ toUpperCase t.
Proof. induction s; simpl; congruence. Qed.

Lemma toUpperCase_doubleChars (s : string) :
  toUpperCase (doubleChars s) = doubleChars (toUpperCase s).
Proof. induction s; simpl; congruence. Qed.

Lemma toUpperCase_substring (n m : nat) (s : string) :
  toUpperCase (substring n m s) = substring n m (toUpperCase s).
Proof.
  revert n m; induction s as [|c s IH]; intros [|n] [|m]; simpl;
    try reflexivity; rewrite ?IH; reflexivity.
Qed.

Lemma allChars_isHexDigit_toUpperCase (s : string) :
  allChars isHexDigit (toUpperCase s) = allChars isHexDigit s.
Proof.
  induction s as [|c s IH]; simpl; [reflexivity|].
  now rewrite isHexDigit_upperChar, IH.
Qed.

Lemma allChars_doubleChars (p : ascii -> bool) (s : string) :
  allChars p (doubleChars s) = allChars p s.
Proof.
  induction s as [|c s IH]; simpl; [reflexivity|].
  rewrite IH. destruct (p c); reflexivity.
Qed.

Lemma doubleChars_length (s : string) :
  String.length (doubleChars s) = (2 * String.length s)%nat.
Proof. induction s; simpl; lia. Qed.

Lemma parseInt16_toUpperCase (s : string) :
  parseInt16 (toUpperCase s) = parseInt16 s.
Proof.
  unfold parseInt16. generalize 0%Z.
  induction s as [|c s IH]; intros acc; simpl; [reflexivity|].
  rewrite isHexDigit_upperChar.
  destruct (isHexDigit c) eqn:E; [|reflexivity].
  now rewrite hexDigitValue_upperChar, IH.
Qed.

Lemma stripHash_toUpperCase (hex : string) :
  stripHash (toUpperCase hex) = toUpperCase (stripHash hex).
Proof.
  destruct hex as [|c rest]; [reflexivity|].
  destruct (ascii_dec c "#") as [->|Hc]; [reflexivity|].
  assert (Hu : upperChar c <> "#"%char) by (now rewrite upperChar_hash).
  change (toUpperCase (String c rest))
    with (String (upperChar c) (toUpperCase rest)).
  assert (H1 : forall (d : ascii) (t : string), d <> "#"%char ->
             stripHash (String d t) = String d t).
  { intros d t Hd. each_char d. }
  rewrite !H1 by assumption. reflexivity.
Qed.

(* ================================================================== *)
(** * hexToRgb *)

Lemma testHex6_toUpperCase (s : string) :
  testHex6 (toUpperCase s) = testHex6 s.
Proof.
  unfold testHex6.
  now rewrite toUpperCase_length, allChars_isHexDigit_toUpperCase.
Qed.

Lemma hexToRgb_toUpperCase (hex : string) (rgb : RGB) :
  hexToRgb hex = Ok rgb -> hexToRgb (toUpperCase hex) = Ok rgb.
Proof.
  unfold hexToRgb.
  rewrite stripHash_toUpperCase, toUpperCase_length.
  set (clean := stripHash hex).
  assert (E : (if (String.length clean =? 3)%nat
               then doubleChars (toUpperCase clean) else toUpperCase clean)
              = toUpperCase (if (String.length clean =? 3)%nat
                             then doubleChars clean else clean)).
  { destruct (String.length clean =? 3)%nat;
      [now rewrite toUpperCase_doubleChars | reflexivity]. }
  rewrite E. clear E.
  set (c6 := if (String.length clean =? 3)%nat then doubleChars clean else clean).
  rewrite testHex6_toUpperCase.
  destruct (testHex6 c6); simpl; [|discriminate].
  rewrite <- !toUpperCase_substring, !parseInt16_toUpperCase.
  auto.
Qed.

Lemma hexToRgb_Throw (hex : string) (e : Error) :
  hexToRgb hex = Throw e -> e = mkError (invalidHexMessage hex).
Proof.
  unfold hexToRgb.
  destruct (negb (testHex6 _)); intros H; inversion H; reflexivity.
Qed.

Lemma stripHash_cases (hex : string) :
  (stripHash hex = hex /\ forall rest, hex <> String "#" rest) \/
  hex = String "#" (stripHash hex).
Proof.
  destruct hex as [|c rest]; [left; split; [reflexivity | discriminate]|].
  destruct (ascii_dec c "#") as [->|Hc]; [right; reflexivity|].
  left; split.
  - each_char c.
  - intros rest' E. inversion E. contradiction.
Qed.

Lemma allChars_hex_head (s : string) :
  allChars isHexDigit s = true -> forall rest, s <> String "#" rest.
Proof.
  intros H rest ->. simpl in H. discriminate.
Qed.

(** The test of [hexToRgb] on the cleaned string accepts exactly three or
    six hexadecimal digits. *)
Lemma hexToRgb_test (clean : string) :
  testHex6 (if (String.length clean =? 3)%nat then doubleChars clean else clean)
    = true
  <-> (String.length clean = 3%nat \/ String.length clean = 6%nat) /\
      allChars isHexDigit clean = true.
Proof.
  unfold testHex6.
  destruct (String.length clean =? 3)%nat eqn:E3.
  - apply Nat.eqb_eq in E3.
    rewrite doubleChars_length, allChars_doubleChars, E3. simpl.
    intuition.
  - apply Nat.eqb_neq in E3.
    rewrite andb_true_iff, Nat.eqb_eq. intuition.
Qed.

Lemma hexToRgb_Ok_iff (hex : string) :
  (exists rgb, hexToRgb hex = Ok rgb) <-> HexPattern hex.
Proof.
  assert (T := hexToRgb_test (stripHash hex)).
  split.
  - intros [rgb H]. unfold hexToRgb in H.
    destruct (testHex6 _) eqn:E in H; simpl in H; [|discriminate].
    apply T in E as [Hlen Hall].
    exists (stripHash hex). repeat split; try assumption.
    destruct (stripHash_cases hex) as [[-> _]|E']; [left|right]; auto.
  - intros (digits & Hhex & Hlen & Hall).
    assert (Hs : stripHash hex = digits).
    { destruct Hhex as [->| ->]; [|reflexivity].
      destruct (stripHash_cases digits) as [[E _]|E]; [exact E|].
      exfalso. exact (allChars_hex_head _ Hall _ E). }
    rewrite Hs in T. unfold hexToRgb. rewrite Hs.
    destruct T as [_ T]. rewrite (T (conj Hlen Hall)). simpl.
    eexists; reflexivity.
Qed.

Lemma hexToRgb_Throw_iff (hex : string) :
  hexToRgb hex = Throw (mkError (invalidHexMessage hex)) <-> ~ HexPattern hex.
Proof.
  rewrite <- hexToRgb_Ok_iff. split.
  - intros H [rgb H']. congruence.
  - intros H. destruct (hexToRgb hex) as [rgb|e] eqn:E.
    + exfalso. apply H. now exists rgb.
    + now rewrite (hexToRgb_Throw _ _ E).
Qed.

(* ================================================================== *)
(** * rgbToHex *)

Lemma byteCheck_all : forallb byteCheck (seq 0 256) = true.
Proof. vm_compute. reflexivity. Qed.

Lemma byteCheck_range (v : Z) :
  (0 <= v <= 255)%Z -> byteCheck (Z.to_nat v) = true.
Proof.
  intros Hv. apply (proj1 (forallb_forall _ _) byteCheck_all).
  apply in_seq. lia.
Qed.

Lemma clampByte_range (n : Q) : (0 <= clampByte n <= 255)%Z.
Proof. unfold clampByte. lia. Qed.

Lemma toHex_upper (n : Q) : toUpperCase (toHex n) = hexByte (clampByte n).
Proof.
  assert (H := byteCheck_range _ (clampByte_range n)).
  unfold byteCheck in H. rewrite Z2Nat.id in H by apply clampByte_range.
  rewrite !andb_true_iff in H. destruct H as [[[H _] _] _].
  apply String.eqb_eq in H. exact H.
Qed.

Lemma hexByte_digits (v : Z) :
  (0 <= v <= 255)%Z ->
  exists c1 c2, hexByte v = String c1 (String c2 EmptyString) /\
    isUpperHexDigit c1 = true /\ isUpperHexDigit c2 = true /\
    (16 * hexDigitValue c1 + hexDigitValue c2 = v)%Z.
Proof.
  intros Hv. assert (H := byteCheck_range _ Hv).
  unfold byteCheck in H. rewrite Z2Nat.id in H by lia.
  rewrite !andb_true_iff in H. destruct H as [[[_ H1] H2] H3].
  apply Z.eqb_eq in H3. do 2 eexists. unfold hexByte. eauto.
Qed.

Lemma rgbToHex_shape (r g b : Q) :
  rgbToHex r g b =
  String "#" (hexByte (clampByte r) ++ hexByte (clampByte g) ++ hexByte (clampByte b)).
Proof.
  unfold rgbToHex. rewrite !toUpperCase_app, !toHex_upper. reflexivity.
Qed.

Lemma hexToRgb_hexBytes (x y z : Z) :
  (0 <= x <= 255)%Z -> (0 <= y <= 255)%Z -> (0 <= z <= 255)%Z ->
  hexToRgb (String "#" (hexByte x ++ hexByte y ++ hexByte z)) = Ok (mkRGB x y z).
Proof.
  intros Hx Hy Hz.
  destruct (hexByte_digits x Hx) as (x1 & x2 & -> & X1 & X2 & <-).
  destruct (hexByte_digits y Hy) as (y1 & y2 & -> & Y1 & Y2 & <-).
  destruct (hexByte_digits z Hz) as (z1 & z2 & -> & Z1 & Z2 & <-).
  apply isUpperHexDigit_isHexDigit in X1, X2, Y1, Y2, Z1, Z2.
  unfold hexToRgb, testHex6, parseInt16. simpl.
  rewrite X1, X2, Y1, Y2, Z1, Z2. simpl. reflexivity.
Qed.

Lemma isUpperHex6_hexBytes (x y z : Z) :
  (0 <= x <= 255)%Z -> (0 <= y <= 255)%Z -> (0 <= z <= 255)%Z ->
  isUpperHex6 (String "#" (hexByte x ++ hexByte y ++ hexByte z)) = true.
Proof.
  intros Hx Hy Hz.
  destruct (hexByte_digits x Hx) as (x1 & x2 & -> & X1 & X2 & _).
  destruct (hexByte_digits y Hy) as (y1 & y2 & -> & Y1 & Y2 & _).
  destruct (hexByte_digits z Hz) as (z1 & z2 & -> & Z1 & Z2 & _).
  simpl. rewrite X1, X2, Y1, Y2, Z1, Z2. reflexivity.
Qed.

Lemma hexToRgb_rgbToHex (r g b : Q) :
  hexToRgb (rgbToHex r g b) = Ok (mkRGB (clampByte r) (clampByte g) (clampByte b)).
Proof.
  rewrite rgbToHex_shape. apply hexToRgb_hexBytes; apply clampByte_range.
Qed.

(* ================================================================== *)
(** * Rational arithmetic *)

Local Open Scope Q_scope.

Lemma Qltb_lt (x y : Q) : Qltb x y = true <-> x < y.
Proof.
  unfold Qltb. rewrite negb_true_iff. split; intros H.
  - apply Qnot_le_lt. intros H'. apply Qle_bool_iff in H'. congruence.
  - destruct (Qle_bool y x) eqn:E; [|reflexivity].
    apply Qle_bool_iff in E. exfalso. exact (Qlt_not_le _ _ H E).
Qed.

Lemma Qltb_ge (x y : Q) : Qltb x y = false <-> y <= x.
Proof.
  unfold Qltb. rewrite negb_false_iff. apply Qle_bool_iff.
Qed.

Lemma Qfloor_unique (x : Q) (z : Z) :
  inject_Z z <= x -> x < inject_Z (z + 1) -> Qfloor x = z.
Proof.
  intros H1 H2.
  assert (F1 := Qfloor_le x). assert (F2 := Qlt_floor x).
  assert (A : inject_Z z < inject_Z (Qfloor x + 1)) by lra.
  assert (B : inject_Z (Qfloor x) < inject_Z (z + 1)) by lra.
  rewrite <- Zlt_Qlt in A, B. lia.
Qed.

Lemma Qfloor_bounds (x : Q) (lo hi : Z) :
  inject_Z lo <= x -> x < inject_Z hi -> (lo <= Qfloor x < hi)%Z.
Proof.
  intros H1 H2.
  assert (F1 := Qfloor_le x). assert (F2 := Qlt_floor x).
  assert (A : inject_Z lo < inject_Z (Qfloor x + 1)) by lra.
  assert (B : inject_Z (Qfloor x) < inject_Z hi) by lra.
  rewrite <- Zlt_Qlt in A, B. lia.
Qed.

Lemma Qtrunc_nonneg (x : Q) : 0 <= x -> Qtrunc x = Qfloor x.
Proof.
  intros H. destruct x as [n d]. unfold Qtrunc, Qfloor. simpl.
  apply Z.quot_div_nonneg; [|reflexivity].
  unfold Qle in H. simpl in H. lia.
Qed.

(** On a non-negative dividend and a positive divisor, [%] is [mod]. *)
Lemma Qrem_Qmod (x n : Q) : 0 <= x -> 0 < n -> Qrem x n = Qmod x n.
Proof.
  intros Hx Hn. unfold Qrem, Qmod. rewrite Qtrunc_nonneg; [reflexivity|].
  apply Qle_shift_div_l; lra.
Qed.

Lemma Qmod_range (x n : Q) : 0 < n -> 0 <= Qmod x n /\ Qmod x n < n.
Proof.
  intros Hn. unfold Qmod.
  assert (F1 := Qfloor_le (x / n)). assert (F2 := Qlt_floor (x / n)).
  rewrite inject_Z_plus in F2.
  set (k := inject_Z (Qfloor (x / n))) in *.
  assert (E : x == n * (x / n)) by (field; lra).
  split.
  - assert (n * k <= n * (x / n)) by (apply Qmult_le_l; lra). lra.
  - assert (n * (x / n) < n * (k + inject_Z 1)) by (apply Qmult_lt_l; lra).
    change (inject_Z 1) with 1 in *. lra.
Qed.

Lemma norm_id (h : Q) : 0 <= h -> h < 360 -> norm h == h.
Proof.
  intros H0 H1. unfold norm. rewrite Qrem_Qmod by lra. unfold Qmod.
  assert (E : Qfloor ((h + 360) / 360) = 1%Z).
  { apply Qfloor_unique.
    - apply Qle_shift_div_l; [reflexivity|]. change (inject_Z 1) with 1. lra.
    - apply Qlt_shift_div_r; [reflexivity|]. change (inject_Z (1 + 1)) with 2. lra. }
  rewrite E. change (inject_Z 1) with 1. ring.
Qed.

(* ================================================================== *)
(** * Hue classifier *)

Lemma index_nonneg {A : Type} (arr : list A) (i : Z) :
  (0 <= i)%Z -> index arr i = nth_error arr (Z.to_nat i).
Proof.
  intros H. unfold index. destruct (Z.ltb_spec i 0); [lia | reflexivity].
Qed.

Lemma nth_error_lt_Some {A : Type} (arr : list A) (n : nat) :
  (n < List.length arr)%nat -> exists x, nth_error arr n = Some x.
Proof.
  intros H. destruct (nth_error arr n) eqn:E; [eauto|].
  apply nth_error_None in E. lia.
Qed.

Lemma choose_spec (h' h a b : Q) (names : list string) :
  names <> [] -> h' == h -> a <= h -> a < b ->
  nth_error names (bandIndex h a b (List.length names))
    = Some (choose h' a b names).
Proof.
  intros Hne Hh Ha Hab. unfold choose, bandIndex.
  set (len := Z.of_nat (List.length names)).
  assert (Hlen : (1 <= len)%Z).
  { subst len. destruct names; [contradiction | simpl; lia]. }
  assert (E : Qfloor ((h' - a) / (b - a) * inject_Z len)
              = Qfloor ((h - a) / (b - a) * inject_Z len)).
  { apply Qfloor_comp. now rewrite Hh. }
  unfold Math_floor. rewrite E.
  set (fl := Qfloor ((h - a) / (b - a) * inject_Z len)).
  assert (Hfl : (0 <= fl)%Z).
  { assert (P : 0 <= (h - a) / (b - a)) by (apply Qle_shift_div_l; lra).
    assert (L : 0 <= inject_Z len).
    { change 0 with (inject_Z 0). rewrite <- Zle_Qle. lia. }
    assert (M : 0 <= (h - a) / (b - a) * inject_Z len) by (apply Qmult_le_0_compat; assumption).
    destruct (Qfloor_bounds _ 0 (fl + 1) M (Qlt_floor _)). exact H. }
  rewrite index_nonneg by lia.
  replace (Z.to_nat (Z.min (len - 1) fl))
    with (Nat.min (List.length names - 1) (Z.to_nat fl)) by lia.
  destruct (nth_error_lt_Some names (Nat.min (List.length names - 1) (Z.to_nat fl)))
    as [x Hx]; [lia|].
  rewrite Hx. reflexivity.
Qed.


Lemma hueBands_vocabulary (a b : Q) (names : list string) (x : string) :
  In (a, b, names) hueBands -> In x names -> In x hueVocabulary.
Proof.
  intros Hb Hx. right. apply in_concat. exists names. split; [|exact Hx].
  change names with (snd (a, b, names)). now apply in_map.
Qed.

Ltac hue_band Hn :=
  match goal with
  | |- context [if Qltb (norm ?h) ?k then _ else _] =>
      let E := fresh "E" in
      destruct (Qltb (norm h) k) eqn:E;
      [ apply Qltb_lt in E | apply Qltb_ge in E ];
      rewrite Hn in E
  end.

Ltac hue_found Hn :=
  do 3 eexists; split;
  [ | split; [ | split; [ | apply choose_spec; [discriminate | exact Hn | | reflexivity ] ] ] ];
  [ unfold hueBands; simpl; tauto | lra | lra | lra ].

Lemma getHueName_band (h s : Q) :
  0 <= h -> h < 360 -> 8 <= s ->
  exists a b names,
    In (a, b, names) hueBands /\ a <= h /\ h < b /\
    nth_error names (bandIndex h a b (List.length names))
      = Some (getHueName h s).
Proof.
  intros H0 H1 Hs. assert (Hn := norm_id h H0 H1).
  unfold getHueName. apply Qltb_ge in Hs. rewrite Hs.
  hue_band Hn; [hue_found Hn|].
  hue_band Hn; [hue_found Hn|].
  hue_band Hn; [hue_found Hn|].
  hue_band Hn; [hue_found Hn|].
  hue_band Hn; [hue_found Hn|].
  hue_band Hn; [hue_found Hn|].
  hue_band Hn; [hue_found Hn|].
  hue_band Hn; [hue_found Hn|].
  hue_band Hn; [hue_found Hn|].
  hue_band Hn.
  { exists 240, 270, ["Indigo"].
    split; [unfold hueBands; simpl; tauto|].
    split; [lra|]. split; [lra|]. reflexivity. }
  hue_band Hn; [hue_found Hn|].
  hue_band Hn; [hue_found Hn|].
  hue_band Hn; [hue_found Hn|].
  hue_band Hn; [hue_found Hn|].
  hue_found Hn.
Qed.



(* ================================================================== *)
(** * Tone classifier *)



Lemma getToneName_bucket (s l h : Q) :
  exists bucket,
    toneBucket s l bucket /\ bucket <> [] /\
    getToneName s l h = deterministicPick bucket h s l.
Proof.
  unfold getToneName.
  repeat match goal with
  | |- context [if Qltb ?x ?y then _ else _] =>
      let E := fresh "E" in
      destruct (Qltb x y) eqn:E;
      [ apply Qltb_lt in E | apply Qltb_ge in E ]
  end;
  eexists; (split; [|split; [|reflexivity]]); try discriminate;
  constructor; lra.
Qed.



Lemma getToneName_vocabulary (s l h : Q) :
  In (getToneName s l h) toneVocabulary.
Proof.
  destruct (getToneName_bucket s l h) as (bucket & Hb & Hne & ->).
  assert (Hin : In (deterministicPick bucket h s l) bucket).
  { unfold deterministicPick.
    destruct (index bucket _) as [x|] eqn:E1; simpl.
    - unfold index in E1. destruct (_ <? 0)%Z; [discriminate|].
      now apply nth_error_In in E1.
    - destruct bucket as [|x rest]; [contradiction|]. simpl. now left. }
  destruct Hb; unfold toneVocabulary; simpl in *; tauto.
Qed.

Lemma getHueName_vocabulary (h s : Q) : In (getHueName h s) hueVocabulary.
Proof.
  assert (C : forall h' a b names, names <> [] -> In (choose h' a b names) names).
  { intros h' a b names Hne. unfold choose.
    destruct (index names (Z.min _ _)) as [x|] eqn:E1; simpl.
    - unfold index in E1. destruct (_ <? 0)%Z; [discriminate|].
      now apply nth_error_In in E1.
    - destruct names as [|x rest]; [contradiction|]. simpl. now left. }
  unfold getHueName.
  repeat match goal with
  | |- context [if Qltb ?x ?y then _ else _] => destruct (Qltb x y)
  end;
  match goal with
  | |- In (choose ?h' ?a ?b ?names) _ =>
      apply (hueBands_vocabulary a b names);
      [unfold hueBands; simpl; tauto | apply C; discriminate]
  | |- In "Neutral" _ => left; reflexivity
  | |- In "Indigo" _ =>
      apply (hueBands_vocabulary 240 270 ["Indigo"]);
      [unfold hueBands; simpl; tauto | left; reflexivity]
  end.
Qed.

(* ================================================================== *)
(** * Classification pipeline *)

Lemma classifyHexColor_Ok (hex : string) (rgb : RGB) :
  hexToRgb hex = Ok rgb ->
  exists c, classifyHexColor hex = Ok c /\
    hsl c = rgbToHsl (inject_Z (r rgb)) (inject_Z (g rgb)) (inject_Z (b rgb)) /\
    hueGroup c = getHueName (h (hsl c)) (s (hsl c)) /\
    tone c = getToneName (s (hsl c)) (l (hsl c)) (h (hsl c)).
Proof.
  intros H. unfold classifyHexColor. rewrite H. cbn [bind].
  eexists. split; [reflexivity|].
  cbn [hsl hueGroup tone]. auto.
Qed.

Lemma classifyHexColor_inv (hex : string) (c : ColorClassification) :
  classifyHexColor hex = Ok c ->
  exists rgb, hexToRgb hex = Ok rgb /\
    hsl c = rgbToHsl (inject_Z (r rgb)) (inject_Z (g rgb)) (inject_Z (b rgb)) /\
    hueGroup c = getHueName (h (hsl c)) (s (hsl c)) /\
    tone c = getToneName (s (hsl c)) (l (hsl c)) (h (hsl c)) /\
    fullName c = (if String.eqb (hueGroup c) "Neutral" then tone c ++ " Neutral"
                  else tone c ++ " " ++ hueGroup c)%string /\
    tokenName c = lowerFirst (removeSpacesHyphens (fullName c)).
Proof.
  intros H. destruct (hexToRgb hex) as [rgb|e] eqn:E.
  - unfold classifyHexColor in H. rewrite E in H. cbn [bind] in H.
    apply (f_equal (fun x => match x with Ok y => y | Throw _ => c end)) in H.
    cbv beta iota in H. subst c.
    cbn [hsl hueGroup tone fullName tokenName]. exists rgb. auto 10.
  - unfold classifyHexColor in H. rewrite E in H. discriminate.
Qed.

Lemma classifyHexColor_Throw (hex : string) (e : Error) :
  classifyHexColor hex = Throw e -> hexToRgb hex = Throw e.
Proof.
  intros H. unfold classifyHexColor in H.
  destruct (hexToRgb hex) as [rgb|e']; cbn [bind] in H.
  - discriminate.
  - inversion H; reflexivity.
Qed.

Lemma tokenCheck_all :
  forallb (fun t => forallb (tokenCheck t) hueVocabulary) toneVocabulary = true.
Proof. vm_compute. reflexivity. Qed.

Lemma token_of_vocabulary (t g : string) :
  In t toneVocabulary -> In g hueVocabulary ->
  lowerFirst (removeSpacesHyphens (t ++ " " ++ g)) = (lowerFirst t ++ g)%string
  /\ t <> "".
Proof.
  intros Ht Hg.
  assert (H := proj1 (forallb_forall _ _) tokenCheck_all t Ht). cbv beta in H.
  assert (H' := proj1 (forallb_forall _ _) H g Hg).
  unfold tokenCheck in H'. apply andb_true_iff in H' as [H1 H2].
  apply String.eqb_eq in H1. split; [exact H1|].
  intros ->. discriminate.
Qed.

(** C8.  For an accepted colour, [fullName] is ["{tone} Neutral"] when the
    hue group is ["Neutral"] and ["{tone} {hueGroup}"] otherwise;
    [tokenName] is [fullName] with whitespace and hyphens removed and its
    first character lower-cased, that is the tone with a lower-case initial
    followed by the hue group as it stands. *)
Theorem classifyHexColor_names (hex : string) (c : ColorClassification) :
  classifyHexColor hex = Ok c ->
  (hueGroup c = "Neutral" -> fullName c = (tone c ++ " Neutral")%string) /\
  (hueGroup c <> "Neutral" -> fullName c = (tone c ++ " " ++ hueGroup c)%string) /\
  tokenName c = lowerFirst (removeSpacesHyphens (fullName c)) /\
  (exists c0 rest, tone c = String c0 rest /\
     tokenName c = String (lowerChar c0) (rest ++ hueGroup c)).
Proof.
  intros H.
  destruct (classifyHexColor_inv _ _ H) as (rgb & _ & _ & Hg & Ht & Hf & Hk).
  assert (Ef : fullName c = (tone c ++ " " ++ hueGroup c)%string).
  { rewrite Hf. destruct (String.eqb_spec (hueGroup c) "Neutral") as [E|E];
      [rewrite E|]; reflexivity. }
  split; [intros E; rewrite Ef, E; reflexivity|].
  split; [intros _; exact Ef|].
  split; [exact Hk|].
  assert (Vt : In (tone c) toneVocabulary)
    by (rewrite Ht; apply getToneName_vocabulary).
  assert (Vg : In (hueGroup c) hueVocabulary)
    by (rewrite Hg; apply getHueName_vocabulary).
  destruct (token_of_vocabulary _ _ Vt Vg) as [E Hne].
  rewrite Hk, Ef, E.
  destruct (tone c) as [|c0 rest]; [contradiction|].
  exists c0, rest. split; [reflexivity|].
  assert (L : isLineTerminator c0 = false).
  { clear - Vt. unfold toneVocabulary in Vt. simpl in Vt.
    repeat (destruct Vt as [Vt|Vt]; [inversion Vt; reflexivity|]).
    contradiction. }
  simpl. rewrite L. reflexivity.
Qed.

Lemma classifyHexColor_names_witness :
  exists c, classifyHexColor "#3B82F6" = Ok c /\
    fullName c = "Vivid Blue" /\ tokenName c = "vividBlue" /\
    tokenName c = lowerFirst (removeSpacesHyphens (fullName c)).
Proof.
  eexists. split; [vm_compute; reflexivity|].
  split; [reflexivity|]. split; [reflexivity|].
  eapply (classifyHexColor_names "#3B82F6"). vm_compute. reflexivity.
Defined.

Example token_bright_azure :
  lowerFirst (removeSpacesHyphens "Bright Azure") = "brightAzure".
Proof. reflexivity. Qed.

(* ================================================================== *)
(** * Palette synthesizer: the steps in closed form *)

Lemma getLuminanceHex_Ok (hex : string) (rgb : RGB) :
  hexToRgb hex = Ok rgb -> getLuminanceHex hex = Ok (luminance rgb).
Proof. intros H. unfold getLuminanceHex. rewrite H. reflexivity. Qed.

Lemma getContrastRatio_Ok (a b : string) (ra rb : RGB) :
  hexToRgb a = Ok ra -> hexToRgb b = Ok rb ->
  getContrastRatio a b = Ok (contrast (luminance ra) (luminance rb)).
Proof.
  intros Ha Hb. unfold getContrastRatio.
  rewrite (getLuminanceHex_Ok _ _ Ha), (getLuminanceHex_Ok _ _ Hb).
  reflexivity.
Qed.

Lemma hexToRgb_white : hexToRgb "#FFFFFF" = Ok white.
Proof. reflexivity. Qed.

Lemma hexToRgb_nearBlack : hexToRgb "#0A0A0A" = Ok nearBlack.
Proof. reflexivity. Qed.

Lemma Math_round_inject_Z (z : Z) : Math_round (inject_Z z) = z.
Proof.
  unfold Math_round. apply Qfloor_unique.
  - lra.
  - rewrite inject_Z_plus. change (inject_Z 1) with 1. lra.
Qed.

Lemma hexToRgb_hslToHex (h s l : Q) :
  hexToRgb (hslToHex h s l) = Ok (clampRgb (hslToRgb h s l)).
Proof.
  unfold hslToHex. rewrite hexToRgb_rgbToHex.
  unfold clampByte, clampRgb, clamp255. now rewrite !Math_round_inject_Z.
Qed.

Lemma hexToRgb_stepHexAt (hex : string) (rgb : RGB) (baseHsl : HSL) (ci i : nat) :
  hexToRgb hex = Ok rgb ->
  hexToRgb (stepHexAt hex baseHsl ci i) = Ok (stepRgbAt rgb baseHsl ci i).
Proof.
  intros H. unfold stepHexAt, stepRgbAt.
  destruct (i =? ci)%nat.
  - now apply hexToRgb_toUpperCase.
  - unfold synthesizedHex, synthesizedRgb. apply hexToRgb_hslToHex.
Qed.

Lemma stepIteration_Ok (hex : string) (rgb : RGB) (baseHsl : HSL) (ci i : nat)
    (acc : list ColorStep) :
  hexToRgb hex = Ok rgb -> (i < 10)%nat ->
  stepIteration hex baseHsl ci stepValues lightnessSteps acc i
    = Ok (acc ++ [stepAt hex rgb baseHsl ci i])%list.
Proof.
  intros H Hi. unfold stepIteration.
  assert (E1 : nth_error stepValues i = Some (nth i stepValues 0%Z))
    by (apply nth_error_nth'; simpl; lia).
  assert (E2 : nth_error lightnessSteps i = Some (nth i lightnessSteps 0))
    by (apply nth_error_nth'; simpl; lia).
  rewrite E1, E2.
  set (stepHex := if (i =? ci)%nat then toUpperCase hex else _).
  assert (Es : stepHex = stepHexAt hex baseHsl ci i).
  { subst stepHex. unfold stepHexAt, synthesizedHex.
    destruct (i =? ci)%nat; [reflexivity|].
    do 10 (destruct i as [|i]; [reflexivity|]). lia. }
  rewrite Es.
  assert (Hrgb := hexToRgb_stepHexAt hex rgb baseHsl ci i H).
  rewrite (getContrastRatio_Ok _ _ _ _ Hrgb hexToRgb_white).
  rewrite (getContrastRatio_Ok _ _ _ _ Hrgb hexToRgb_nearBlack).
  reflexivity.
Qed.

Lemma stepLoop_map (body : list ColorStep -> nat -> result (list ColorStep))
    (f : nat -> ColorStep) (indices : list nat) :
  (forall i acc, In i indices -> body acc i = Ok (acc ++ [f i])%list) ->
  forall acc, stepLoop body indices acc = Ok (acc ++ List.map f indices)%list.
Proof.
  induction indices as [|i rest IH]; intros Hb acc; simpl.
  - now rewrite app_nil_r.
  - rewrite Hb by (now left). simpl.
    rewrite IH by (intros; apply Hb; now right).
    now rewrite <- app_assoc.
Qed.

Lemma stepValues_length : List.length stepValues = 10%nat.
Proof. reflexivity. Qed.

(** An accepted colour yields the ten steps [stepAt ... 0 .. stepAt ... 9]. *)
Lemma generateColorPalette_Ok (hex : string) (rgb : RGB) :
  hexToRgb hex = Ok rgb ->
  exists c,
    classifyHexColor hex = Ok c /\
    generateColorPalette hex =
      Ok {| name := fullName c;
            tokenName' := tokenName c;
            chosenStep := orElse (nth_error stepValues (closestIndexOf (hsl c))) 500%Z;
            steps := List.map (stepAt hex rgb (hsl c) (closestIndexOf (hsl c)))
                       (seq 0 10);
            classification := c |}.
Proof.
  intros H. destruct (classifyHexColor_Ok _ _ H) as (c & Hc & _).
  exists c. split; [exact Hc|].
  unfold generateColorPalette. rewrite Hc, stepValues_length.
  cbn [bind]. cbv zeta.
  rewrite (stepLoop_map _ (stepAt hex rgb (hsl c) (closestIndexOf (hsl c)))).
  - cbn [bind app]. reflexivity.
  - intros i acc Hi. apply stepIteration_Ok; [exact H|].
    apply in_seq in Hi. lia.
Qed.

Lemma generateColorPalette_inv (hex : string) (p : ColorPalette) :
  generateColorPalette hex = Ok p ->
  exists rgb,
    hexToRgb hex = Ok rgb /\
    classifyHexColor hex = Ok (classification p) /\
    name p = fullName (classification p) /\
    tokenName' p = tokenName (classification p) /\
    chosenStep p =
      orElse (nth_error stepValues (closestIndexOf (hsl (classification p)))) 500%Z /\
    steps p = List.map (stepAt hex rgb (hsl (classification p))
                          (closestIndexOf (hsl (classification p)))) (seq 0 10).
Proof.
  intros Hp.
  destruct (hexToRgb hex) as [rgb|e] eqn:H.
  - destruct (generateColorPalette_Ok _ _ H) as (c & Hc & Hg).
    rewrite Hg in Hp.
    apply (f_equal (fun x => match x with Ok y => y | Throw _ => p end)) in Hp.
    cbv beta iota in Hp. subst p.
    cbn [name tokenName' chosenStep steps classification].
    exists rgb. auto 10.
  - unfold generateColorPalette, classifyHexColor in Hp. rewrite H in Hp.
    discriminate.
Qed.

Lemma generateColorPalette_Throw (hex : string) (e : Error) :
  generateColorPalette hex = Throw e -> hexToRgb hex = Throw e.
Proof.
  intros Hp. destruct (hexToRgb hex) as [rgb|e'] eqn:H.
  - destruct (generateColorPalette_Ok _ _ H) as (c & _ & Hg). congruence.
  - unfold generateColorPalette, classifyHexColor in Hp. rewrite H in Hp.
    cbn [bind] in Hp. inversion Hp. reflexivity.
Qed.

(* ================================================================== *)
(** * The closest step *)

Lemma closestIteration_inv (baseL : Q) (ls : list Q) (k : nat) (st : nat * Q) :
  closestInv baseL ls k st -> (k < List.length ls)%nat ->
  closestInv baseL ls (S k) (closestIteration baseL ls st k).
Proof.
  intros (Hlt & (t0 & Ht0 & Hmd) & Hall) Hk.
  destruct (nth_error_lt_Some ls k Hk) as [t Ht].
  unfold closestIteration. rewrite Ht.
  destruct (Qltb (Qabs (baseL - t)) (snd st)) eqn:E.
  - apply Qltb_lt in E. repeat split; cbn [fst snd].
    + lia.
    + exists t. auto.
    + destruct (Nat.eq_dec j k) as [->|Hj].
      * rewrite Ht in H0. inversion H0. apply Qle_refl.
      * destruct (Hall j t1 ltac:(lia) H0) as [A _]. lra.
    + intros Hjk. destruct (Hall j t1 ltac:(lia) H0) as [A _]. lra.
  - apply Qltb_ge in E. repeat split.
    + lia.
    + exists t0. auto.
    + destruct (Nat.eq_dec j k) as [->|Hj].
      * rewrite Ht in H0. inversion H0. subst. exact E.
      * now destruct (Hall j t1 ltac:(lia) H0).
    + intros Hj. destruct (Hall j t1 ltac:(lia) H0) as [_ B]. now apply B.
Qed.

Lemma closestFold_inv (baseL : Q) (ls : list Q) (n : nat) :
  forall (k : nat) (st : nat * Q),
    closestInv baseL ls k st -> (k + n <= List.length ls)%nat ->
    closestInv baseL ls (k + n)
      (fold_left (closestIteration baseL ls) (seq k n) st).
Proof.
  induction n as [|n IH]; intros k st Hinv Hk; simpl.
  - now rewrite Nat.add_0_r.
  - replace (k + S n)%nat with (S k + n)%nat by lia.
    apply IH; [|lia]. apply closestIteration_inv; [exact Hinv | lia].
Qed.

Lemma closestLoop_spec (baseL : Q) (ls : list Q) :
  ls <> [] -> closestInv baseL ls (List.length ls) (closestLoop baseL ls).
Proof.
  intros Hne. destruct ls as [|t0 rest]; [contradiction|].
  unfold closestLoop.
  replace (List.length (t0 :: rest)) with (1 + (List.length (t0 :: rest) - 1))%nat
    at 1 by (simpl; lia).
  apply closestFold_inv; [|simpl; lia].
  repeat split; cbn [fst snd].
  - lia.
  - exists t0. auto.
  - destruct j; [|lia]. simpl in H0. inversion H0. apply Qle_refl.
  - lia.
Qed.

Lemma closestIndex_lt (baseHsl : HSL) : (closestIndexOf baseHsl < 10)%nat.
Proof.
  destruct (closestLoop_spec (l baseHsl) lightnessSteps) as [H _];
    [discriminate | exact H].
Qed.

Lemma hexToHsl_Ok (hex : string) (rgb : RGB) :
  hexToRgb hex = Ok rgb ->
  hexToHsl hex
    = Ok (rgbToHsl (inject_Z (r rgb)) (inject_Z (g rgb)) (inject_Z (b rgb))).
Proof. intros H. unfold hexToHsl. rewrite H. reflexivity. Qed.

Lemma steps_length (hex : string) (rgb : RGB) (baseHsl : HSL) (ci : nat) :
  List.length (List.map (stepAt hex rgb baseHsl ci) (seq 0 10)) = 10%nat.
Proof. now rewrite length_map, length_seq. Qed.

Lemma steps_labels (hex : string) (rgb : RGB) (baseHsl : HSL) (ci : nat) :
  List.map step (List.map (stepAt hex rgb baseHsl ci) (seq 0 10)) = stepValues.
Proof. rewrite map_map. reflexivity. Qed.

(** C3.  For an accepted colour the palette has exactly ten steps, labelled
    50, 100, 200, ..., 900 in this order, and [chosenStep] is the label (not
    the position) found at the position whose target lightness, among
    95, 90, 80, 65, 50, 40, 30, 20, 12, 8, is nearest to the HSL lightness of
    the input colour: no target is nearer, and every target at an earlier
    position is strictly farther. *)
Theorem generateColorPalette_shape (hex : string) (p : ColorPalette) :
  generateColorPalette hex = Ok p ->
  List.length (steps p) = 10%nat /\
  List.map step (steps p) = [50; 100; 200; 300; 400; 500; 600; 700; 800; 900]%Z /\
  exists (baseHsl : HSL) (i : nat) (target : Q),
    hexToHsl hex = Ok baseHsl /\
    nth_error [95; 90; 80; 65; 50; 40; 30; 20; 12; 8] i = Some target /\
    nth_error [50; 100; 200; 300; 400; 500; 600; 700; 800; 900]%Z i
      = Some (chosenStep p) /\
    forall (j : nat) (t : Q),
      nth_error [95; 90; 80; 65; 50; 40; 30; 20; 12; 8] j = Some t ->
      Qabs (l baseHsl - target) <= Qabs (l baseHsl - t) /\
      ((j < i)%nat -> Qabs (l baseHsl - target) < Qabs (l baseHsl - t)).
Proof.
  intros Hp.
  destruct (generateColorPalette_inv _ _ Hp) as (rgb & Hrgb & Hc & _ & _ & Hch & Hst).
  destruct (classifyHexColor_inv _ _ Hc) as (rgb' & Hrgb' & Hhsl & _).
  rewrite Hst. split; [apply steps_length|]. split; [apply steps_labels|].
  set (baseHsl := hsl (classification p)) in *.
  destruct (closestLoop_spec (l baseHsl) lightnessSteps ltac:(discriminate))
    as (Hlt & (t & Ht & Hmd) & Hall).
  exists baseHsl, (closestIndexOf baseHsl), t.
  split; [rewrite Hhsl; now apply hexToHsl_Ok|].
  split; [exact Ht|]. split.
  - rewrite Hch.
    destruct (nth_error_lt_Some stepValues (closestIndexOf baseHsl) Hlt) as [x Hx].
    change (nth_error stepValues (closestIndexOf baseHsl) = Some (orElse
      (nth_error stepValues (closestIndexOf baseHsl)) 500%Z)).
    rewrite Hx. reflexivity.
  - intros j t' Hj. change (nth_error lightnessSteps j = Some t') in Hj.
    rewrite <- Hmd. apply Hall; [|exact Hj].
    apply nth_error_Some. rewrite Hj. discriminate.
Qed.

Lemma generateColorPalette_shape_witness :
  exists p, generateColorPalette "#000000" = Ok p /\
    List.length (steps p) = 10%nat /\
    List.map step (steps p) = [50; 100; 200; 300; 400; 500; 600; 700; 800; 900]%Z.
Proof.
  destruct (generateColorPalette_Ok "#000000" (mkRGB 0 0 0) eq_refl)
    as (c & _ & Hg).
  eexists. split; [exact Hg|].
  destruct (generateColorPalette_shape _ _ Hg) as (H1 & H2 & _).
  split; assumption.
Defined.

(* ================================================================== *)
(** * The chosen step *)

Lemma pairCheck_all :
  forallb (fun c1 => forallb (pairCheck c1) hexChars) hexChars = true.
Proof. vm_compute. reflexivity. Qed.

Lemma hexChars_In (c : ascii) : isHexDigit c = true -> In c hexChars.
Proof.
  intros H. apply filter_In. split; [|exact H].
  rewrite <- (ascii_nat_embedding c). apply in_map. apply in_seq.
  assert (B := nat_ascii_bounded c). lia.
Qed.

Lemma hexByte_of_digits (c1 c2 : ascii) :
  isHexDigit c1 = true -> isHexDigit c2 = true ->
  let v := (16 * hexDigitValue c1 + hexDigitValue c2)%Z in
  hexByte v = String (upperChar c1) (String (upperChar c2) EmptyString) /\
  (0 <= v <= 255)%Z.
Proof.
  intros H1 H2.
  assert (A := proj1 (forallb_forall _ _) pairCheck_all c1 (hexChars_In _ H1)).
  cbv beta in A.
  assert (B := proj1 (forallb_forall _ _) A c2 (hexChars_In _ H2)).
  unfold pairCheck in B. rewrite !andb_true_iff in B.
  destruct B as [[B1 B2] B3]. apply String.eqb_eq in B1.
  cbv zeta. split; [exact B1 | lia].
Qed.

Lemma clampByte_inject_Z (z : Z) : (0 <= z <= 255)%Z -> clampByte (inject_Z z) = z.
Proof. intros H. unfold clampByte. rewrite Math_round_inject_Z. lia. Qed.

Lemma hexToRgb_six (c1 c2 c3 c4 c5 c6 : ascii) :
  isHexDigit c1 = true -> isHexDigit c2 = true -> isHexDigit c3 = true ->
  isHexDigit c4 = true -> isHexDigit c5 = true -> isHexDigit c6 = true ->
  hexToRgb (String "#" (String c1 (String c2 (String c3 (String c4
             (String c5 (String c6 EmptyString)))))))
  = Ok (mkRGB (16 * hexDigitValue c1 + hexDigitValue c2)
              (16 * hexDigitValue c3 + hexDigitValue c4)
              (16 * hexDigitValue c5 + hexDigitValue c6)).
Proof.
  intros E1 E2 E3 E4 E5 E6.
  unfold hexToRgb, testHex6, parseInt16. simpl.
  rewrite E1, E2, E3, E4, E5, E6. simpl. reflexivity.
Qed.

Lemma hexToRgb_seven_digits (d : string) (rgb : RGB) :
  hexToRgb (String "#" d) = Ok rgb -> allChars isHexDigit d = true.
Proof.
  unfold hexToRgb, testHex6. cbn [stripHash].
  destruct (String.length d =? 3)%nat.
  - rewrite allChars_doubleChars.
    destruct (allChars isHexDigit d); [reflexivity|].
    rewrite andb_false_r. discriminate.
  - destruct (allChars isHexDigit d); [reflexivity|].
    rewrite andb_false_r. discriminate.
Qed.

(** A colour already written as [#] and six digits is normalized by
    upper-casing it. *)
Lemma normalizeHex_full (hex : string) (rgb : RGB) :
  hexToRgb hex = Ok rgb -> String.length hex = 7%nat ->
  toUpperCase hex = normalizeHex hex.
Proof.
  intros H Hlen. unfold normalizeHex. rewrite H.
  destruct (stripHash_cases hex) as [[E _]|E].
  - exfalso. unfold hexToRgb, testHex6 in H. cbv zeta in H.
    rewrite E, Hlen in H. simpl in H. rewrite Hlen in H. discriminate.
  - rewrite E in Hlen, H |- *. set (d := stripHash hex) in *. clearbody d.
    assert (Hall := hexToRgb_seven_digits _ _ H).
    simpl in Hlen.
    do 6 (destruct d as [|? d]; [discriminate|]).
    destruct d; [|discriminate]. clear Hlen E.
    simpl in Hall. rewrite !andb_true_iff in Hall.
    destruct Hall as (E1 & E2 & E3 & E4 & E5 & E6 & _).
    rewrite hexToRgb_six in H by assumption.
    assert (Hr : mkRGB (16 * hexDigitValue a + hexDigitValue a0)
                       (16 * hexDigitValue a1 + hexDigitValue a2)
                       (16 * hexDigitValue a3 + hexDigitValue a4) = rgb)
      by congruence.
    subst rgb. clear H. cbn [r g b].
    destruct (hexByte_of_digits a a0 E1 E2) as [P1 R1].
    destruct (hexByte_of_digits a1 a2 E3 E4) as [P2 R2].
    destruct (hexByte_of_digits a3 a4 E5 E6) as [P3 R3].
    cbv zeta in *.
    rewrite rgbToHex_shape.
    rewrite !clampByte_inject_Z by assumption.
    rewrite P1, P2, P3. reflexivity.
Qed.

Lemma filter_chosen (hex : string) (rgb : RGB) (baseHsl : HSL) (ci : nat) (n : nat) :
  forall a : nat,
    filter isChosenColor (List.map (stepAt hex rgb baseHsl ci) (seq a n))
    = if ((a <=? ci) && (ci <? a + n))%nat
      then [stepAt hex rgb baseHsl ci ci] else [].
Proof.
  induction n as [|n IH]; intros a.
  - cbn [seq List.map filter].
    destruct (Nat.leb_spec a ci), (Nat.ltb_spec ci (a + 0)); try reflexivity; lia.
  - cbn [seq List.map filter].
    change (isChosenColor (stepAt hex rgb baseHsl ci a)) with (a =? ci)%nat.
    rewrite IH.
    destruct (Nat.eqb_spec a ci) as [->|Hne].
    + destruct (Nat.leb_spec (S ci) ci), (Nat.leb_spec ci ci),
        (Nat.ltb_spec ci (ci + S n)); try lia. reflexivity.
    + destruct (Nat.leb_spec (S a) ci), (Nat.ltb_spec ci (S a + n)),
        (Nat.leb_spec a ci), (Nat.ltb_spec ci (a + S n)); try lia; reflexivity.
Qed.

Lemma chosen_step (input : string) (p : ColorPalette) :
  generateColorPalette input = Ok p ->
  exists st, filter isChosenColor (steps p) = [st] /\
             hex st = toUpperCase input.
Proof.
  intros Hp.
  destruct (generateColorPalette_inv _ _ Hp) as (rgb & _ & _ & _ & _ & _ & Hst).
  rewrite Hst, filter_chosen.
  assert (Hlt := closestIndex_lt (hsl (classification p))).
  set (ci := closestIndexOf (hsl (classification p))) in *.
  destruct (Nat.leb_spec 0 ci), (Nat.ltb_spec ci (0 + 10)); try lia.
  eexists. split; [reflexivity|].
  cbn [hex stepAt]. unfold stepHexAt. now rewrite Nat.eqb_refl.
Qed.

(** C1 (as the code has it).  For every accepted colour exactly one of the
    steps has [isChosenColor = true], and the hex of that step is the input
    string upper-cased, character by character; this is the input
    normalized to six upper-case digits after [#] whenever the input is
    itself written with [#] and six digits. *)
Theorem generateColorPalette_chosen (input : string) (p : ColorPalette) :
  generateColorPalette input = Ok p ->
  (exists st, filter isChosenColor (steps p) = [st] /\
              hex st = toUpperCase input) /\
  (String.length input = 7%nat -> toUpperCase input = normalizeHex input).
Proof.
  intros Hp. split; [now apply chosen_step|].
  destruct (generateColorPalette_inv _ _ Hp) as (rgb & Hrgb & _).
  now apply (normalizeHex_full input rgb).
Qed.

Lemma generateColorPalette_chosen_witness :
  exists p st, generateColorPalette "#3B82F6" = Ok p /\
    filter isChosenColor (steps p) = [st] /\ hex st = "#3B82F6".
Proof.
  destruct (generateColorPalette_Ok "#3B82F6" _ eq_refl) as (c & _ & Hg).
  destruct (generateColorPalette_chosen _ _ Hg) as [(st & Hf & Hh) _].
  eexists. exists st. split; [exact Hg|]. split; assumption.
Defined.

(** C1 as stated fails on shorthand input: for ["#f53"] the chosen step
    shows ["#F53"], not the normalized ["#FF5533"]. *)
Lemma chosen_hex_shorthand_not_normalized :
  exists p st,
    generateColorPalette "#f53" = Ok p /\
    filter isChosenColor (steps p) = [st] /\
    hex st = "#F53" /\
    normalizeHex "#f53" = "#FF5533" /\
    hex st <> normalizeHex "#f53".
Proof.
  destruct (generateColorPalette_Ok "#f53" _ eq_refl) as (c & _ & Hg).
  destruct (chosen_step _ _ Hg) as (st & Hf & Hh).
  eexists. exists st. split; [exact Hg|]. split; [exact Hf|].
  split; [exact Hh|]. split; [reflexivity|].
  rewrite Hh. discriminate.
Qed.

(* ================================================================== *)
(** * Synthesized steps *)

Lemma steps_nth (input : string) (rgb : RGB) (baseHsl : HSL) (ci i : nat)
    (st : ColorStep) :
  nth_error (List.map (stepAt input rgb baseHsl ci) (seq 0 10)) i = Some st ->
  (i < 10)%nat /\ st = stepAt input rgb baseHsl ci i.
Proof.
  intros H.
  assert (Hi : (i < 10)%nat).
  { rewrite <- (steps_length input rgb baseHsl ci).
    apply nth_error_Some. rewrite H. discriminate. }
  split; [exact Hi|].
  rewrite nth_error_map, nth_error_seq in H.
  destruct (Nat.ltb_spec i 10); [|lia].
  simpl in H. congruence.
Qed.

Lemma steps_In (input : string) (rgb : RGB) (baseHsl : HSL) (ci : nat)
    (st : ColorStep) :
  In st (List.map (stepAt input rgb baseHsl ci) (seq 0 10)) ->
  exists i, (i < 10)%nat /\ st = stepAt input rgb baseHsl ci i.
Proof.
  intros H. apply in_map_iff in H as (i & <- & Hi).
  apply in_seq in Hi. exists i. split; [lia | reflexivity].
Qed.

Lemma stepAt_not_chosen (input : string) (rgb : RGB) (baseHsl : HSL) (ci i : nat) :
  isChosenColor (stepAt input rgb baseHsl ci i) = false ->
  hex (stepAt input rgb baseHsl ci i) = synthesizedHex baseHsl i.
Proof.
  cbn [isChosenColor hex stepAt]. unfold stepHexAt. now intros ->.
Qed.



(** C10.  For an accepted colour, whatever the form of the input, every
    step that is not the chosen one shows [#] followed by exactly six
    upper-case hexadecimal digits. *)
Theorem generateColorPalette_synthesized_format (input : string) (p : ColorPalette) :
  generateColorPalette input = Ok p ->
  forall st : ColorStep,
    In st (steps p) -> isChosenColor st = false -> isUpperHex6 (hex st) = true.
Proof.
  intros Hp st Hin Hch.
  destruct (generateColorPalette_inv _ _ Hp) as (rgb & _ & _ & _ & _ & _ & Hst).
  rewrite Hst in Hin. apply steps_In in Hin as (i & _ & ->).
  rewrite (stepAt_not_chosen _ _ _ _ _ Hch).
  unfold synthesizedHex, hslToHex. rewrite rgbToHex_shape.
  apply isUpperHex6_hexBytes; apply clampByte_range.
Qed.

Lemma generateColorPalette_synthesized_format_witness :
  exists p, generateColorPalette "f53" = Ok p /\
    forall st, In st (steps p) -> isChosenColor st = false ->
      isUpperHex6 (hex st) = true.
Proof.
  destruct (generateColorPalette_Ok "f53" _ eq_refl) as (c & _ & Hg).
  eexists. split; [exact Hg|].
  exact (generateColorPalette_synthesized_format _ _ Hg).
Defined.

(* ================================================================== *)
(** * Errors *)

(** C7.  [classifyHexColor] and [generateColorPalette] succeed exactly on
    the strings made of one optional [#] followed by exactly three or
    exactly six hexadecimal digits; on every other string both throw the
    error that [hexToRgb] throws for that string, unchanged, and neither
    ever throws anything else. *)
Theorem entry_points_errors (input : string) :
  (HexPattern input <-> exists c, classifyHexColor input = Ok c) /\
  (HexPattern input <-> exists p, generateColorPalette input = Ok p) /\
  (~ HexPattern input <->
     classifyHexColor input = Throw (mkError (invalidHexMessage input))) /\
  (~ HexPattern input <->
     generateColorPalette input = Throw (mkError (invalidHexMessage input))) /\
  (forall e, classifyHexColor input = Throw e \/ generateColorPalette input = Throw e ->
     hexToRgb input = Throw e /\ e = mkError (invalidHexMessage input)).
Proof.
  assert (Hok : HexPattern input ->
                (exists c, classifyHexColor input = Ok c) /\
                (exists p, generateColorPalette input = Ok p)).
  { intros H. apply hexToRgb_Ok_iff in H as [rgb H].
    destruct (generateColorPalette_Ok _ _ H) as (c & Hc & Hg). eauto. }
  assert (Hthrow : forall e,
            classifyHexColor input = Throw e \/ generateColorPalette input = Throw e ->
            hexToRgb input = Throw e /\ e = mkError (invalidHexMessage input)).
  { intros e [H|H];
      [apply classifyHexColor_Throw in H | apply generateColorPalette_Throw in H];
      (split; [exact H | now apply hexToRgb_Throw]). }
  assert (Hbad : ~ HexPattern input ->
                 classifyHexColor input = Throw (mkError (invalidHexMessage input)) /\
                 generateColorPalette input = Throw (mkError (invalidHexMessage input))).
  { intros H. split.
    - destruct (classifyHexColor input) as [c|e] eqn:E.
      + exfalso. apply H. destruct (classifyHexColor_inv _ _ E) as (rgb & Hr & _).
        apply hexToRgb_Ok_iff. eauto.
      + destruct (Hthrow e (or_introl eq_refl)) as [_ ->]. reflexivity.
    - destruct (generateColorPalette input) as [p|e] eqn:E.
      + exfalso. apply H. destruct (generateColorPalette_inv _ _ E) as (rgb & Hr & _).
        apply hexToRgb_Ok_iff. eauto.
      + destruct (Hthrow e (or_intror eq_refl)) as [_ ->]. reflexivity. }
  repeat split.
  - apply Hok.
  - intros [c Hc]. destruct (classifyHexColor_inv _ _ Hc) as (rgb & Hr & _).
    apply hexToRgb_Ok_iff. eauto.
  - apply Hok.
  - intros [p Hp]. destruct (generateColorPalette_inv _ _ Hp) as (rgb & Hr & _).
    apply hexToRgb_Ok_iff. eauto.
  - apply Hbad.
  - intros E H. destruct (proj1 (Hok H)) as [c Hc]. congruence.
  - apply Hbad.
  - intros E H. destruct (proj2 (Hok H)) as [p Hp]. congruence.
  - apply Hthrow. assumption.
  - apply Hthrow in H. tauto.
Qed.

Example classify_notacolor :
  classifyHexColor "notacolor"
  = Throw (mkError (invalidHexMessage "notacolor")).
Proof. reflexivity. Qed.

(* ================================================================== *)
(** * Round trip *)


(* ================================================================== *)
(** * Luminance and contrast *)

Local Open Scope R_scope.

Lemma Rpower_base_1 (y : R) : Rpower 1 y = 1.
Proof. unfold Rpower. now rewrite ln_1, Rmult_0_r, exp_0. Qed.

Lemma Rpower_pos (x y : R) : 0 < Rpower x y.
Proof. unfold Rpower. apply exp_pos. Qed.

Lemma Rpower_fifth_root (y : R) : 0 < y -> Rpower (y ^ 5) (/ 5) = y.
Proof.
  intros Hy. rewrite <- (Rpower_pow 5 y Hy), Rpower_mult.
  replace (INR 5 * / 5) with 1 by (simpl; lra).
  now apply Rpower_1.
Qed.

Lemma Rpower_24 (x : R) : 0 < x -> Rpower x 2.4 = Rpower (x ^ 12) (/ 5).
Proof.
  intros Hx. rewrite <- (Rpower_pow 12 x Hx), Rpower_mult.
  f_equal. simpl. lra.
Qed.

(** Rational certificates for [x ^ 2.4]: [y <= x ^ 2.4] follows from
    [y ^ 5 <= x ^ 12], and conversely. *)
Lemma Rpower_24_lower (x y : R) :
  0 < x -> 0 < y -> y ^ 5 <= x ^ 12 -> y <= Rpower x 2.4.
Proof.
  intros Hx Hy H. rewrite Rpower_24 by assumption.
  rewrite <- (Rpower_fifth_root y Hy) at 1.
  apply Rle_Rpower_l; [lra|]. split; [now apply pow_lt | exact H].
Qed.

Lemma Rpower_24_upper (x y : R) :
  0 < x -> 0 < y -> x ^ 12 <= y ^ 5 -> Rpower x 2.4 <= y.
Proof.
  intros Hx Hy H. rewrite Rpower_24 by assumption.
  rewrite <- (Rpower_fifth_root y Hy) at 1.
  apply Rle_Rpower_l; [lra|]. split; [now apply pow_lt | exact H].
Qed.

Lemma Rpower_24_mono (x y : R) :
  0 < x -> x <= y -> Rpower x 2.4 <= Rpower y 2.4.
Proof. intros Hx Hxy. apply Rle_Rpower_l; lra. Qed.

Lemma channel_low (v : Z) :
  (0 <= v <= 10)%Z -> channel (IZR v) = IZR v / 255 / 12.92.
Proof.
  intros [H0 H1]. apply IZR_le in H0, H1. unfold channel.
  destruct (Rle_dec (IZR v / 255) 0.03928) as [_|N]; [reflexivity|].
  exfalso. apply N. lra.
Qed.

Lemma channel_high (v : Z) :
  (11 <= v)%Z -> channel (IZR v) = Rpower ((IZR v / 255 + 0.055) / 1.055) 2.4.
Proof.
  intros H. apply IZR_le in H. unfold channel.
  destruct (Rle_dec (IZR v / 255) 0.03928) as [L|_]; [|reflexivity].
  exfalso. lra.
Qed.

Lemma channel_11 : 0.0031 <= channel 11.
Proof.
  rewrite (channel_high 11) by lia.
  apply Rpower_24_lower; lra.
Qed.

Lemma channel_mono (x y : Z) :
  (0 <= x)%Z -> (x <= y)%Z -> channel (IZR x) <= channel (IZR y).
Proof.
  intros H0 Hxy.
  destruct (Z_le_gt_dec y 10) as [Hy|Hy].
  - rewrite !channel_low by lia.
    apply IZR_le in Hxy. lra.
  - destruct (Z_le_gt_dec x 10) as [Hx|Hx].
    + apply Rle_trans with (channel 11).
      * rewrite channel_low by lia.
        assert (A := channel_11).
        assert (B : IZR x <= 10) by (apply IZR_le; lia). lra.
      * rewrite !channel_high by lia.
        assert (B : 11 <= IZR y) by (apply IZR_le; lia).
        apply Rpower_24_mono; lra.
    + rewrite !channel_high by lia.
      assert (A : 11 <= IZR x) by (apply IZR_le; lia).
      assert (B : IZR x <= IZR y) by (apply IZR_le; lia).
      apply Rpower_24_mono; [|lra].
      apply Rdiv_lt_0_compat; lra.
Qed.

Lemma channel_0 : channel 0 = 0.
Proof. rewrite (channel_low 0) by lia. lra. Qed.

Lemma channel_255 : channel 255 = 1.
Proof.
  rewrite (channel_high 255) by lia.
  replace ((255 / 255 + 0.055) / 1.055) with 1 by lra.
  apply Rpower_base_1.
Qed.

Lemma channel_range (v : Z) : (0 <= v <= 255)%Z -> 0 <= channel (IZR v) <= 1.
Proof.
  intros H. rewrite <- channel_0, <- channel_255.
  split; apply channel_mono; lia.
Qed.

Lemma luminance_gray (v : Z) : luminance (mkRGB v v v) = channel (IZR v).
Proof. unfold luminance. cbn [r g b]. lra. Qed.

Lemma luminance_white : luminance white = 1.
Proof. unfold white. rewrite luminance_gray. apply channel_255. Qed.

Lemma luminance_nearBlack : luminance nearBlack = 10 / 255 / 12.92.
Proof. unfold nearBlack. rewrite luminance_gray. now rewrite (channel_low 10) by lia. Qed.

Lemma contrast_white (lum : R) :
  0 <= lum <= 1 -> contrast lum (luminance white) = 1.05 / (lum + 0.05).
Proof.
  intros H. rewrite luminance_white. unfold contrast.
  rewrite Rmax_right, Rmin_left by lra. f_equal. lra.
Qed.

Lemma contrast_dark_above (lum : R) :
  10 / 255 / 12.92 <= lum ->
  contrast lum (luminance nearBlack) = (lum + 0.05) / (10 / 255 / 12.92 + 0.05).
Proof.
  intros H. rewrite luminance_nearBlack. unfold contrast.
  now rewrite Rmax_left, Rmin_right by lra.
Qed.

Lemma contrast_dark_below (lum : R) :
  lum <= 10 / 255 / 12.92 ->
  contrast lum (luminance nearBlack) = (10 / 255 / 12.92 + 0.05) / (lum + 0.05).
Proof.
  intros H. rewrite luminance_nearBlack. unfold contrast.
  now rewrite Rmax_right, Rmin_left by lra.
Qed.

Lemma Rdiv_le_cross (a b c d : R) :
  0 < b -> 0 < d -> a * d <= c * b -> a / b <= c / d.
Proof.
  intros Hb Hd H.
  apply Rmult_le_reg_r with (b * d); [nra|].
  replace (a / b * (b * d)) with (a * d) by (field; lra).
  replace (c / d * (b * d)) with (c * b) by (field; lra).
  exact H.
Qed.

Lemma Rdiv_lt_cross (a b c d : R) :
  0 < b -> 0 < d -> a * d < c * b -> a / b < c / d.
Proof.
  intros Hb Hd H.
  apply Rmult_lt_reg_r with (b * d); [nra|].
  replace (a / b * (b * d)) with (a * d) by (field; lra).
  replace (c / d * (b * d)) with (c * b) by (field; lra).
  exact H.
Qed.

(** Against white, a lighter colour contrasts less. *)
Lemma contrast_white_antitone (lum1 lum2 : R) :
  0 <= lum2 -> lum2 <= lum1 -> lum1 <= 1 ->
  contrast lum1 (luminance white) <= contrast lum2 (luminance white).
Proof.
  intros H0 H12 H1. rewrite !contrast_white by lra.
  apply Rdiv_le_cross; lra.
Qed.

(** Against near-black, a lighter colour contrasts more, as long as the
    darker one is not darker than near-black itself. *)
Lemma contrast_dark_monotone (lum1 lum2 : R) :
  10 / 255 / 12.92 <= lum2 -> lum2 <= lum1 ->
  contrast lum2 (luminance nearBlack) <= contrast lum1 (luminance nearBlack).
Proof.
  intros H0 H12. rewrite !contrast_dark_above by lra.
  apply Rdiv_le_cross; lra.
Qed.

Lemma channel_31 : 0.0063 <= channel 31.
Proof.
  rewrite (channel_high 31) by lia.
  apply Rpower_24_lower; lra.
Qed.

(** A colour darker than near-black still contrasts less with it than any
    gray of level 31 or more. *)
Lemma contrast_dark_below_31 (lum1 lum2 : R) :
  0 <= lum2 -> lum2 <= 10 / 255 / 12.92 -> channel 31 <= lum1 ->
  contrast lum2 (luminance nearBlack) <= contrast lum1 (luminance nearBlack).
Proof.
  intros H0 H2 H1. assert (A := channel_31).
  rewrite contrast_dark_below by lra.
  rewrite contrast_dark_above by lra.
  apply Rdiv_le_cross; try lra. nra.
Qed.

Local Close Scope R_scope.

(* ================================================================== *)
(** * Achromatic palettes *)

Lemma parseInt16_pair (c1 c2 : ascii) :
  isHexDigit c1 = true -> isHexDigit c2 = true ->
  parseInt16 (String c1 (String c2 EmptyString))
  = (16 * hexDigitValue c1 + hexDigitValue c2)%Z.
Proof.
  intros E1 E2. unfold parseInt16. rewrite E1, E2. lia.
Qed.

Lemma hexToRgb_channels (input : string) (rgb : RGB) :
  hexToRgb input = Ok rgb ->
  (0 <= r rgb <= 255)%Z /\ (0 <= g rgb <= 255)%Z /\ (0 <= b rgb <= 255)%Z.
Proof.
  unfold hexToRgb.
  set (clean := if (String.length (stripHash input) =? 3)%nat
                then doubleChars (stripHash input) else stripHash input).
  destruct (testHex6 clean) eqn:T; cbn [negb]; [|discriminate].
  unfold testHex6 in T. apply andb_true_iff in T as [Hlen Hall].
  apply Nat.eqb_eq in Hlen.
  do 6 (destruct clean as [|? clean]; [discriminate|]).
  destruct clean; [|discriminate].
  simpl in Hall. rewrite !andb_true_iff in Hall.
  destruct Hall as (E1 & E2 & E3 & E4 & E5 & E6 & _).
  intros H. cbn [substring] in H.
  rewrite !parseInt16_pair in H by assumption.
  assert (Hr : mkRGB (16 * hexDigitValue a + hexDigitValue a0)
                     (16 * hexDigitValue a1 + hexDigitValue a2)
                     (16 * hexDigitValue a3 + hexDigitValue a4) = rgb)
    by congruence.
  subst rgb. cbn [r g b].
  destruct (hexByte_of_digits a a0 E1 E2) as [_ R1].
  destruct (hexByte_of_digits a1 a2 E3 E4) as [_ R2].
  destruct (hexByte_of_digits a3 a4 E5 E6) as [_ R3].
  auto.
Qed.

Lemma grayCheck_all : forallb grayCheck (seq 0 256) = true.
Proof. vm_compute. reflexivity. Qed.

Lemma grayStep_unfold (v : Z) (i : nat) :
  grayStep v i =
  stepRgbAt (mkRGB v v v)
    (rgbToHsl (inject_Z v) (inject_Z v) (inject_Z v))
    (closestIndexOf (rgbToHsl (inject_Z v) (inject_Z v) (inject_Z v))) i.
Proof. reflexivity. Qed.

Opaque grayStep.

Lemma graySteps_nth (v : Z) (i : nat) :
  (i < 10)%nat -> nth i (graySteps v) white = grayStep v i.
Proof.
  intros Hi. unfold graySteps.
  do 10 (destruct i as [|i]; [reflexivity|]). lia.
Qed.

Lemma grayStep_spec (v : Z) :
  (0 <= v <= 255)%Z ->
  forall i : nat, (i < 10)%nat ->
    (exists x : Z, grayStep v i = mkRGB x x x /\ (0 <= x <= 255)%Z /\
                   ((i < 9)%nat -> (r (grayStep v 9) < 10)%Z -> (31 <= x)%Z)) /\
    (forall j : nat, (i <= j < 10)%nat ->
       (r (grayStep v j) <= r (grayStep v i))%Z).
Proof.
  intros Hv i Hi.
  assert (H := proj1 (forallb_forall _ _) grayCheck_all (Z.to_nat v)
                 ltac:(apply in_seq; lia)).
  unfold grayCheck in H. rewrite Z2Nat.id in H by lia. cbv zeta in H.
  assert (Hi' := proj1 (forallb_forall _ _) H i ltac:(apply in_seq; lia)).
  cbv beta in Hi'. rewrite !graySteps_nth in Hi' by lia.
  rewrite !andb_true_iff in Hi'. destruct Hi' as [[[[[A B] C] D] E] Hp].
  apply Z.eqb_eq in A, B. apply Z.leb_le in C, D.
  split.
  - exists (r (grayStep v i)). split; [|split; [lia|]].
    + destruct (grayStep v i) as [x y z]. cbn [r g b] in *. congruence.
    + intros H9 Hd. destruct (Nat.ltb_spec i 9); [|lia].
      destruct (Z.ltb_spec (r (grayStep v 9)) 10); [|lia].
      cbn [implb andb] in E. now apply Z.leb_le in E.
  - intros j Hj.
    assert (Hj' := proj1 (forallb_forall _ _) Hp j ltac:(apply in_seq; lia)).
    cbv beta in Hj'. rewrite graySteps_nth in Hj' by lia.
    destruct (Nat.leb_spec i j); [|lia].
    cbn [implb] in Hj'. now apply Z.leb_le in Hj'.
Qed.

Local Open Scope R_scope.

Lemma nearBlack_channel : 10 / 255 / 12.92 = channel 10.
Proof. now rewrite (channel_low 10) by lia. Qed.

Lemma gray_contrast_white (v : Z) (i j : nat) :
  (0 <= v <= 255)%Z -> (i <= j < 10)%nat ->
  contrast (luminance (grayStep v i)) (luminance white)
  <= contrast (luminance (grayStep v j)) (luminance white).
Proof.
  intros Hv Hij.
  destruct (grayStep_spec v Hv i ltac:(lia)) as [(x & Ex & Rx & _) Hle].
  destruct (grayStep_spec v Hv j ltac:(lia)) as [(y & Ey & Ry & _) _].
  specialize (Hle j Hij). rewrite Ex, Ey in Hle |- *. cbn [r] in Hle.
  rewrite !luminance_gray.
  apply contrast_white_antitone.
  - apply channel_range. lia.
  - apply channel_mono; lia.
  - apply channel_range. lia.
Qed.

Lemma gray_contrast_dark (v : Z) (i j : nat) :
  (0 <= v <= 255)%Z -> (i <= j < 10)%nat ->
  contrast (luminance (grayStep v j)) (luminance nearBlack)
  <= contrast (luminance (grayStep v i)) (luminance nearBlack).
Proof.
  intros Hv Hij.
  destruct (Nat.eq_dec i j) as [->|Hne]; [apply Rle_refl|].
  destruct (grayStep_spec v Hv i ltac:(lia)) as [(x & Ex & Rx & Bx) Hle].
  destruct (grayStep_spec v Hv j ltac:(lia)) as [(y & Ey & Ry & By) Hle9].
  assert (Hxy := Hle j Hij). specialize (Hle9 9%nat ltac:(lia)).
  rewrite Ex, Ey in *. cbn [r] in *.
  rewrite !luminance_gray.
  destruct (Z_le_gt_dec 10 y) as [Hy|Hy].
  - apply contrast_dark_monotone.
    + rewrite nearBlack_channel. apply channel_mono; lia.
    + apply channel_mono; lia.
  - assert (H9 : (r (grayStep v 9) < 10)%Z) by lia.
    apply contrast_dark_below_31.
    + apply channel_range. lia.
    + rewrite nearBlack_channel. apply channel_mono; lia.
    + apply channel_mono; [lia|]. apply Bx; [lia | exact H9].
Qed.

Lemma steps_contrast_nth (input : string) (rgb : RGB) (baseHsl : HSL) (ci i : nat)
    (f : ColorStep -> R) (x : R) :
  nth_error (List.map f (List.map (stepAt input rgb baseHsl ci) (seq 0 10))) i
    = Some x ->
  (i < 10)%nat /\ x = f (stepAt input rgb baseHsl ci i).
Proof.
  intros H. rewrite nth_error_map in H.
  destruct (nth_error (List.map _ (seq 0 10)) i) as [st|] eqn:E; [|discriminate].
  apply steps_nth in E as [Hi ->]. simpl in H. split; [exact Hi | congruence].
Qed.

Lemma steps_contrast_at (input : string) (rgb : RGB) (baseHsl : HSL) (ci i : nat)
    (f : ColorStep -> R) :
  (i < 10)%nat ->
  nth_error (List.map f (List.map (stepAt input rgb baseHsl ci) (seq 0 10))) i
    = Some (f (stepAt input rgb baseHsl ci i)).
Proof.
  intros Hi. rewrite !nth_error_map, nth_error_seq.
  destruct (Nat.ltb_spec i 10); [reflexivity | lia].
Qed.

(** For an achromatic input (equal red, green and blue channels), reading
    the steps from 50 to 900, [contrastWhite] never decreases and
    [contrastDark] never increases. *)
Lemma achromatic_contrast_monotone (input : string) (p : ColorPalette) (v : Z) :
  generateColorPalette input = Ok p ->
  hexToRgb input = Ok (mkRGB v v v) ->
  nonDecreasing (List.map contrastWhite (steps p)) /\
  nonIncreasing (List.map contrastDark (steps p)).
Proof.
  intros Hp Hv.
  destruct (generateColorPalette_inv _ _ Hp) as (rgb & Hrgb & Hc & _ & _ & _ & Hst).
  destruct (classifyHexColor_inv _ _ Hc) as (rgb' & Hrgb' & Hhsl & _).
  assert (rgb = mkRGB v v v) by congruence.
  assert (rgb' = mkRGB v v v) by congruence. subst rgb rgb'.
  cbn [r g b] in Hhsl.
  destruct (hexToRgb_channels _ _ Hv) as [Rv _]. cbn [r] in Rv.
  assert (E : forall i,
             stepRgbAt (mkRGB v v v) (hsl (classification p))
               (closestIndexOf (hsl (classification p))) i = grayStep v i).
  { intros i. rewrite grayStep_unfold, Hhsl. reflexivity. }
  rewrite Hst. split.
  - intros i j x y Hij Hx Hy.
    apply steps_contrast_nth in Hx as [Hi ->], Hy as [Hj ->].
    cbn [contrastWhite stepAt]. rewrite !E.
    apply gray_contrast_white; [exact Rv | lia].
  - intros i j x y Hij Hx Hy.
    apply steps_contrast_nth in Hx as [Hi ->], Hy as [Hj ->].
    cbn [contrastDark stepAt]. rewrite !E.
    apply gray_contrast_dark; [exact Rv | lia].
Qed.

Local Close Scope R_scope.

(* ================================================================== *)
(** * The lightest and the darkest step *)

Lemma Math_round_mono (x y : Q) : x <= y -> (Math_round x <= Math_round y)%Z.
Proof. intros H. unfold Math_round. apply Qfloor_resp_le. lra. Qed.

Lemma Math_round_ge (x : Q) (z : Z) :
  inject_Z z - (1 # 2) <= x -> (z <= Math_round x)%Z.
Proof.
  intros H. unfold Math_round. rewrite <- (Qfloor_Z z) at 1.
  apply Qfloor_resp_le. lra.
Qed.

Lemma Math_round_le (x : Q) (z : Z) :
  x < inject_Z z + (1 # 2) -> (Math_round x <= z)%Z.
Proof.
  intros H. unfold Math_round.
  assert (F := Qfloor_le (x + (1 # 2))).
  assert (A : inject_Z (Qfloor (x + (1 # 2))) < inject_Z (z + 1)).
  { rewrite inject_Z_plus. change (inject_Z 1) with 1. lra. }
  rewrite <- Zlt_Qlt in A. lia.
Qed.

(** [hue2rgb] interpolates between [p] and [q]. *)
Lemma hue2rgb_between (p q t : Q) :
  p <= q -> -1 <= t -> t <= 2 ->
  p <= hue2rgb p q t /\ hue2rgb p q t <= q.
Proof.
  intros Hpq Ht0 Ht1. unfold hue2rgb.
  destruct (Qltb t 0) eqn:E0;
    [apply Qltb_lt in E0 | apply Qltb_ge in E0].
  - destruct (Qltb 1 (t + 1)) eqn:E1;
      [apply Qltb_lt in E1; lra | apply Qltb_ge in E1].
    set (u := t + 1) in *. assert (U0 : 0 <= u) by (subst u; lra).
    clearbody u.
    repeat match goal with
    | |- context [if Qltb ?x ?y then _ else _] =>
        let E := fresh "E" in
        destruct (Qltb x y) eqn:E;
        [ apply Qltb_lt in E | apply Qltb_ge in E ]
    end; try (split; lra).
    + assert (X : 1 / 6 == 1 # 6) by reflexivity. rewrite X in *. split; nra.
    + assert (X : 2 / 3 == 2 # 3) by reflexivity.
      assert (Y : 1 / 2 == 1 # 2) by reflexivity.
      rewrite X, Y in *. split; nra.
  - destruct (Qltb 1 t) eqn:E1;
      [apply Qltb_lt in E1 | apply Qltb_ge in E1].
    + set (u := t - 1) in *.
      assert (U0 : 0 <= u) by (subst u; lra).
      assert (U1 : u <= 1) by (subst u; lra).
      clearbody u.
      repeat match goal with
      | |- context [if Qltb ?x ?y then _ else _] =>
          let E := fresh "E" in
          destruct (Qltb x y) eqn:E;
          [ apply Qltb_lt in E | apply Qltb_ge in E ]
      end; try (split; lra).
      * assert (X : 1 / 6 == 1 # 6) by reflexivity. rewrite X in *. split; nra.
      * assert (X : 2 / 3 == 2 # 3) by reflexivity.
        assert (Y : 1 / 2 == 1 # 2) by reflexivity.
        rewrite X, Y in *. split; nra.
    + repeat match goal with
      | |- context [if Qltb ?x ?y then _ else _] =>
          let E := fresh "E" in
          destruct (Qltb x y) eqn:E;
          [ apply Qltb_lt in E | apply Qltb_ge in E ]
      end; try (split; lra).
      * assert (X : 1 / 6 == 1 # 6) by reflexivity. rewrite X in *. split; nra.
      * assert (X : 2 / 3 == 2 # 3) by reflexivity.
        assert (Y : 1 / 2 == 1 # 2) by reflexivity.
        rewrite X, Y in *. split; nra.
Qed.

Ltac round_bounds Hb :=
  destruct Hb as [? ?];
  split; [apply Math_round_ge | apply Math_round_le];
  unfold inject_Z; lra.

(** A step synthesized at lightness 95 with saturation at most 30. *)
Lemma hslToRgb_95 (H S : Q) :
  -240 <= H -> H <= 600 -> 0 <= S -> S <= 30 ->
  let c := hslToRgb H S 95 in
  (238 <= r c <= 255)%Z /\ (238 <= g c <= 255)%Z /\ (238 <= b c <= 255)%Z.
Proof.
  intros H0 H1 S0 S1. unfold hslToRgb.
  destruct (Qeq_bool (S / 100) 0).
  - cbv zeta. cbn [r g b].
    assert (E : Math_round (95 / 100 * 255) = 242%Z) by reflexivity.
    rewrite E. lia.
  - assert (E : Qltb (95 / 100) (1 # 2) = false) by reflexivity.
    rewrite E. cbv zeta. cbn [r g b].
    set (q := 95 / 100 + S / 100 - 95 / 100 * (S / 100)).
    set (p := 2 * (95 / 100) - q).
    assert (Hq : q == (95 # 100) + S * (5 # 10000)) by (subst q; field).
    assert (Hp : p == (95 # 100) - S * (5 # 10000)) by (subst p; rewrite Hq; field).
    clearbody p q.
    assert (Hpq : p <= q) by lra.
    assert (T1 := hue2rgb_between p q (H / 360 + 1 / 3) Hpq).
    assert (T2 := hue2rgb_between p q (H / 360) Hpq).
    assert (T3 := hue2rgb_between p q (H / 360 - 1 / 3) Hpq).
    assert (X : H / 360 == H * (1 # 360)) by field.
    assert (Y : 1 / 3 == 1 # 3) by reflexivity.
    specialize (T1 ltac:(lra) ltac:(lra)).
    specialize (T2 ltac:(lra) ltac:(lra)).
    specialize (T3 ltac:(lra) ltac:(lra)).
    split; [|split]; [round_bounds T1 | round_bounds T2 | round_bounds T3].
Qed.

(** A step synthesized at lightness 8. *)
Lemma hslToRgb_8 (H S : Q) :
  -240 <= H -> H <= 600 -> 0 <= S -> S <= 100 ->
  let c := hslToRgb H S 8 in
  (0 <= r c <= 41)%Z /\ (0 <= g c <= 41)%Z /\ (0 <= b c <= 41)%Z.
Proof.
  intros H0 H1 S0 S1. unfold hslToRgb.
  destruct (Qeq_bool (S / 100) 0).
  - cbv zeta. cbn [r g b].
    assert (E : Math_round (8 / 100 * 255) = 20%Z) by reflexivity.
    rewrite E. lia.
  - assert (E : Qltb (8 / 100) (1 # 2) = true) by reflexivity.
    rewrite E. cbv zeta. cbn [r g b].
    set (q := 8 / 100 * (1 + S / 100)).
    set (p := 2 * (8 / 100) - q).
    assert (Hq : q == (8 # 100) + S * (8 # 10000)) by (subst q; field).
    assert (Hp : p == (8 # 100) - S * (8 # 10000)) by (subst p; rewrite Hq; field).
    clearbody p q.
    assert (Hpq : p <= q) by lra.
    assert (T1 := hue2rgb_between p q (H / 360 + 1 / 3) Hpq).
    assert (T2 := hue2rgb_between p q (H / 360) Hpq).
    assert (T3 := hue2rgb_between p q (H / 360 - 1 / 3) Hpq).
    assert (X : H / 360 == H * (1 # 360)) by field.
    assert (Y : 1 / 3 == 1 # 3) by reflexivity.
    specialize (T1 ltac:(lra) ltac:(lra)).
    specialize (T2 ltac:(lra) ltac:(lra)).
    specialize (T3 ltac:(lra) ltac:(lra)).
    split; [|split]; [round_bounds T1 | round_bounds T2 | round_bounds T3].
Qed.

Lemma Qdiv_between (x d : Q) :
  0 < d -> - d <= x -> x <= d -> -1 <= x / d /\ x / d <= 1.
Proof.
  intros Hd H0 H1. split.
  - apply Qle_shift_div_l; [exact Hd | lra].
  - apply Qle_shift_div_r; [exact Hd | lra].
Qed.

(** The HSL coordinates of a colour with channels in [[0, 255]]. *)
Lemma rgbToHsl_facts (R G B : Q) :
  0 <= R -> R <= 255 -> 0 <= G -> G <= 255 -> 0 <= B -> B <= 255 ->
  let x := rgbToHsl R G B in
  0 <= s x /\ s x <= 100 /\ -60 <= h x /\ h x <= 420 /\
  ((925 # 10) <= l x ->
     (21675 # 100) <= R /\ (21675 # 100) <= G /\ (21675 # 100) <= B) /\
  (l x < 10 -> R < 51 /\ G < 51 /\ B < 51).
Proof.
  intros R0 R1 G0 G1 B0 B1. unfold rgbToHsl. cbv zeta.
  set (r' := R / 255). set (g' := G / 255). set (b' := B / 255).
  assert (Er : r' == R * (1 # 255)) by (subst r'; field).
  assert (Eg : g' == G * (1 # 255)) by (subst g'; field).
  assert (Eb : b' == B * (1 # 255)) by (subst b'; field).
  clearbody r' g' b'.
  set (Mx := Qmax3 r' g' b'). set (Mn := Qmin3 r' g' b').
  assert (M1 : r' <= Mx /\ g' <= Mx /\ b' <= Mx).
  { subst Mx. unfold Qmax3.
    assert (A := Q.le_max_l (Qmax r' g') b'). assert (A' := Q.le_max_r (Qmax r' g') b').
    assert (A1 := Q.le_max_l r' g'). assert (A2 := Q.le_max_r r' g').
    repeat split; lra. }
  assert (M2 : Mn <= r' /\ Mn <= g' /\ Mn <= b').
  { subst Mn. unfold Qmin3.
    assert (A := Q.le_min_l (Qmin r' g') b'). assert (A' := Q.le_min_r (Qmin r' g') b').
    assert (A1 := Q.le_min_l r' g'). assert (A2 := Q.le_min_r r' g').
    repeat split; lra. }
  assert (M3 : Mx <= 1).
  { subst Mx. unfold Qmax3. apply Q.max_lub; [apply Q.max_lub|]; lra. }
  assert (M4 : 0 <= Mn).
  { subst Mn. unfold Qmin3. apply Q.min_glb; [apply Q.min_glb|]; lra. }
  clearbody Mx Mn. destruct M1 as (M1r & M1g & M1b). destruct M2 as (M2r & M2g & M2b).
  assert (El : (Mx + Mn) / 2 * 100 == (Mx + Mn) * 50) by field.
  assert (Lfacts :
    ((925 # 10) <= (Mx + Mn) / 2 * 100 ->
       (21675 # 100) <= R /\ (21675 # 100) <= G /\ (21675 # 100) <= B) /\
    ((Mx + Mn) / 2 * 100 < 10 -> R < 51 /\ G < 51 /\ B < 51)).
  { split; intros Hx; repeat split; lra. }
  destruct (Qeq_bool (Mx - Mn) 0) eqn:Ed; cbn [negb]; cbv beta iota; cbn [h s l].
  - repeat split; try lra; apply Lfacts.
  - apply Qeq_bool_neq in Ed.
    assert (Hd : 0 < Mx - Mn).
    { destruct (Qlt_le_dec 0 (Mx - Mn)) as [A|A]; [exact A|].
      exfalso. apply Ed. lra. }
    assert (Hs : 0 <= (if Qltb (1 # 2) ((Mx + Mn) / 2)
                       then (Mx - Mn) / (2 - Mx - Mn)
                       else (Mx - Mn) / (Mx + Mn)) <= 1).
    { destruct (Qltb (1 # 2) ((Mx + Mn) / 2)).
      - split; [apply Qle_shift_div_l | apply Qle_shift_div_r]; lra.
      - split; [apply Qle_shift_div_l | apply Qle_shift_div_r]; lra. }
    assert (D1 := Qdiv_between (g' - b') (Mx - Mn) Hd ltac:(lra) ltac:(lra)).
    assert (D2 := Qdiv_between (b' - r') (Mx - Mn) Hd ltac:(lra) ltac:(lra)).
    assert (D3 := Qdiv_between (r' - g') (Mx - Mn) Hd ltac:(lra) ltac:(lra)).
    assert (Hh : -1 # 6 <=
                 (if Qeq_bool Mx r'
                  then ((g' - b') / (Mx - Mn) + (if Qltb g' b' then 6 else 0)) / 6
                  else if Qeq_bool Mx g'
                       then ((b' - r') / (Mx - Mn) + 2) / 6
                       else ((r' - g') / (Mx - Mn) + 4) / 6) <= 7 # 6).
    { set (u := (g' - b') / (Mx - Mn)) in *.
      set (v := (b' - r') / (Mx - Mn)) in *.
      set (w := (r' - g') / (Mx - Mn)) in *.
      clearbody u v w.
      assert (X1 : forall y, y / 6 == y * (1 # 6)) by (intros; field).
      destruct (Qeq_bool Mx r'); [destruct (Qltb g' b')|destruct (Qeq_bool Mx g')];
        rewrite X1; lra. }
    repeat split; try lra; apply Lfacts.
Qed.

Lemma closestIndex_first (baseHsl : HSL) :
  closestIndexOf baseHsl = 0%nat -> (925 # 10) <= l baseHsl.
Proof.
  intros E.
  destruct (closestLoop_spec (l baseHsl) lightnessSteps ltac:(discriminate))
    as (_ & (t & Ht & Hmd) & Hall).
  rewrite E in Ht. cbn in Ht. inversion Ht; subst t; clear Ht.
  destruct (Hall 1%nat 90 ltac:(simpl; lia) eq_refl) as [A _].
  rewrite Hmd in A. clear - A.
  destruct (Qlt_le_dec (l baseHsl) (925 # 10)) as [C|C]; [exfalso | exact C].
  rewrite (Qabs_neg (l baseHsl - 95)) in A by lra.
  destruct (Qlt_le_dec (l baseHsl) 90) as [D|D].
  - rewrite (Qabs_neg (l baseHsl - 90)) in A by lra. lra.
  - rewrite (Qabs_pos (l baseHsl - 90)) in A by lra. lra.
Qed.

Lemma closestIndex_last (baseHsl : HSL) :
  closestIndexOf baseHsl = 9%nat -> l baseHsl < 10.
Proof.
  intros E.
  destruct (closestLoop_spec (l baseHsl) lightnessSteps ltac:(discriminate))
    as (_ & (t & Ht & Hmd) & Hall).
  rewrite E in Ht, Hall. cbn in Ht. inversion Ht; subst t; clear Ht.
  destruct (Hall 8%nat 12 ltac:(simpl; lia) eq_refl) as [_ A].
  specialize (A ltac:(lia)). rewrite Hmd in A. clear - A.
  destruct (Qlt_le_dec (l baseHsl) 10) as [C|C]; [exact C | exfalso].
  rewrite (Qabs_pos (l baseHsl - 8)) in A by lra.
  destruct (Qlt_le_dec (l baseHsl) 12) as [D|D].
  - rewrite (Qabs_neg (l baseHsl - 12)) in A by lra. lra.
  - rewrite (Qabs_pos (l baseHsl - 12)) in A by lra. lra.
Qed.

Lemma clampRgb_within (lo hi : Z) (c : RGB) :
  (0 <= lo)%Z -> (hi <= 255)%Z ->
  channelsWithin lo hi c -> channelsWithin lo hi (clampRgb c).
Proof.
  intros H0 H1 (A & B & C). unfold channelsWithin, clampRgb, clamp255.
  cbn [r g b]. lia.
Qed.

Lemma inject_Z_ge_217 (z : Z) : (21675 # 100) <= inject_Z z -> (217 <= z)%Z.
Proof. unfold Qle, inject_Z. cbn [Qnum Qden]. lia. Qed.

Lemma inject_Z_lt_51 (z : Z) : inject_Z z < 51 -> (z <= 50)%Z.
Proof. unfold Qlt, inject_Z. cbn [Qnum Qden]. lia. Qed.

Lemma inject_Z_range (z : Z) :
  (0 <= z <= 255)%Z -> 0 <= inject_Z z /\ inject_Z z <= 255.
Proof. unfold Qle, inject_Z. cbn [Qnum Qden]. lia. Qed.

(** What is shown at the two ends of the ramp of an accepted colour. *)
Lemma palette_ends (rgb : RGB) :
  channelsWithin 0 255 rgb ->
  let baseHsl :=
    rgbToHsl (inject_Z (r rgb)) (inject_Z (g rgb)) (inject_Z (b rgb)) in
  channelsWithin 217 255 (stepRgbAt rgb baseHsl (closestIndexOf baseHsl) 0) /\
  channelsWithin 0 50 (stepRgbAt rgb baseHsl (closestIndexOf baseHsl) 9).
Proof.
  intros (Rr & Rg & Rb). cbv zeta.
  destruct (inject_Z_range _ Rr) as [r0 r1].
  destruct (inject_Z_range _ Rg) as [g0 g1].
  destruct (inject_Z_range _ Rb) as [b0 b1].
  destruct (rgbToHsl_facts _ _ _ r0 r1 g0 g1 b0 b1)
    as (S0 & S1 & H0 & H1 & Llight & Ldark).
  cbv zeta in *.
  set (baseHsl := rgbToHsl (inject_Z (r rgb)) (inject_Z (g rgb)) (inject_Z (b rgb))) in *.
  clearbody baseHsl.
  unfold stepRgbAt. split.
  - destruct (Nat.eqb_spec 0 (closestIndexOf baseHsl)) as [E|E].
    + symmetry in E. apply closestIndex_first in E.
      destruct (Llight E) as (A & B & C).
      apply inject_Z_ge_217 in A, B, C. unfold channelsWithin. lia.
    + apply clampRgb_within; [lia | lia |].
      assert (X := hslToRgb_95 (h baseHsl) (s baseHsl * (3 # 10))
                     ltac:(lra) ltac:(lra) ltac:(lra) ltac:(lra)).
      cbv zeta in X. destruct X as (A & B & C).
      unfold channelsWithin, synthesizedRgb. cbn [adjustedSaturation nth lightnessSteps].
      lia.
  - destruct (Nat.eqb_spec 9 (closestIndexOf baseHsl)) as [E|E].
    + symmetry in E. apply closestIndex_last in E.
      destruct (Ldark E) as (A & B & C).
      apply inject_Z_lt_51 in A, B, C. unfold channelsWithin. lia.
    + apply clampRgb_within; [lia | lia |].
      assert (M0 : 0 <= Qmin (s baseHsl * (12 # 10)) 100)
        by (apply Q.min_glb; lra).
      assert (M1 := Q.le_min_r (s baseHsl * (12 # 10)) 100).
      assert (X := hslToRgb_8 (h baseHsl) (Qmin (s baseHsl * (12 # 10)) 100)
                     ltac:(lra) ltac:(lra) M0 M1).
      cbv zeta in X. destruct X as (A & B & C).
      unfold channelsWithin, synthesizedRgb. cbn [adjustedSaturation nth lightnessSteps].
      lia.
Qed.

Local Open Scope R_scope.

Lemma luminance_within (lo hi : Z) (c : RGB) :
  (0 <= lo)%Z -> channelsWithin lo hi c ->
  channel (IZR lo) <= luminance c <= channel (IZR hi).
Proof.
  intros H0 (A & B & C). unfold luminance.
  assert (A1 := channel_mono lo (r c) H0 ltac:(lia)).
  assert (A2 := channel_mono (r c) hi ltac:(lia) ltac:(lia)).
  assert (B1 := channel_mono lo (g c) H0 ltac:(lia)).
  assert (B2 := channel_mono (g c) hi ltac:(lia) ltac:(lia)).
  assert (C1 := channel_mono lo (b c) H0 ltac:(lia)).
  assert (C2 := channel_mono (b c) hi ltac:(lia) ltac:(lia)).
  lra.
Qed.

(** The lightest step contrasts less with white, and more with near-black,
    than the darkest. *)
Lemma palette_ends_contrast (input : string) (p : ColorPalette) :
  generateColorPalette input = Ok p ->
  exists w50 w900 d50 d900 : R,
    nth_error (List.map contrastWhite (steps p)) 0 = Some w50 /\
    nth_error (List.map contrastWhite (steps p)) 9 = Some w900 /\
    nth_error (List.map contrastDark (steps p)) 0 = Some d50 /\
    nth_error (List.map contrastDark (steps p)) 9 = Some d900 /\
    w50 <= w900 /\ d900 <= d50.
Proof.
  intros Hp.
  destruct (generateColorPalette_inv _ _ Hp) as (rgb & Hrgb & Hc & _ & _ & _ & Hst).
  destruct (classifyHexColor_inv _ _ Hc) as (rgb' & Hrgb' & Hhsl & _).
  assert (rgb' = rgb) by congruence. subst rgb'.
  destruct (palette_ends rgb (hexToRgb_channels _ _ Hrgb)) as [E0 E9].
  cbv zeta in E0, E9. rewrite <- Hhsl in E0, E9.
  rewrite Hst. do 4 eexists.
  rewrite !steps_contrast_at by lia.
  do 4 (split; [reflexivity|]).
  cbn [contrastWhite contrastDark stepAt].
  destruct (luminance_within 217 255 _ ltac:(lia) E0) as [L0 U0].
  destruct (luminance_within 0 50 _ ltac:(lia) E9) as [L9 U9].
  rewrite channel_255 in U0. rewrite channel_0 in L9.
  assert (M1 := channel_mono 50 217 ltac:(lia) ltac:(lia)).
  assert (M2 := channel_mono 31 217 ltac:(lia) ltac:(lia)).
  assert (M3 := channel_31).
  split.
  - apply contrast_white_antitone; lra.
  - destruct (Rle_dec (10 / 255 / 12.92) (luminance (stepRgbAt rgb (hsl (classification p))
                (closestIndexOf (hsl (classification p))) 9))) as [A|A].
    + apply contrast_dark_monotone; lra.
    + apply contrast_dark_below_31; lra.
Qed.

(** C2 (as the code has it).  In every palette the lightest step (50) has a
    [contrastWhite] no greater, and a [contrastDark] no smaller, than the
    darkest step (900).  For an achromatic input (equal red, green and blue
    channels) the whole ramp is ordered: reading the steps from 50 to 900,
    [contrastWhite] never decreases and [contrastDark] never increases. *)
Theorem palette_contrast_order (input : string) (p : ColorPalette) :
  generateColorPalette input = Ok p ->
  (exists w50 w900 d50 d900 : R,
     nth_error (List.map contrastWhite (steps p)) 0 = Some w50 /\
     nth_error (List.map contrastWhite (steps p)) 9 = Some w900 /\
     nth_error (List.map contrastDark (steps p)) 0 = Some d50 /\
     nth_error (List.map contrastDark (steps p)) 9 = Some d900 /\
     w50 <= w900 /\ d900 <= d50) /\
  (forall v : Z,
     hexToRgb input = Ok (mkRGB v v v) ->
     nonDecreasing (List.map contrastWhite (steps p)) /\
     nonIncreasing (List.map contrastDark (steps p))).
Proof.
  intros Hp. split.
  - exact (palette_ends_contrast input p Hp).
  - intros v Hv. now apply (achromatic_contrast_monotone input p v).
Qed.

Lemma palette_contrast_order_witness :
  exists p,
    generateColorPalette "#808080" = Ok p /\
    nonDecreasing (List.map contrastWhite (steps p)) /\
    nonIncreasing (List.map contrastDark (steps p)).
Proof.
  destruct (generateColorPalette_Ok "#808080" _ eq_refl) as (c & _ & Hg).
  eexists. split; [exact Hg|].
  apply (proj2 (palette_contrast_order "#808080" _ Hg) 128%Z). reflexivity.
Defined.

(** The steps of a palette as channels: what [generateColorPalette] returns
    for an accepted colour, with the luminance each contrast is taken of. *)
Lemma palette_contrasts (input : string) (rgb : RGB) :
  hexToRgb input = Ok rgb ->
  exists (p : ColorPalette) (shown : nat -> RGB),
    generateColorPalette input = Ok p /\
    (let baseHsl :=
       rgbToHsl (inject_Z (r rgb)) (inject_Z (g rgb)) (inject_Z (b rgb)) in
     forall i, shown i = stepRgbAt rgb baseHsl (closestIndexOf baseHsl) i) /\
    forall i, (i < 10)%nat ->
      nth_error (List.map contrastWhite (steps p)) i
        = Some (contrast (luminance (shown i)) (luminance white)) /\
      nth_error (List.map contrastDark (steps p)) i
        = Some (contrast (luminance (shown i)) (luminance nearBlack)).
Proof.
  intros H. destruct (generateColorPalette_Ok _ _ H) as (c & Hc & Hg).
  destruct (classifyHexColor_inv _ _ Hc) as (rgb' & Hrgb' & Hhsl & _).
  assert (rgb' = rgb) by congruence. subst rgb'.
  eexists. exists (stepRgbAt rgb (hsl c) (closestIndexOf (hsl c))).
  split; [exact Hg|]. split.
  - cbv zeta. intros i. now rewrite Hhsl.
  - intros i Hi. cbn [steps].
    rewrite !steps_contrast_at by exact Hi. split; reflexivity.
Qed.

Lemma channel_242 : 0.8 <= channel 242.
Proof.
  rewrite (channel_high 242) by lia.
  apply Rpower_24_lower; lra.
Qed.

(** C2 as stated fails on ["#000000"]: from step 50 (gray 242) to step
    900 (the black input itself) [contrastWhite] rises to 21 and
    [contrastDark] falls. *)
Lemma contrast_black_palette :
  exists p,
    generateColorPalette "#000000" = Ok p /\
    ~ nonIncreasing (List.map contrastWhite (steps p)) /\
    ~ nonDecreasing (List.map contrastDark (steps p)).
Proof.
  destruct (palette_contrasts "#000000" (mkRGB 0 0 0) eq_refl)
    as (p & shown & Hp & Hs & Hc).
  cbv zeta in Hs.
  assert (S0 : shown 0%nat = mkRGB 242 242 242)
    by (rewrite Hs; vm_compute; reflexivity).
  assert (S9 : shown 9%nat = mkRGB 0 0 0)
    by (rewrite Hs; vm_compute; reflexivity).
  destruct (Hc 0%nat ltac:(lia)) as [W0 D0].
  destruct (Hc 9%nat ltac:(lia)) as [W9 D9].
  rewrite S0, luminance_gray in W0, D0.
  rewrite S9, luminance_gray, channel_0 in W9, D9.
  assert (A := channel_242).
  assert (B : channel 242 <= 1) by (apply (channel_range 242); lia).
  exists p. split; [exact Hp|]. split.
  - intros H. specialize (H 0%nat 9%nat _ _ ltac:(lia) W0 W9).
    rewrite !contrast_white in H by lra.
    apply (Rle_not_lt _ _ H). apply Rdiv_lt_cross; lra.
  - intros H. specialize (H 0%nat 9%nat _ _ ltac:(lia) D0 D9).
    rewrite contrast_dark_above in H by lra.
    rewrite contrast_dark_below in H by lra.
    apply (Rle_not_lt _ _ H). apply Rdiv_lt_cross; lra.
Qed.

Lemma channel_237 : channel 237 <= 0.86.
Proof.
  rewrite (channel_high 237) by lia.
  apply Rpower_24_upper; lra.
Qed.

(** Between the ends the order can fail for a chromatic input.  For the saturated
    yellow ["#FFFF00"], step 100 is desaturated (["#EDEDDE"]) while step 200
    is not (["#FFFF99"]): step 200 is the lighter of the two, and
    [contrastWhite] decreases from step 100 to step 200. *)
Lemma contrast_yellow_palette :
  exists p,
    generateColorPalette "#FFFF00" = Ok p /\
    ~ nonDecreasing (List.map contrastWhite (steps p)).
Proof.
  destruct (palette_contrasts "#FFFF00" (mkRGB 255 255 0) eq_refl)
    as (p & shown & Hp & Hs & Hc).
  cbv zeta in Hs.
  assert (S1 : shown 1%nat = mkRGB 237 237 222)
    by (rewrite Hs; vm_compute; reflexivity).
  assert (S2 : shown 2%nat = mkRGB 255 255 153)
    by (rewrite Hs; vm_compute; reflexivity).
  destruct (Hc 1%nat ltac:(lia)) as [W1 _].
  destruct (Hc 2%nat ltac:(lia)) as [W2 _].
  rewrite S1 in W1. rewrite S2 in W2.
  assert (A := channel_237).
  assert (A0 : 0 <= channel 237) by (apply (channel_range 237); lia).
  assert (B : 0 <= channel 222 <= 1) by (apply (channel_range 222); lia).
  assert (C : 0 <= channel 153 <= 1) by (apply (channel_range 153); lia).
  assert (D := channel_255).
  exists p. split; [exact Hp|].
  intros H. specialize (H 1%nat 2%nat _ _ ltac:(lia) W1 W2).
  unfold luminance in H at 1 3. cbn [r g b] in H.
  rewrite !contrast_white in H by lra.
  apply (Rle_not_lt _ _ H). apply Rdiv_lt_cross; lra.
Qed.

Lemma channel_61 : 0.0421 <= channel 61 <= 0.0478.
Proof.
  rewrite (channel_high 61) by lia. split.
  - apply Rpower_24_lower; lra.
  - apply Rpower_24_upper; lra.
Qed.

Lemma channel_41 : channel 41 <= 0.0230.
Proof.
  rewrite (channel_high 41) by lia.
  apply Rpower_24_upper; lra.
Qed.

(** For the saturated blue ["#0000FF"], step 900 (["#000029"]) is darker
    than the near-black reference while step 800 (["#00003D"]) is not, and
    [contrastDark] increases from step 800 to step 900. *)
Lemma contrast_blue_palette :
  exists p,
    generateColorPalette "#0000FF" = Ok p /\
    ~ nonIncreasing (List.map contrastDark (steps p)).
Proof.
  destruct (palette_contrasts "#0000FF" (mkRGB 0 0 255) eq_refl)
    as (p & shown & Hp & Hs & Hc).
  cbv zeta in Hs.
  assert (S8 : shown 8%nat = mkRGB 0 0 61)
    by (rewrite Hs; vm_compute; reflexivity).
  assert (S9 : shown 9%nat = mkRGB 0 0 41)
    by (rewrite Hs; vm_compute; reflexivity).
  destruct (Hc 8%nat ltac:(lia)) as [_ D8].
  destruct (Hc 9%nat ltac:(lia)) as [_ D9].
  rewrite S8 in D8. rewrite S9 in D9.
  assert (A := channel_61). assert (B := channel_41).
  assert (B0 : 0 <= channel 41) by (apply (channel_range 41); lia).
  assert (Z0 := channel_0).
  exists p. split; [exact Hp|].
  intros H. specialize (H 8%nat 9%nat _ _ ltac:(lia) D8 D9).
  unfold luminance in H at 1 3. cbn [r g b] in H. rewrite Z0 in H.
  rewrite contrast_dark_below in H by lra.
  rewrite contrast_dark_above in H by lra.
  apply (Rle_not_lt _ _ H). apply Rdiv_lt_cross; try lra.
  apply Rle_lt_trans with (0.0535 * 0.0517); [|lra].
  apply Rmult_le_compat; lra.
Qed.

Local Close Scope R_scope.


(* ================================================================== *)
(** * Further properties of the conversions *)


Lemma rgbToHex_isUpperHex6 (r g b : Q) :
  isUpperHex6 (rgbToHex r g b) = true /\
  exists rgb, hexToRgb (rgbToHex r g b) = Ok rgb.
Proof.
  split; [|rewrite hexToRgb_rgbToHex; eauto].
  rewrite rgbToHex_shape. apply isUpperHex6_hexBytes; apply clampByte_range.
Qed.


Lemma stripHash_digits (digits : string) :
  allChars isHexDigit digits = true -> stripHash digits = digits.
Proof.
  intros H. destruct (stripHash_cases digits) as [[E _]|E]; [exact E|].
  exfalso. exact (allChars_hex_head _ H _ E).
Qed.

Lemma hexToRgb_hash (digits : string) (rgb : RGB) :
  stripHash digits = digits ->
  hexToRgb digits = Ok rgb -> hexToRgb (String "#" digits) = Ok rgb.
Proof.
  intros Hs. unfold hexToRgb. cbn [stripHash]. rewrite Hs.
  destruct (testHex6 _); cbn [negb]; [auto | discriminate].
Qed.

Lemma hexToRgb_doubleChars (digits : string) (rgb : RGB) :
  allChars isHexDigit digits = true -> String.length digits = 3%nat ->
  hexToRgb digits = Ok rgb -> hexToRgb (doubleChars digits) = Ok rgb.
Proof.
  intros Hall Hlen.
  assert (Hall2 : allChars isHexDigit (doubleChars digits) = true)
    by (now rewrite allChars_doubleChars).
  unfold hexToRgb.
  rewrite (stripHash_digits _ Hall), (stripHash_digits _ Hall2).
  rewrite doubleChars_length, Hlen. cbn [Nat.mul Nat.add Nat.eqb].
  destruct (testHex6 _); cbn [negb]; [auto | discriminate].
Qed.

(** X2.  [hexToRgb] reads two digits per channel, the first worth 16, and
    a three-digit colour as if each digit were written twice, so that a
    digit of value [v] gives the channel [17 * v]; the channels of an
    accepted colour are integers between 0 and 255. *)
Theorem hexToRgb_digits (c1 c2 c3 c4 c5 c6 : ascii) :
  isHexDigit c1 = true -> isHexDigit c2 = true -> isHexDigit c3 = true ->
  isHexDigit c4 = true -> isHexDigit c5 = true -> isHexDigit c6 = true ->
  hexToRgb (String "#" (String c1 (String c2 (String c3 (String c4
             (String c5 (String c6 EmptyString)))))))
  = Ok (mkRGB (16 * hexDigitValue c1 + hexDigitValue c2)
              (16 * hexDigitValue c3 + hexDigitValue c4)
              (16 * hexDigitValue c5 + hexDigitValue c6)) /\
  hexToRgb (String "#" (String c1 (String c2 (String c3 EmptyString))))
  = Ok (mkRGB (17 * hexDigitValue c1) (17 * hexDigitValue c2)
              (17 * hexDigitValue c3)) /\
  (forall input rgb, hexToRgb input = Ok rgb ->
     (0 <= r rgb <= 255)%Z /\ (0 <= g rgb <= 255)%Z /\ (0 <= b rgb <= 255)%Z).
Proof.
  intros E1 E2 E3 E4 E5 E6.
  split; [now apply hexToRgb_six|].
  split; [|apply hexToRgb_channels].
  set (d := String c1 (String c2 (String c3 EmptyString))).
  assert (Hall : allChars isHexDigit d = true)
    by (subst d; cbn [allChars]; now rewrite E1, E2, E3).
  assert (P : HexPattern d) by (exists d; auto).
  apply hexToRgb_Ok_iff in P as [rgb H].
  assert (Hall2 : allChars isHexDigit (doubleChars d) = true)
    by now rewrite allChars_doubleChars.
  assert (Hd := hexToRgb_hash _ _ (stripHash_digits _ Hall2)
                  (hexToRgb_doubleChars _ _ Hall eq_refl H)).
  subst d. cbn [doubleChars] in Hd. rewrite hexToRgb_six in Hd by assumption.
  rewrite (hexToRgb_hash _ _ (stripHash_digits _ Hall) H), <- Hd.
  apply f_equal. apply f_equal3; lia.
Qed.

Lemma hexToRgb_digits_witness :
  hexToRgb "#F53" = Ok (mkRGB (17 * 15) (17 * 5) (17 * 3)).
Proof.
  apply (hexToRgb_digits "F" "5" "3" "0" "0" "0"); reflexivity.
Defined.

(** X3.  The spelling of a colour does not matter to [hexToRgb]: three or
    six hexadecimal digits denote the same channels with or without the
    leading [#] and in either letter case, and three digits denote what the
    six digits obtained by doubling each of them denote. *)
Theorem hexToRgb_spelling (digits : string) :
  allChars isHexDigit digits = true ->
  String.length digits = 3%nat \/ String.length digits = 6%nat ->
  exists rgb,
    hexToRgb digits = Ok rgb /\
    hexToRgb (String "#" digits) = Ok rgb /\
    hexToRgb (toUpperCase digits) = Ok rgb /\
    hexToRgb (String "#" (toUpperCase digits)) = Ok rgb /\
    (String.length digits = 3%nat ->
       hexToRgb (doubleChars digits) = Ok rgb /\
       hexToRgb (String "#" (doubleChars digits)) = Ok rgb).
Proof.
  intros Hall Hlen.
  assert (P : HexPattern digits) by (exists digits; auto).
  apply hexToRgb_Ok_iff in P as [rgb H].
  assert (Hup : allChars isHexDigit (toUpperCase digits) = true)
    by (now rewrite allChars_isHexDigit_toUpperCase).
  assert (Hu := hexToRgb_toUpperCase _ _ H).
  exists rgb. split; [exact H|].
  split; [apply hexToRgb_hash; [now apply stripHash_digits | exact H]|].
  split; [exact Hu|].
  split; [apply hexToRgb_hash; [now apply stripHash_digits | exact Hu]|].
  intros H3.
  assert (Hd := hexToRgb_doubleChars _ _ Hall H3 H).
  split; [exact Hd|].
  apply hexToRgb_hash; [|exact Hd].
  apply stripHash_digits. now rewrite allChars_doubleChars.
Qed.

Lemma hexToRgb_spelling_witness :
  hexToRgb "f53" = Ok (mkRGB 255 85 51) /\
  exists rgb, hexToRgb "f53" = Ok rgb /\ hexToRgb "#F53" = Ok rgb.
Proof.
  split; [reflexivity|].
  destruct (hexToRgb_spelling "f53" eq_refl (or_introl eq_refl))
    as (rgb & H1 & _ & _ & H4 & _).
  exists rgb. split; [exact H1 | exact H4].
Defined.

(** X4.  Decoding and encoding again normalizes a colour: for an accepted
    string, [rgbToHex] of its channels is [#] and six upper-case digits, it
    denotes the same channels, normalizing it again changes nothing, and it
    is the string itself in upper case when the string was already written
    with [#] and six digits. *)
Theorem normalizeHex_roundtrip (input : string) (rgb : RGB) :
  hexToRgb input = Ok rgb ->
  normalizeHex input
    = rgbToHex (inject_Z (r rgb)) (inject_Z (g rgb)) (inject_Z (b rgb)) /\
  isUpperHex6 (normalizeHex input) = true /\
  hexToRgb (normalizeHex input) = Ok rgb /\
  normalizeHex (normalizeHex input) = normalizeHex input /\
  (String.length input = 7%nat -> normalizeHex input = toUpperCase input).
Proof.
  intros H.
  assert (E : normalizeHex input
              = rgbToHex (inject_Z (r rgb)) (inject_Z (g rgb)) (inject_Z (b rgb)))
    by (unfold normalizeHex; now rewrite H).
  destruct (hexToRgb_channels _ _ H) as (Rr & Rg & Rb).
  assert (D : hexToRgb (normalizeHex input) = Ok rgb).
  { rewrite E, hexToRgb_rgbToHex, !clampByte_inject_Z by assumption.
    now destruct rgb. }
  split; [exact E|].
  split; [rewrite E; apply rgbToHex_isUpperHex6|].
  split; [exact D|].
  split.
  - unfold normalizeHex at 1. rewrite D. symmetry. exact E.
  - intros L. symmetry. now apply (normalizeHex_full input rgb).
Qed.

Lemma normalizeHex_roundtrip_witness :
  normalizeHex "f53" = "#FF5533" /\ hexToRgb (normalizeHex "f53") = hexToRgb "f53".
Proof.
  split; [reflexivity|].
  destruct (normalizeHex_roundtrip "f53" _ eq_refl) as (_ & _ & D & _).
  rewrite D. reflexivity.
Defined.

(* ================================================================== *)
(** * Hue, saturation, lightness and value *)

Lemma Math_round_Qeq (x : Q) (z : Z) : x == inject_Z z -> Math_round x = z.
Proof.
  intros E. unfold Math_round. rewrite E.
  apply Qfloor_unique; [|rewrite inject_Z_plus; change (inject_Z 1) with 1]; lra.
Qed.

Lemma Qmax3_spec (x y z : Q) :
  (x <= Qmax3 x y z /\ y <= Qmax3 x y z /\ z <= Qmax3 x y z) /\
  (Qmax3 x y z == x \/ Qmax3 x y z == y \/ Qmax3 x y z == z).
Proof.
  unfold Qmax3.
  assert (A := Q.le_max_l (Qmax x y) z). assert (A' := Q.le_max_r (Qmax x y) z).
  assert (A1 := Q.le_max_l x y). assert (A2 := Q.le_max_r x y).
  split; [repeat split; lra|].
  destruct (Q.max_spec (Qmax x y) z) as [[_ E]|[_ E]];
    destruct (Q.max_spec x y) as [[_ E']|[_ E']];
    first [left; lra | right; left; lra | right; right; lra].
Qed.

Lemma Qmin3_spec (x y z : Q) :
  (Qmin3 x y z <= x /\ Qmin3 x y z <= y /\ Qmin3 x y z <= z) /\
  (Qmin3 x y z == x \/ Qmin3 x y z == y \/ Qmin3 x y z == z).
Proof.
  unfold Qmin3.
  assert (A := Q.le_min_l (Qmin x y) z). assert (A' := Q.le_min_r (Qmin x y) z).
  assert (A1 := Q.le_min_l x y). assert (A2 := Q.le_min_r x y).
  split; [repeat split; lra|].
  destruct (Q.min_spec (Qmin x y) z) as [[_ E]|[_ E]];
    destruct (Q.min_spec x y) as [[_ E']|[_ E']];
    first [left; lra | right; left; lra | right; right; lra].
Qed.

(** The hue expression shared by [rgbToHsl] and [rgbToHsv]. *)
Lemma hue_hexcone (r g b Mx mn : Q) :
  (mn <= r /\ r <= Mx) -> (mn <= g /\ g <= Mx) -> (mn <= b /\ b <= Mx) ->
  (Mx == r \/ Mx == g \/ Mx == b) -> (mn == r \/ mn == g \/ mn == b) ->
  hexcone r g b Mx mn
    ((if negb (Qeq_bool (Mx - mn) 0) then
        if Qeq_bool Mx r then ((g - b) / (Mx - mn) + (if Qltb g b then 6 else 0)) / 6
        else if Qeq_bool Mx g then ((b - r) / (Mx - mn) + 2) / 6
        else ((r - g) / (Mx - mn) + 4) / 6
      else 0) * 360).
Proof.
  intros Hr Hg Hb HM Hm. unfold hexcone.
  split; [exact Hr|]. split; [exact Hg|]. split; [exact Hb|].
  destruct (Qeq_bool (Mx - mn) 0) eqn:Ed; cbn [negb].
  - apply Qeq_bool_iff in Ed. left. split; lra.
  - apply Qeq_bool_neq in Ed. right.
    assert (Hd : mn < Mx).
    { destruct (Qlt_le_dec mn Mx) as [A|A]; [exact A|]. exfalso. apply Ed. lra. }
    split; [exact Hd|].
    assert (Nz : ~ Mx - mn == 0) by lra.
    destruct (Qeq_bool Mx r) eqn:E1.
    + apply Qeq_bool_iff in E1.
      destruct (Qltb g b) eqn:E2;
        [apply Qltb_lt in E2 | apply Qltb_ge in E2].
      * right; left. repeat split; try assumption.
        -- destruct Hm as [A|[A|A]]; lra.
        -- field. exact Nz.
      * left. repeat split; try assumption.
        -- destruct Hm as [A|[A|A]]; lra.
        -- field. exact Nz.
    + apply Qeq_bool_neq in E1.
      destruct (Qeq_bool Mx g) eqn:E3.
      * apply Qeq_bool_iff in E3.
        destruct (Qlt_le_dec r b) as [A|A].
        -- do 3 right; left. repeat split; try assumption.
           ++ destruct Hm as [C|[C|C]]; lra.
           ++ field. exact Nz.
        -- do 2 right; left. repeat split; try assumption.
           ++ destruct Hm as [C|[C|C]]; lra.
           ++ field. exact Nz.
      * apply Qeq_bool_neq in E3.
        assert (E4 : Mx == b) by (destruct HM as [C|[C|C]]; tauto).
        destruct (Qlt_le_dec g r) as [A|A].
        -- do 5 right. repeat split; try assumption.
           ++ destruct Hm as [C|[C|C]]; lra.
           ++ field. exact Nz.
        -- do 4 right; left. repeat split; try assumption.
           ++ destruct Hm as [C|[C|C]]; lra.
           ++ field. exact Nz.
Qed.

(** The offset within a sector. *)
Lemma sector_offset (X d y : Q) :
  0 < d -> X * d == y ->
  forall c, (c * d <= y -> c <= X) /\ (y <= c * d -> X <= c) /\
            (c * d < y -> c < X) /\ (y < c * d -> X < c).
Proof.
  intros Hd E c. repeat split; intros Hy.
  - destruct (Qlt_le_dec X c) as [A|A]; [exfalso|exact A]. nra.
  - destruct (Qlt_le_dec c X) as [A|A]; [exfalso|exact A]. nra.
  - destruct (Qlt_le_dec c X) as [A|A]; [exact A|exfalso]. nra.
  - destruct (Qlt_le_dec X c) as [A|A]; [exact A|exfalso]. nra.
Qed.

Lemma hexcone_hue_range (r g b Mx mn H : Q) :
  hexcone r g b Mx mn H -> 0 <= H /\ H < 360.
Proof.
  intros (Hr & Hg & Hb & [[_ E]|[Hd C]]); [lra|].
  assert (D : 0 < Mx - mn) by lra.
  destruct C as [(E1 & E2 & E)|[(E1 & E2 & L & E)|[(E1 & E2 & E)|[(E1 & E2 & E)
               |[(E1 & E2 & E)|(E1 & E2 & E)]]]]];
    destruct (sector_offset _ _ _ D E (-60)) as (A1 & _ & _ & _);
    destruct (sector_offset _ _ _ D E 0) as (A2 & _ & _ & A3);
    destruct (sector_offset _ _ _ D E 60) as (_ & A4 & _ & _);
    try specialize (A1 ltac:(lra)); try specialize (A2 ltac:(lra));
    try specialize (A3 ltac:(lra)); try specialize (A4 ltac:(lra)); lra.
Qed.

Lemma scaled_channel (R : Q) : 0 <= R -> R <= 255 -> 0 <= R / 255 /\ R / 255 <= 1.
Proof.
  intros H0 H1. assert (E : R / 255 == R * (1 # 255)) by field. rewrite E. lra.
Qed.

(** The HSL coordinates of a colour in terms of the greatest and the least
    of its scaled channels. *)
Lemma rgbToHsl_hexcone (R G B : Q) :
  0 <= R -> R <= 255 -> 0 <= G -> G <= 255 -> 0 <= B -> B <= 255 ->
  let x := rgbToHsl R G B in
  let Mx := Qmax3 (R / 255) (G / 255) (B / 255) in
  let mn := Qmin3 (R / 255) (G / 255) (B / 255) in
  0 <= mn /\ Mx <= 1 /\
  hexcone (R / 255) (G / 255) (B / 255) Mx mn (h x) /\
  l x == (Mx + mn) * 50 /\
  (mn == Mx -> s x == 0) /\
  (Mx + mn <= 1 -> s x * (Mx + mn) == (Mx - mn) * 100) /\
  (1 <= Mx + mn -> s x * (2 - Mx - mn) == (Mx - mn) * 100).
Proof.
  intros R0 R1 G0 G1 B0 B1. unfold rgbToHsl. cbv zeta.
  destruct (scaled_channel R R0 R1) as [r0 r1].
  destruct (scaled_channel G G0 G1) as [g0 g1].
  destruct (scaled_channel B B0 B1) as [b0 b1].
  set (r' := R / 255) in *. set (g' := G / 255) in *. set (b' := B / 255) in *.
  clearbody r' g' b'.
  destruct (Qmax3_spec r' g' b') as ((M1r & M1g & M1b) & HM).
  destruct (Qmin3_spec r' g' b') as ((M2r & M2g & M2b) & Hm).
  set (Mx := Qmax3 r' g' b') in *. set (mn := Qmin3 r' g' b') in *.
  clearbody Mx mn.
  assert (HH := hue_hexcone r' g' b' Mx mn ltac:(lra) ltac:(lra) ltac:(lra) HM Hm).
  split; [destruct Hm as [A|[A|A]]; lra|].
  split; [destruct HM as [A|[A|A]]; lra|].
  destruct (Qeq_bool (Mx - mn) 0) eqn:Ed; cbn [negb] in *; cbv beta iota;
    cbn [h s l].
  - apply Qeq_bool_iff in Ed.
    split; [exact HH|]. split; [field|].
    split; [intros _; lra|]. split; intros _; nra.
  - apply Qeq_bool_neq in Ed.
    split; [exact HH|]. split; [field|].
    split; [intros A; exfalso; apply Ed; lra|].
    assert (Hd : mn < Mx).
    { destruct (Qlt_le_dec mn Mx) as [A|A]; [exact A|]. exfalso. apply Ed. lra. }
    destruct (Qltb (1 # 2) ((Mx + mn) / 2)) eqn:El;
      [apply Qltb_lt in El | apply Qltb_ge in El].
    + assert (A : 1 < Mx + mn).
      { assert (X : (Mx + mn) / 2 == (Mx + mn) * (1 # 2)) by field.
        rewrite X in El. lra. }
      split; [intros C; lra|]. intros _. field. lra.
    + assert (A : Mx + mn <= 1).
      { assert (X : (Mx + mn) / 2 == (Mx + mn) * (1 # 2)) by field.
        rewrite X in El. lra. }
      split; [intros _; field; lra|].
      intros C. assert (E1 : Mx + mn == 1) by lra.
      assert (E2 : 2 - Mx - mn == 1) by lra.
      rewrite E1, E2. field.
Qed.

(** The HSV coordinates of a colour, likewise. *)
Lemma rgbToHsv_hexcone (R G B : Q) :
  0 <= R -> R <= 255 -> 0 <= G -> G <= 255 -> 0 <= B -> B <= 255 ->
  let x := rgbToHsv R G B in
  let Mx := Qmax3 (R / 255) (G / 255) (B / 255) in
  let mn := Qmin3 (R / 255) (G / 255) (B / 255) in
  0 <= mn /\ Mx <= 1 /\
  hexcone (R / 255) (G / 255) (B / 255) Mx mn (HSV.h x) /\
  HSV.v x == Mx * 100 /\
  HSV.s x * Mx == (Mx - mn) * 100 /\
  (Mx == 0 -> HSV.s x == 0).
Proof.
  intros R0 R1 G0 G1 B0 B1. unfold rgbToHsv. cbv zeta.
  destruct (scaled_channel R R0 R1) as [r0 r1].
  destruct (scaled_channel G G0 G1) as [g0 g1].
  destruct (scaled_channel B B0 B1) as [b0 b1].
  set (r' := R / 255) in *. set (g' := G / 255) in *. set (b' := B / 255) in *.
  clearbody r' g' b'.
  destruct (Qmax3_spec r' g' b') as ((M1r & M1g & M1b) & HM).
  destruct (Qmin3_spec r' g' b') as ((M2r & M2g & M2b) & Hm).
  set (Mx := Qmax3 r' g' b') in *. set (mn := Qmin3 r' g' b') in *.
  clearbody Mx mn.
  assert (HH := hue_hexcone r' g' b' Mx mn ltac:(lra) ltac:(lra) ltac:(lra) HM Hm).
  cbn [HSV.h HSV.s HSV.v].
  split; [destruct Hm as [A|[A|A]]; lra|].
  split; [destruct HM as [A|[A|A]]; lra|].
  split; [exact HH|]. split; [reflexivity|].
  destruct (Qeq_bool Mx 0) eqn:E0.
  - apply Qeq_bool_iff in E0.
    assert (mn == 0) by (destruct Hm as [A|[A|A]]; lra).
    split; [nra | intros _; lra].
  - apply Qeq_bool_neq in E0. split; [field; exact E0 | intros A; tauto].
Qed.

Lemma Qltb_comp (x x' y y' : Q) : x == x' -> y == y' -> Qltb x y = Qltb x' y'.
Proof. intros Hx Hy. unfold Qltb. now rewrite Hx, Hy. Qed.

Lemma hue2rgb_comp (p p' q q' t t' : Q) :
  p == p' -> q == q' -> t == t' -> hue2rgb p q t == hue2rgb p' q' t'.
Proof.
  intros Hp Hq Ht. unfold hue2rgb. cbv zeta.
  rewrite (Qltb_comp t t' 0 0 Ht (Qeq_refl 0)).
  assert (T1 : (if Qltb t' 0 then t + 1 else t)
               == (if Qltb t' 0 then t' + 1 else t'))
    by (destruct (Qltb t' 0); rewrite Ht; reflexivity).
  set (u := if Qltb t' 0 then t + 1 else t) in *.
  set (u' := if Qltb t' 0 then t' + 1 else t') in *.
  clearbody u u'.
  rewrite (Qltb_comp 1 1 u u' (Qeq_refl 1) T1).
  assert (T2 : (if Qltb 1 u' then u - 1 else u)
               == (if Qltb 1 u' then u' - 1 else u'))
    by (destruct (Qltb 1 u'); rewrite T1; reflexivity).
  set (w := if Qltb 1 u' then u - 1 else u) in *.
  set (w' := if Qltb 1 u' then u' - 1 else u') in *.
  clearbody w w'.
  rewrite (Qltb_comp w w' _ _ T2 (Qeq_refl (1 / 6))).
  rewrite (Qltb_comp w w' _ _ T2 (Qeq_refl (1 / 2))).
  rewrite (Qltb_comp w w' _ _ T2 (Qeq_refl (2 / 3))).
  destruct (Qltb w' (1 / 6)); [now rewrite Hp, Hq, T2|].
  destruct (Qltb w' (1 / 2)); [exact Hq|].
  destruct (Qltb w' (2 / 3)); [now rewrite Hp, Hq, T2 | exact Hp].
Qed.

Ltac case_Qltb :=
  repeat match goal with
  | |- context [Qltb ?x ?y] =>
      lazymatch x with context [Qltb _ _] => fail | _ => idtac end;
      lazymatch y with context [Qltb _ _] => fail | _ => idtac end;
      let E := fresh "E" in
      destruct (Qltb x y) eqn:E; [apply Qltb_lt in E | apply Qltb_ge in E]
  end.

(** [hue2rgb] at the three phases of [hslToRgb], between the least and
    the greatest channel, gives the channels back. *)
Lemma hue2rgb_hexcone (r g b Mx mn H : Q) :
  hexcone r g b Mx mn H -> mn < Mx ->
  hue2rgb mn Mx ((H + 120) * (1 # 360)) == r /\
  hue2rgb mn Mx (H * (1 # 360)) == g /\
  hue2rgb mn Mx ((H - 120) * (1 # 360)) == b.
Proof.
  intros (Hr & Hg & Hb & [[E _]|[_ C]]) Hd; [lra|].
  assert (D : 0 < Mx - mn) by lra.
  unfold hue2rgb. cbv zeta.
  change (1 / 6) with (1 # 6). change (1 / 2) with (1 # 2).
  change (2 / 3) with (2 # 3).
  destruct C as [(E1 & E2 & E)|[(E1 & E2 & L & E)|[(E1 & E2 & E)|[(E1 & E2 & E)
               |[(E1 & E2 & E)|(E1 & E2 & E)]]]]];
    destruct (sector_offset _ _ _ D E (-60)) as (A1 & _ & _ & _);
    destruct (sector_offset _ _ _ D E 0) as (A2 & A2' & A3' & A3);
    destruct (sector_offset _ _ _ D E 60) as (_ & A4 & _ & _);
    try specialize (A1 ltac:(lra)); try specialize (A2 ltac:(lra));
    try specialize (A2' ltac:(lra));
    try specialize (A3 ltac:(lra)); try specialize (A4 ltac:(lra)).
  all: repeat split; case_Qltb; try lra.
  all: nra.
Qed.

(** [hslToRgb] on coordinates that describe the channels [r], [g], [b]. *)
Lemma hslToRgb_hexcone (H S L r g b Mx mn : Q) (R' G' B' : Z) :
  0 <= mn -> Mx <= 1 -> hexcone r g b Mx mn H ->
  L == (Mx + mn) * 50 -> (mn == Mx -> S == 0) ->
  (Mx + mn <= 1 -> S * (Mx + mn) == (Mx - mn) * 100) ->
  (1 <= Mx + mn -> S * (2 - Mx - mn) == (Mx - mn) * 100) ->
  r * 255 == inject_Z R' -> g * 255 == inject_Z G' -> b * 255 == inject_Z B' ->
  hslToRgb H S L = mkRGB R' G' B'.
Proof.
  intros m0 M1 HC EL ES0 ES1 ES2 ER EG EB.
  assert (X : forall y, y / 100 == y * (1 # 100)) by (intros; field).
  unfold hslToRgb. cbv zeta.
  destruct (Qlt_le_dec mn Mx) as [Hd|Hd].
  - destruct (Qeq_bool (S / 100) 0) eqn:E0.
    { exfalso. apply Qeq_bool_iff in E0. rewrite X in E0.
      assert (S0 : S == 0) by lra.
      destruct (Qlt_le_dec 1 (Mx + mn)) as [A|A].
      - specialize (ES2 ltac:(lra)). rewrite S0 in ES2. lra.
      - specialize (ES1 A). rewrite S0 in ES1. lra. }
    set (q0 := if Qltb (L / 100) (1 # 2) then L / 100 * (1 + S / 100)
               else L / 100 + S / 100 - L / 100 * (S / 100)).
    assert (Hq : q0 == Mx).
    { subst q0.
      destruct (Qltb (L / 100) (1 # 2)) eqn:El;
        [apply Qltb_lt in El | apply Qltb_ge in El];
        rewrite EL, X in El; rewrite EL, !X.
      - specialize (ES1 ltac:(lra)). lra.
      - specialize (ES2 ltac:(lra)). lra. }
    assert (Hp : 2 * (L / 100) - q0 == mn) by (rewrite Hq, EL, X; lra).
    destruct (hue2rgb_hexcone _ _ _ _ _ _ HC Hd) as (Vr & Vg & Vb).
    f_equal; apply Math_round_Qeq.
    + rewrite (hue2rgb_comp _ mn _ Mx _ ((H + 120) * (1 # 360)) Hp Hq) by field.
      now rewrite Vr.
    + rewrite (hue2rgb_comp _ mn _ Mx _ (H * (1 # 360)) Hp Hq) by field.
      now rewrite Vg.
    + rewrite (hue2rgb_comp _ mn _ Mx _ ((H - 120) * (1 # 360)) Hp Hq) by field.
      now rewrite Vb.
  - destruct HC as (Hr & Hg & Hb & _).
    assert (Em : mn == Mx) by lra.
    assert (E0 : Qeq_bool (S / 100) 0 = true).
    { apply Qeq_bool_iff. rewrite (ES0 Em). reflexivity. }
    rewrite E0.
    f_equal; apply Math_round_Qeq; rewrite EL, X.
    + rewrite <- ER. lra.
    + rewrite <- EG. lra.
    + rewrite <- EB. lra.
Qed.

Lemma inject_Z_channel (z : Z) :
  (0 <= z <= 255)%Z -> 0 <= inject_Z z /\ inject_Z z <= 255.
Proof.
  intros [A B]. split.
  - change 0 with (inject_Z 0). now rewrite <- Zle_Qle.
  - change 255 with (inject_Z 255). now rewrite <- Zle_Qle.
Qed.

(** X5.  Converting the channels of a colour to HSL and back gives the
    channels again, for integer channels in [[0, 255]]. *)
Theorem hslToRgb_rgbToHsl (R G B : Z) :
  (0 <= R <= 255)%Z -> (0 <= G <= 255)%Z -> (0 <= B <= 255)%Z ->
  let x := rgbToHsl (inject_Z R) (inject_Z G) (inject_Z B) in
  hslToRgb (h x) (s x) (l x) = mkRGB R G B.
Proof.
  intros HR HG HB x.
  destruct (inject_Z_channel R HR) as [R0 R1].
  destruct (inject_Z_channel G HG) as [G0 G1].
  destruct (inject_Z_channel B HB) as [B0 B1].
  destruct (rgbToHsl_hexcone _ _ _ R0 R1 G0 G1 B0 B1)
    as (m0 & M1 & HC & EL & ES0 & ES1 & ES2).
  apply (hslToRgb_hexcone _ _ _ _ _ _ _ _ R G B m0 M1 HC EL ES0 ES1 ES2);
    field.
Qed.

Lemma hslToRgb_rgbToHsl_witness :
  let x := rgbToHsl 51 102 153 in hslToRgb (h x) (s x) (l x) = mkRGB 51 102 153.
Proof.
  apply (hslToRgb_rgbToHsl 51 102 153); lia.
Defined.

Lemma Math_floor_eq (x : Q) (n : Z) :
  inject_Z n <= x -> x < inject_Z n + 1 -> Math_floor x = n.
Proof.
  intros A B. unfold Math_floor. apply Qfloor_unique; [exact A|].
  rewrite inject_Z_plus. exact B.
Qed.

(** One case of [hsvToRgb]: the sextant [n] is found from the bounds on the
    hue, the [switch] is evaluated, and each channel is compared. *)
Ltac hsv_sextant n H :=
  let Ei := fresh "Ei" in
  assert (Ei : Math_floor (H / 360 * 6) = n)
    by (apply Math_floor_eq;
        [ setoid_replace (H / 360 * 6) with (H * (1 # 60)) by field
        | setoid_replace (H / 360 * 6) with (H * (1 # 60)) by field ];
        unfold inject_Z; lra);
  rewrite Ei;
  match goal with
  | |- context [Z.rem ?a ?b] =>
      let v := eval vm_compute in (Z.rem a b) in change (Z.rem a b) with v
  end;
  cbv beta iota.

Lemma hsvToRgb_hexcone (H S V r g b Mx mn : Q) (R' G' B' : Z) :
  0 <= mn -> Mx <= 1 -> hexcone r g b Mx mn H ->
  V == Mx * 100 -> S * Mx == (Mx - mn) * 100 -> (Mx == 0 -> S == 0) ->
  r * 255 == inject_Z R' -> g * 255 == inject_Z G' -> b * 255 == inject_Z B' ->
  hsvToRgb H S V = mkRGB R' G' B'.
Proof.
  intros m0 M1 (Hr & Hg & Hb & C) EV ES ES0 ER EG EB.
  assert (X100 : forall y, y / 100 == y * (1 # 100)) by (intros; field).
  assert (X360 : forall y, y / 360 == y * (1 # 360)) by (intros; field).
  assert (EHS : H * (S * Mx) == H * ((Mx - mn) * 100)) by now rewrite ES.
  unfold hsvToRgb. cbv zeta.
  destruct C as [[Em EH]|[Hd C]].
  - assert (S0 : S == 0).
    { destruct (Qeq_dec Mx 0) as [A|A]; [exact (ES0 A)|].
      assert (P : S * Mx == 0) by (rewrite ES; lra).
      destruct (Qmult_integral _ _ P) as [B|B]; [exact B | contradiction]. }
    hsv_sextant 0%Z H.
    f_equal; apply Math_round_Qeq;
      rewrite ?EV, ?S0, ?EH, ?X100, ?X360; unfold inject_Z.
    + rewrite <- ER. lra.
    + rewrite <- EG. lra.
    + rewrite <- EB. lra.
  - assert (D : 0 < Mx - mn) by lra.
    destruct C as [(E1 & E2 & E)|[(E1 & E2 & L & E)|[(E1 & E2 & E)|[(E1 & E2 & E)
                 |[(E1 & E2 & E)|(E1 & E2 & E)]]]]];
      destruct (sector_offset _ _ _ D E (-60)) as (A1 & _ & _ & _);
      destruct (sector_offset _ _ _ D E 0) as (A2 & A2' & A3' & A3);
      destruct (sector_offset _ _ _ D E 60) as (_ & A4 & _ & _);
      try specialize (A1 ltac:(lra)); try specialize (A2 ltac:(lra));
      try specialize (A2' ltac:(lra));
      try specialize (A3 ltac:(lra)); try specialize (A4 ltac:(lra)).
    + (* the maximum is r, g >= b *)
      destruct (Qlt_le_dec H 60) as [B|B].
      * hsv_sextant 0%Z H.
        f_equal; apply Math_round_Qeq; rewrite ?EV, ?X100, ?X360; unfold inject_Z;
          [rewrite <- ER | rewrite <- EG | rewrite <- EB]; lra.
      * assert (EB' : H * (Mx - mn) == 60 * (Mx - mn))
          by (assert (H == 60) as -> by lra; reflexivity).
        hsv_sextant 1%Z H.
        f_equal; apply Math_round_Qeq; rewrite ?EV, ?X100, ?X360; unfold inject_Z;
          [rewrite <- ER | rewrite <- EG | rewrite <- EB]; lra.
    + (* the maximum is r, g < b *)
      hsv_sextant 5%Z H.
      f_equal; apply Math_round_Qeq; rewrite ?EV, ?X100, ?X360; unfold inject_Z;
        [rewrite <- ER | rewrite <- EG | rewrite <- EB]; lra.
    + (* the maximum is g, b <= r *)
      destruct (Qlt_le_dec H 120) as [B|B].
      * hsv_sextant 1%Z H.
        f_equal; apply Math_round_Qeq; rewrite ?EV, ?X100, ?X360; unfold inject_Z;
          [rewrite <- ER | rewrite <- EG | rewrite <- EB]; lra.
      * assert (EB' : H * (Mx - mn) == 120 * (Mx - mn))
          by (assert (H == 120) as -> by lra; reflexivity).
        hsv_sextant 2%Z H.
        f_equal; apply Math_round_Qeq; rewrite ?EV, ?X100, ?X360; unfold inject_Z;
          [rewrite <- ER | rewrite <- EG | rewrite <- EB]; lra.
    + (* the maximum is g, r <= b *)
      destruct (Qlt_le_dec H 180) as [B|B].
      * hsv_sextant 2%Z H.
        f_equal; apply Math_round_Qeq; rewrite ?EV, ?X100, ?X360; unfold inject_Z;
          [rewrite <- ER | rewrite <- EG | rewrite <- EB]; lra.
      * assert (EB' : H * (Mx - mn) == 180 * (Mx - mn))
          by (assert (H == 180) as -> by lra; reflexivity).
        hsv_sextant 3%Z H.
        f_equal; apply Math_round_Qeq; rewrite ?EV, ?X100, ?X360; unfold inject_Z;
          [rewrite <- ER | rewrite <- EG | rewrite <- EB]; lra.
    + (* the maximum is b, r <= g *)
      destruct (Qlt_le_dec H 240) as [B|B].
      * hsv_sextant 3%Z H.
        f_equal; apply Math_round_Qeq; rewrite ?EV, ?X100, ?X360; unfold inject_Z;
          [rewrite <- ER | rewrite <- EG | rewrite <- EB]; lra.
      * assert (EB' : H * (Mx - mn) == 240 * (Mx - mn))
          by (assert (H == 240) as -> by lra; reflexivity).
        hsv_sextant 4%Z H.
        f_equal; apply Math_round_Qeq; rewrite ?EV, ?X100, ?X360; unfold inject_Z;
          [rewrite <- ER | rewrite <- EG | rewrite <- EB]; lra.
    + (* the maximum is b, g <= r *)
      destruct (Qlt_le_dec H 300) as [B|B].
      * hsv_sextant 4%Z H.
        f_equal; apply Math_round_Qeq; rewrite ?EV, ?X100, ?X360; unfold inject_Z;
          [rewrite <- ER | rewrite <- EG | rewrite <- EB]; lra.
      * assert (EB' : H * (Mx - mn) == 300 * (Mx - mn))
          by (assert (H == 300) as -> by lra; reflexivity).
        hsv_sextant 5%Z H.
        f_equal; apply Math_round_Qeq; rewrite ?EV, ?X100, ?X360; unfold inject_Z;
          [rewrite <- ER | rewrite <- EG | rewrite <- EB]; lra.
Qed.



(** X7.  [hslToHex] undoes [hexToHsl]: from the HSL coordinates of an
    accepted colour it gives the colour written as [#RRGGBB] in upper case,
    whose HSL coordinates are the same again. *)
Theorem hslToHex_hexToHsl (input : string) (x : HSL) :
  hexToHsl input = Ok x ->
  hslToHex (h x) (s x) (l x) = normalizeHex input /\
  hexToHsl (hslToHex (h x) (s x) (l x)) = Ok x.
Proof.
  intros Hx. unfold hexToHsl in Hx.
  destruct (hexToRgb input) as [rgb|e] eqn:E; [|discriminate].
  cbn [bind] in Hx.
  assert (Ex : rgbToHsl (inject_Z (r rgb)) (inject_Z (g rgb)) (inject_Z (b rgb)) = x)
    by congruence.
  clear Hx.
  destruct (hexToRgb_channels _ _ E) as (HR & HG & HB).
  destruct (inject_Z_channel _ HR) as [R0 R1].
  destruct (inject_Z_channel _ HG) as [G0 G1].
  destruct (inject_Z_channel _ HB) as [B0 B1].
  destruct (rgbToHsl_hexcone _ _ _ R0 R1 G0 G1 B0 B1)
    as (m0 & M1 & HC & EL & ES0 & ES1 & ES2).
  rewrite Ex in HC, EL, ES0, ES1, ES2.
  assert (Back : hslToRgb (h x) (s x) (l x) = mkRGB (r rgb) (g rgb) (b rgb))
    by (apply (hslToRgb_hexcone _ _ _ _ _ _ _ _ _ _ _ m0 M1 HC EL ES0 ES1 ES2);
        field).
  assert (N : hslToHex (h x) (s x) (l x) = normalizeHex input).
  { unfold hslToHex, normalizeHex. cbv zeta. rewrite Back, E. reflexivity. }
  split; [exact N|].
  rewrite N. unfold normalizeHex. rewrite E.
  unfold hexToHsl. rewrite hexToRgb_rgbToHex, !clampByte_inject_Z by assumption.
  cbn [bind r g b]. now rewrite Ex.
Qed.

Lemma hslToHex_hexToHsl_witness :
  exists x, hexToHsl "#369" = Ok x /\ hslToHex (h x) (s x) (l x) = "#336699".
Proof.
  eexists. split; [reflexivity|].
  apply (hslToHex_hexToHsl "#369"). reflexivity.
Defined.



(** X9.  Converting the channels of a colour to HSV and back gives the
    channels again, for integer channels in [[0, 255]]. *)
Theorem hsvToRgb_rgbToHsv (R G B : Z) :
  (0 <= R <= 255)%Z -> (0 <= G <= 255)%Z -> (0 <= B <= 255)%Z ->
  let x := rgbToHsv (inject_Z R) (inject_Z G) (inject_Z B) in
  hsvToRgb (HSV.h x) (HSV.s x) (HSV.v x) = mkRGB R G B.
Proof.
  intros HR HG HB x.
  destruct (inject_Z_channel R HR) as [R0 R1].
  destruct (inject_Z_channel G HG) as [G0 G1].
  destruct (inject_Z_channel B HB) as [B0 B1].
  destruct (rgbToHsv_hexcone _ _ _ R0 R1 G0 G1 B0 B1)
    as (m0 & M1 & HC & EV & ES & ES0).
  apply (hsvToRgb_hexcone _ _ _ _ _ _ _ _ R G B m0 M1 HC EV ES ES0); field.
Qed.

Lemma hsvToRgb_rgbToHsv_witness :
  let x := rgbToHsv 51 102 153 in
  hsvToRgb (HSV.h x) (HSV.s x) (HSV.v x) = mkRGB 51 102 153.
Proof.
  apply (hsvToRgb_rgbToHsv 51 102 153); lia.
Defined.

(** X10.  [hsvToHex] undoes [hexToHsv]: from the HSV coordinates of an
    accepted colour it gives the colour written as [#RRGGBB] in upper case,
    whose HSV coordinates are the same again. *)
Theorem hsvToHex_hexToHsv (input : string) (x : HSV.t) :
  hexToHsv input = Ok x ->
  hsvToHex (HSV.h x) (HSV.s x) (HSV.v x) = normalizeHex input /\
  hexToHsv (hsvToHex (HSV.h x) (HSV.s x) (HSV.v x)) = Ok x.
Proof.
  intros Hx. unfold hexToHsv in Hx.
  destruct (hexToRgb input) as [rgb|e] eqn:E; [|discriminate].
  cbn [bind] in Hx.
  assert (Ex : rgbToHsv (inject_Z (r rgb)) (inject_Z (g rgb)) (inject_Z (b rgb)) = x)
    by congruence.
  clear Hx.
  destruct (hexToRgb_channels _ _ E) as (HR & HG & HB).
  destruct (inject_Z_channel _ HR) as [R0 R1].
  destruct (inject_Z_channel _ HG) as [G0 G1].
  destruct (inject_Z_channel _ HB) as [B0 B1].
  destruct (rgbToHsv_hexcone _ _ _ R0 R1 G0 G1 B0 B1)
    as (m0 & M1 & HC & EV & ES & ES0).
  rewrite Ex in HC, EV, ES, ES0.
  assert (Back : hsvToRgb (HSV.h x) (HSV.s x) (HSV.v x)
                 = mkRGB (r rgb) (g rgb) (b rgb))
    by (apply (hsvToRgb_hexcone _ _ _ _ _ _ _ _ _ _ _ m0 M1 HC EV ES ES0);
        field).
  assert (N : hsvToHex (HSV.h x) (HSV.s x) (HSV.v x) = normalizeHex input).
  { unfold hsvToHex, normalizeHex. cbv zeta. rewrite Back, E. reflexivity. }
  split; [exact N|].
  rewrite N. unfold normalizeHex. rewrite E.
  unfold hexToHsv. rewrite hexToRgb_rgbToHex, !clampByte_inject_Z by assumption.
  cbn [bind r g b]. now rewrite Ex.
Qed.

Lemma hsvToHex_hexToHsv_witness :
  exists x, hexToHsv "#369" = Ok x /\
            hsvToHex (HSV.h x) (HSV.s x) (HSV.v x) = "#336699".
Proof.
  eexists. split; [reflexivity|].
  apply (hsvToHex_hexToHsv "#369"). reflexivity.
Defined.

Lemma clampRgb_id (c : RGB) : channelsWithin 0 255 c -> clampRgb c = c.
Proof.
  intros (A & B & C). destruct c as [x y z]. cbn [r g b] in *.
  unfold clampRgb, clamp255. cbn [r g b]. f_equal; lia.
Qed.

(** X11.  For a saturation and a lightness in [[0, 100]] and a hue in
    [[-240, 600]] (which contains the documented [[0, 360]]), the channels
    [hslToRgb] returns are in [[0, 255]]; [hslToHex] then writes exactly
    these channels, none of them clamped. *)
Theorem hslToRgb_gamut (H S L : Q) :
  -240 <= H -> H <= 600 -> 0 <= S -> S <= 100 -> 0 <= L -> L <= 100 ->
  channelsWithin 0 255 (hslToRgb H S L) /\
  hexToRgb (hslToHex H S L) = Ok (hslToRgb H S L).
Proof.
  intros H0 H1 S0 S1 L0 L1.
  assert (W : channelsWithin 0 255 (hslToRgb H S L)).
  { unfold channelsWithin, hslToRgb. cbv zeta.
    assert (Xs : S / 100 == S * (1 # 100)) by field.
    assert (Xl : L / 100 == L * (1 # 100)) by field.
    set (s' := S / 100) in *. set (l' := L / 100) in *. clearbody s' l'.
    destruct (Qeq_bool s' 0).
    - cbn [r g b].
      assert (T : 0 <= l' /\ l' <= 1) by lra.
      repeat split; first [apply Math_round_ge | apply Math_round_le];
        unfold inject_Z; lra.
    - cbn [r g b].
      set (q := if Qltb l' (1 # 2) then l' * (1 + s') else l' + s' - l' * s').
      assert (Hq : l' <= q /\ q <= 1 /\ q <= 2 * l').
      { subst q. destruct (Qltb l' (1 # 2)) eqn:E;
          [apply Qltb_lt in E | apply Qltb_ge in E]; repeat split; nra. }
      clearbody q. destruct Hq as (Q0 & Q1 & Q2).
      set (p := 2 * l' - q).
      assert (Hp : 0 <= p /\ p <= q) by (subst p; lra).
      clearbody p. destruct Hp as (P0 & Hpq).
      assert (T1 := hue2rgb_between p q (H / 360 + 1 / 3) Hpq).
      assert (T2 := hue2rgb_between p q (H / 360) Hpq).
      assert (T3 := hue2rgb_between p q (H / 360 - 1 / 3) Hpq).
      assert (X : H / 360 == H * (1 # 360)) by field.
      assert (Y : 1 / 3 == 1 # 3) by reflexivity.
      specialize (T1 ltac:(lra) ltac:(lra)).
      specialize (T2 ltac:(lra) ltac:(lra)).
      specialize (T3 ltac:(lra) ltac:(lra)).
      split; [|split]; [round_bounds T1 | round_bounds T2 | round_bounds T3]. }
  split; [exact W|].
  rewrite hexToRgb_hslToHex. f_equal. now apply clampRgb_id.
Qed.

Lemma hslToRgb_gamut_witness :
  hexToRgb (hslToHex 210 50 40) = Ok (hslToRgb 210 50 40).
Proof.
  apply (hslToRgb_gamut 210 50 40); lra.
Defined.

Lemma Math_floor_fraction (x : Q) :
  0 <= x - inject_Z (Math_floor x) /\ x - inject_Z (Math_floor x) < 1.
Proof.
  unfold Math_floor. assert (A := Qfloor_le x). assert (B := Qlt_floor x).
  rewrite inject_Z_plus in B. change (inject_Z 1) with 1 in B. lra.
Qed.

Lemma Math_round_unit (x : Q) :
  0 <= x -> x <= 1 -> (0 <= Math_round (x * 255) <= 255)%Z.
Proof.
  intros A B. split; [apply Math_round_ge | apply Math_round_le];
    unfold inject_Z; lra.
Qed.

(** X12.  For a saturation and a value in [[0, 100]], whatever the hue,
    the channels [hsvToRgb] returns are in [[0, 255]]; [hsvToHex] then
    writes exactly these channels. *)
Theorem hsvToRgb_gamut (H S V : Q) :
  0 <= S -> S <= 100 -> 0 <= V -> V <= 100 ->
  channelsWithin 0 255 (hsvToRgb H S V) /\
  hexToRgb (hsvToHex H S V) = Ok (hsvToRgb H S V).
Proof.
  intros S0 S1 V0 V1.
  assert (W : channelsWithin 0 255 (hsvToRgb H S V)).
  { unfold channelsWithin, hsvToRgb. cbv zeta.
    assert (Xs : S / 100 == S * (1 # 100)) by field.
    assert (Xv : V / 100 == V * (1 # 100)) by field.
    set (s' := S / 100) in *. set (v' := V / 100) in *. clearbody s' v'.
    destruct (Math_floor_fraction (H / 360 * 6)) as [F0 F1].
    set (f := H / 360 * 6 - inject_Z (Math_floor (H / 360 * 6))) in *.
    clearbody f.
    assert (Hp : 0 <= v' * (1 - s') /\ v' * (1 - s') <= 1) by (split; nra).
    assert (Hq : 0 <= v' * (1 - f * s') /\ v' * (1 - f * s') <= 1)
      by (split; nra).
    assert (Ht : 0 <= v' * (1 - (1 - f) * s') /\ v' * (1 - (1 - f) * s') <= 1)
      by (split; nra).
    set (p := v' * (1 - s')) in *. set (q := v' * (1 - f * s')) in *.
    set (t := v' * (1 - (1 - f) * s')) in *. clearbody p q t.
    assert (Hv : 0 <= v' /\ v' <= 1) by lra.
    assert (Hz : 0 <= 0 /\ 0 <= 1) by lra.
    destruct (Z.rem (Math_floor (H / 360 * 6)) 6) as [|k|k];
      [| destruct k as [[k|k|]|[k|k|]|]; try destruct k |];
      cbn [r g b]; repeat split; apply Math_round_unit; tauto. }
  split; [exact W|].
  unfold hsvToHex. cbv zeta. rewrite hexToRgb_rgbToHex.
  destruct W as (A & B & C).
  rewrite !clampByte_inject_Z by assumption.
  now destruct (hsvToRgb H S V).
Qed.

Lemma hsvToRgb_gamut_witness :
  hexToRgb (hsvToHex 210 50 40) = Ok (hsvToRgb 210 50 40).
Proof.
  apply (hsvToRgb_gamut 210 50 40); lra.
Defined.







(* ================================================================== *)
(** * Contrast ratios *)

Local Open Scope R_scope.

Lemma luminance_range (c : RGB) :
  channelsWithin 0 255 c -> 0 <= luminance c <= 1.
Proof.
  intros H. rewrite <- channel_0, <- channel_255.
  apply luminance_within; [lia | exact H].
Qed.

Lemma contrast_range (lum1 lum2 : R) :
  0 <= lum1 <= 1 -> 0 <= lum2 <= 1 -> 1 <= contrast lum1 lum2 <= 21.
Proof.
  intros H1 H2. unfold contrast.
  assert (A := Rmax_l lum1 lum2). assert (B := Rmin_l lum1 lum2).
  assert (C : 0 <= Rmin lum1 lum2) by (apply Rmin_glb; lra).
  assert (D : Rmax lum1 lum2 <= 1) by (apply Rmax_lub; lra).
  split.
  - replace 1 with (1 / 1) by lra. apply Rdiv_le_cross; lra.
  - replace 21 with (21 / 1) by lra. apply Rdiv_le_cross; lra.
Qed.

Lemma contrast_comm (lum1 lum2 : R) : contrast lum1 lum2 = contrast lum2 lum1.
Proof. unfold contrast. now rewrite Rmax_comm, Rmin_comm. Qed.

Lemma contrast_same (lum : R) : 0 <= lum -> contrast lum lum = 1.
Proof.
  intros H. unfold contrast.
  rewrite Rmax_left, Rmin_left by lra. field. lra.
Qed.

(** X15.  The contrast ratio of two accepted colours does not depend on
    their order, lies between 1 and 21, and is 1 for two spellings of the
    same colour. *)
Theorem getContrastRatio_range (a b : string) (ra rb : RGB) :
  hexToRgb a = Ok ra -> hexToRgb b = Ok rb ->
  exists x : R,
    getContrastRatio a b = Ok x /\ getContrastRatio b a = Ok x /\
    1 <= x <= 21 /\ (ra = rb -> x = 1).
Proof.
  intros Ha Hb.
  assert (La := luminance_range ra (hexToRgb_channels _ _ Ha)).
  assert (Lb := luminance_range rb (hexToRgb_channels _ _ Hb)).
  exists (contrast (luminance ra) (luminance rb)).
  split; [now apply getContrastRatio_Ok|].
  split; [rewrite contrast_comm; now apply getContrastRatio_Ok|].
  split; [now apply contrast_range|].
  intros <-. apply contrast_same. lra.
Qed.

Lemma getContrastRatio_range_witness :
  exists x : R,
    getContrastRatio "#369" "336699" = Ok x /\
    getContrastRatio "336699" "#369" = Ok x /\
    1 <= x <= 21 /\ (mkRGB 51 102 153 = mkRGB 51 102 153 -> x = 1).
Proof.
  apply (getContrastRatio_range "#369" "336699"); reflexivity.
Defined.

Local Close Scope R_scope.

Lemma bind_Throw {A B : Type} (m : result A) (k : A -> result B) (e : Error) :
  m = Throw e -> bind m k = Throw e.
Proof. now intros ->. Qed.

(** X16.  The functions that take a hex string and are not entry points of
    the naming or the palette behave alike: [hexToHsl], [hexToHsv] and
    [getLuminanceHex] succeed exactly on the strings [hexToRgb] accepts and
    [getContrastRatio] exactly when both arguments are accepted; otherwise
    they throw the error of [hexToRgb] for the first rejected argument. *)
Theorem hex_consumers_errors (a b : string) :
  (HexPattern a <-> exists x, hexToHsl a = Ok x) /\
  (HexPattern a <-> exists x, hexToHsv a = Ok x) /\
  (HexPattern a <-> exists x, getLuminanceHex a = Ok x) /\
  (HexPattern a /\ HexPattern b <-> exists x, getContrastRatio a b = Ok x) /\
  (~ HexPattern a ->
     let e := mkError (invalidHexMessage a) in
     hexToHsl a = Throw e /\ hexToHsv a = Throw e /\
     getLuminanceHex a = Throw e /\ getContrastRatio a b = Throw e) /\
  (HexPattern a -> ~ HexPattern b ->
     getContrastRatio a b = Throw (mkError (invalidHexMessage b))).
Proof.
  assert (U : forall input : string,
            (HexPattern input <-> exists x, hexToHsl input = Ok x) /\
            (HexPattern input <-> exists x, hexToHsv input = Ok x) /\
            (HexPattern input <-> exists x, getLuminanceHex input = Ok x)).
  { intros input. rewrite <- hexToRgb_Ok_iff.
    unfold hexToHsl, hexToHsv, getLuminanceHex.
    destruct (hexToRgb input) as [rgb|e]; cbn [bind];
      repeat split; intros [x Hx]; try discriminate; eauto. }
  destruct (U a) as (U1 & U2 & U3).
  split; [exact U1|]. split; [exact U2|]. split; [exact U3|].
  split.
  - rewrite U3. destruct (U b) as (_ & _ & ->).
    unfold getContrastRatio.
    destruct (getLuminanceHex a) as [x|e]; cbn [bind].
    + destruct (getLuminanceHex b) as [y|e]; cbn [bind].
      * split; eauto.
      * split; [intros [_ [z Hz]]; discriminate | intros [z Hz]; discriminate].
    + split; [intros [[z Hz] _]; discriminate | intros [z Hz]; discriminate].
  - split.
    + intros N. apply hexToRgb_Throw_iff in N.
      unfold hexToHsl, hexToHsv, getContrastRatio, getLuminanceHex.
      rewrite N. cbn [bind]. auto.
    + intros Pa N. apply hexToRgb_Ok_iff in Pa as [ra Ha].
      apply hexToRgb_Throw_iff in N.
      unfold getContrastRatio, getLuminanceHex. rewrite Ha, N. reflexivity.
Qed.

Lemma hex_consumers_errors_witness :
  getContrastRatio "#fff" "#ggg" = Throw (mkError (invalidHexMessage "#ggg")).
Proof.
  apply (hex_consumers_errors "#fff" "#ggg").
  - apply hexToRgb_Ok_iff. eexists. reflexivity.
  - apply hexToRgb_Throw_iff. reflexivity.
Defined.

(* ================================================================== *)
(** * Every step of a palette *)

Lemma seq_nth_error (i : nat) : (i < 10)%nat -> nth_error (seq 0 10) i = Some i.
Proof. intros H. do 10 (destruct i as [|i]; [reflexivity|]). lia. Qed.

Lemma steps_at (input : string) (rgb : RGB) (baseHsl : HSL) (ci i : nat) :
  (i < 10)%nat ->
  nth_error (List.map (stepAt input rgb baseHsl ci) (seq 0 10)) i
    = Some (stepAt input rgb baseHsl ci i).
Proof. intros H. apply map_nth_error. now apply seq_nth_error. Qed.

Local Open Scope R_scope.

(** X17.  Every step of a palette is consistent with the contrast
    functions: its [hex] is an accepted colour, [contrastWhite] and
    [contrastDark] are the contrast ratios of that colour with [#FFFFFF]
    and [#0A0A0A], between 1 and 21, and the two WCAG levels are the
    [compliance] of these ratios. *)
Theorem palette_steps_consistent (input : string) (p : ColorPalette)
    (st : ColorStep) :
  generateColorPalette input = Ok p -> In st (steps p) ->
  (exists rgb, hexToRgb (hex st) = Ok rgb) /\
  getContrastRatio (hex st) "#FFFFFF" = Ok (contrastWhite st) /\
  getContrastRatio (hex st) "#0A0A0A" = Ok (contrastDark st) /\
  wcagWhite st = compliance (contrastWhite st) /\
  wcagDark st = compliance (contrastDark st) /\
  1 <= contrastWhite st <= 21 /\ 1 <= contrastDark st <= 21.
Proof.
  intros Hp Hin.
  destruct (generateColorPalette_inv _ _ Hp) as (rgb & Hrgb & _ & _ & _ & _ & Hs).
  rewrite Hs in Hin. apply steps_In in Hin as (i & Hi & ->).
  set (baseHsl := hsl (classification p)) in *.
  assert (Hx := hexToRgb_stepHexAt input rgb baseHsl (closestIndexOf baseHsl) i Hrgb).
  assert (L := luminance_range _ (hexToRgb_channels _ _ Hx)).
  assert (Lw := luminance_range _ (hexToRgb_channels _ _ hexToRgb_white)).
  assert (Lb := luminance_range _ (hexToRgb_channels _ _ hexToRgb_nearBlack)).
  unfold stepAt.
  cbn [hex contrastWhite contrastDark wcagWhite wcagDark].
  split; [eauto|].
  split; [exact (getContrastRatio_Ok _ _ _ _ Hx hexToRgb_white)|].
  split; [exact (getContrastRatio_Ok _ _ _ _ Hx hexToRgb_nearBlack)|].
  split; [reflexivity|]. split; [reflexivity|].
  split; now apply contrast_range.
Qed.

Lemma palette_steps_consistent_witness :
  exists p st,
    generateColorPalette "#369" = Ok p /\ nth_error (steps p) 4 = Some st /\
    getContrastRatio (hex st) "#FFFFFF" = Ok (contrastWhite st).
Proof.
  destruct (generateColorPalette_Ok "#369" _ eq_refl) as (c & _ & Hp).
  eexists. eexists. split; [exact Hp|].
  cbn [steps]. split; [apply steps_at; lia|].
  apply (palette_steps_consistent "#369" _ _ Hp).
  cbn [steps]. eapply nth_error_In. apply steps_at. lia.
Defined.

Lemma channel_217 : 0.6 <= channel 217.
Proof.
  rewrite (channel_high 217) by lia.
  apply Rpower_24_lower; lra.
Qed.

Lemma channel_50 : channel 50 <= 0.04.
Proof.
  rewrite (channel_high 50) by lia.
  apply Rpower_24_upper; lra.
Qed.

Lemma compliance_AAA (x : R) : 7 <= x -> compliance x = AAA.
Proof. intros H. unfold compliance. destruct (Rle_dec 7 x); [reflexivity | contradiction]. Qed.

Lemma compliance_Fail (x : R) : x < 4.5 -> compliance x = Fail.
Proof.
  intros H. unfold compliance.
  destruct (Rle_dec 7 x); [lra|]. destruct (Rle_dec 4.5 x); [lra | reflexivity].
Qed.

(** X18.  In every palette, step 50 fails WCAG against white and reaches
    AAA against the dark reference [#0A0A0A], and step 900 reaches AAA
    against white and fails against the dark reference. *)
Theorem palette_ends_wcag (input : string) (p : ColorPalette) :
  generateColorPalette input = Ok p ->
  exists s50 s900 : ColorStep,
    nth_error (steps p) 0 = Some s50 /\ nth_error (steps p) 9 = Some s900 /\
    step s50 = 50%Z /\ step s900 = 900%Z /\
    wcagWhite s50 = Fail /\ wcagDark s50 = AAA /\
    wcagWhite s900 = AAA /\ wcagDark s900 = Fail.
Proof.
  intros Hp.
  destruct (generateColorPalette_inv _ _ Hp)
    as (rgb & Hrgb & Hc & _ & _ & _ & Hs).
  destruct (classifyHexColor_inv _ _ Hc) as (rgb' & Hrgb' & Hhsl & _).
  assert (rgb' = rgb) by congruence. subst rgb'.
  set (baseHsl := hsl (classification p)) in *.
  destruct (palette_ends rgb (hexToRgb_channels _ _ Hrgb)) as [E0 E9].
  cbv zeta in E0, E9. rewrite <- Hhsl in E0, E9.
  assert (L0 := luminance_within 217 255 _ ltac:(lia) E0).
  assert (L9 := luminance_within 0 50 _ ltac:(lia) E9).
  rewrite channel_255 in L0. rewrite channel_0 in L9.
  assert (A := channel_217). assert (B := channel_50).
  exists (stepAt input rgb baseHsl (closestIndexOf baseHsl) 0),
         (stepAt input rgb baseHsl (closestIndexOf baseHsl) 9).
  rewrite Hs.
  split; [apply steps_at; lia|]. split; [apply steps_at; lia|].
  unfold stepAt. cbn [step wcagWhite wcagDark].
  split; [reflexivity|]. split; [reflexivity|].
  set (lum0 := luminance (stepRgbAt rgb baseHsl (closestIndexOf baseHsl) 0)) in *.
  set (lum9 := luminance (stepRgbAt rgb baseHsl (closestIndexOf baseHsl) 9)) in *.
  clearbody lum0 lum9.
  repeat split.
  - apply compliance_Fail. rewrite contrast_white by lra.
    apply Rlt_le_trans with (1.05 / 0.64); [|lra].
    apply Rdiv_lt_cross; lra.
  - apply compliance_AAA. rewrite contrast_dark_above by lra.
    apply Rle_trans with (0.65 / 0.06); [lra|].
    apply Rdiv_le_cross; lra.
  - apply compliance_AAA. rewrite contrast_white by lra.
    apply Rle_trans with (1.05 / 0.09); [lra|].
    apply Rdiv_le_cross; lra.
  - apply compliance_Fail.
    destruct (Rle_dec lum9 (10 / 255 / 12.92)) as [C|C].
    + rewrite contrast_dark_below by exact C.
      apply Rlt_le_trans with (0.06 / 0.05); [|lra].
      apply Rdiv_lt_cross; lra.
    + rewrite contrast_dark_above by lra.
      apply Rlt_le_trans with (0.1 / 0.05); [|lra].
      apply Rdiv_lt_cross; lra.
Qed.

Lemma palette_ends_wcag_witness :
  exists p s50,
    generateColorPalette "#369" = Ok p /\ nth_error (steps p) 0 = Some s50 /\
    wcagWhite s50 = Fail.
Proof.
  destruct (generateColorPalette_Ok "#369" _ eq_refl) as (c & _ & Hp).
  destruct (palette_ends_wcag "#369" _ Hp) as (s50 & s900 & H0 & _ & _ & _ & W & _).
  eexists. exists s50. split; [exact Hp|]. split; [exact H0 | exact W].
Defined.

Local Close Scope R_scope.

(* ================================================================== *)
(** * The chosen step by lightness *)

Lemma Qle_bool_false (x y : Q) : Qle_bool x y = false <-> y < x.
Proof.
  split; intros H.
  - apply Qnot_le_lt. intros A. apply Qle_bool_iff in A. congruence.
  - destruct (Qle_bool x y) eqn:E; [|reflexivity].
    apply Qle_bool_iff in E. lra.
Qed.

Lemma Qabs_cases (x : Q) : (0 <= x /\ Qabs x == x) \/ (x < 0 /\ Qabs x == - x).
Proof.
  destruct (Qlt_le_dec x 0) as [A|A].
  - right. split; [exact A|]. apply Qabs_neg. lra.
  - left. split; [exact A|]. now apply Qabs_pos.
Qed.

(** Which of two targets is nearer, by their midpoint. *)
Lemma nearer_target (L a b : Q) :
  b < a ->
  (Qabs (L - a) <= Qabs (L - b) -> a + b <= 2 * L) /\
  (Qabs (L - b) < Qabs (L - a) -> 2 * L < a + b).
Proof.
  intros Hab.
  destruct (Qabs_cases (L - a)) as [[A ->]|[A ->]];
    destruct (Qabs_cases (L - b)) as [[B ->]|[B ->]]; split; intros H; lra.
Qed.

Ltac step_by_lightness :=
  unfold stepForLightness;
  repeat match goal with
  | |- context [Qle_bool ?a ?b] =>
      let E := fresh "E" in
      destruct (Qle_bool a b) eqn:E;
      [apply Qle_bool_iff in E | apply Qle_bool_false in E]
  end;
  first [reflexivity | exfalso; lra].

Lemma chosen_by_lightness (baseHsl : HSL) :
  orElse (nth_error stepValues (closestIndexOf baseHsl)) 500%Z
  = stepForLightness (l baseHsl).
Proof.
  destruct (closestLoop_spec (l baseHsl) lightnessSteps ltac:(discriminate))
    as (Hlt & (t & Ht & Hmd) & Hall).
  rewrite Hmd in Hall. clear Hmd.
  set (i := closestIndexOf baseHsl) in *.
  set (L := l baseHsl) in *. clearbody i L.
  change (List.length lightnessSteps) with 10%nat in *.
  assert (N : forall j a b, (j < 9)%nat ->
            nth_error lightnessSteps j = Some a ->
            nth_error lightnessSteps (S j) = Some b -> b < a).
  { intros j a b Hj Ha Hb.
    do 9 (destruct j as [|j];
          [cbn in Ha, Hb; inversion Ha; inversion Hb; subst; reflexivity|]).
    lia. }
  assert (Up : forall a, (0 < i)%nat ->
            nth_error lightnessSteps (i - 1) = Some a -> 2 * L < a + t).
  { intros a Hi Ha.
    destruct (Hall (i - 1)%nat a ltac:(lia) Ha) as [_ A].
    specialize (A ltac:(lia)).
    apply (nearer_target L a t); [|exact A].
    apply (N (i - 1)%nat); [lia | exact Ha |].
    replace (S (i - 1)) with i by lia. exact Ht. }
  assert (Down : forall b, (i < 9)%nat ->
            nth_error lightnessSteps (S i) = Some b -> t + b <= 2 * L).
  { intros b Hi Hb.
    destruct (Hall (S i) b ltac:(lia) Hb) as [A _].
    apply (nearer_target L t b); [|exact A].
    now apply (N i). }
  clear Hall N.
  do 10 (destruct i as [|i];
    [ cbn in Ht; inversion Ht; subst t; clear Ht;
      try (specialize (Up _ ltac:(lia) eq_refl));
      try (specialize (Down _ ltac:(lia) eq_refl));
      cbn [orElse nth_error stepValues]; step_by_lightness |]).
  lia.
Qed.

(** X19.  [chosenStep] is decided by the HSL lightness [l] of the input:
    50 from 92.5 up, 100 from 85, 200 from 72.5, 300 from 57.5, 400 from
    45, 500 from 35, 600 from 25, 700 from 16, 800 from 10 and 900 below;
    and the step flagged [isChosenColor] is the one labelled [chosenStep]. *)
Theorem chosenStep_by_lightness (input : string) (p : ColorPalette) :
  generateColorPalette input = Ok p ->
  chosenStep p = stepForLightness (l (hsl (classification p))) /\
  forall st, In st (steps p) ->
    (isChosenColor st = true <-> step st = chosenStep p).
Proof.
  intros Hp.
  destruct (generateColorPalette_inv _ _ Hp) as (rgb & _ & _ & _ & _ & Hch & Hs).
  split; [rewrite Hch; apply chosen_by_lightness|].
  intros st Hin. rewrite Hs in Hin. apply steps_In in Hin as (i & Hi & ->).
  rewrite Hch. assert (Hlt := closestIndex_lt (hsl (classification p))).
  set (ci := closestIndexOf (hsl (classification p))) in *. clearbody ci.
  unfold stepAt. cbn [isChosenColor step].
  rewrite Nat.eqb_eq.
  do 10 (destruct i as [|i];
    [do 10 (destruct ci as [|ci];
       [cbn; split; intros; first [reflexivity | discriminate | lia]|]); lia|]).
  lia.
Qed.

Lemma chosenStep_by_lightness_witness :
  exists p, generateColorPalette "#369" = Ok p /\
            chosenStep p = stepForLightness (l (hsl (classification p))).
Proof.
  destruct (generateColorPalette_Ok "#369" _ eq_refl) as (c & _ & Hp).
  eexists. split; [exact Hp|].
  apply (chosenStep_by_lightness "#369" _ Hp).
Defined.

(* ================================================================== *)
(** * Spellings of one colour *)

Lemma upperChar_idem (c : ascii) : upperChar (upperChar c) = upperChar c.
Proof. each_char c. Qed.

Lemma toUpperCase_idem (s : string) : toUpperCase (toUpperCase s) = toUpperCase s.
Proof.
  induction s as [|c s IH]; [reflexivity|].
  cbn [toUpperCase]. now rewrite upperChar_idem, IH.
Qed.

Lemma Forall2_map_seq {A : Type} (P : A -> A -> Prop) (f f' : nat -> A)
    (indices : list nat) :
  (forall i, In i indices -> P (f i) (f' i)) ->
  Forall2 P (List.map f indices) (List.map f' indices).
Proof.
  induction indices as [|i rest IH]; intros H; cbn [List.map]; constructor.
  - apply H. now left.
  - apply IH. intros j Hj. apply H. now right.
Qed.

(** X20.  A palette depends on the colour, not on its spelling: two
    accepted strings with the same channels get the same classification,
    name, token, chosen step and, step by step, the same labels, contrast
    ratios, WCAG levels and flags, and the same hex except at the chosen
    step, which shows each input as written; a string and its upper-case
    form get the same palette. *)
Theorem palette_spelling (input input' : string) (rgb : RGB) :
  hexToRgb input = Ok rgb -> hexToRgb input' = Ok rgb ->
  classifyHexColor input = classifyHexColor input' /\
  generateColorPalette (toUpperCase input) = generateColorPalette input /\
  exists p p' : ColorPalette,
    generateColorPalette input = Ok p /\ generateColorPalette input' = Ok p' /\
    name p = name p' /\ tokenName' p = tokenName' p' /\
    chosenStep p = chosenStep p' /\ classification p = classification p' /\
    Forall2 (fun st st' =>
               step st = step st' /\
               contrastWhite st = contrastWhite st' /\
               contrastDark st = contrastDark st' /\
               wcagWhite st = wcagWhite st' /\ wcagDark st = wcagDark st' /\
               isChosenColor st = isChosenColor st' /\
               (isChosenColor st = false -> hex st = hex st'))
            (steps p) (steps p').
Proof.
  intros Ha Hb.
  assert (Hc : classifyHexColor input = classifyHexColor input')
    by (unfold classifyHexColor; now rewrite Ha, Hb).
  destruct (generateColorPalette_Ok _ _ Ha) as (c & Ca & Pa).
  destruct (generateColorPalette_Ok _ _ Hb) as (c' & Cb & Pb).
  assert (c' = c) by congruence. subst c'.
  split; [exact Hc|]. split.
  - assert (Hu := hexToRgb_toUpperCase _ _ Ha).
    destruct (generateColorPalette_Ok _ _ Hu) as (c' & Cu & Pu).
    assert (c' = c).
    { assert (E : classifyHexColor (toUpperCase input) = classifyHexColor input)
        by (unfold classifyHexColor; now rewrite Ha, Hu).
      congruence. }
    subst c'. rewrite Pu, Pa. do 2 f_equal.
    apply map_ext. intros i. unfold stepAt, stepHexAt.
    now rewrite toUpperCase_idem.
  - eexists. eexists. split; [exact Pa|]. split; [exact Pb|].
    cbn [name tokenName' chosenStep classification steps].
    repeat (split; [reflexivity|]).
    apply Forall2_map_seq. intros i _.
    unfold stepAt, stepHexAt.
    cbn [step contrastWhite contrastDark wcagWhite wcagDark isChosenColor hex].
    repeat (split; [reflexivity|]).
    now intros ->.
Qed.

Lemma palette_spelling_witness :
  classifyHexColor "#369" = classifyHexColor "336699".
Proof.
  apply (palette_spelling "#369" "336699" (mkRGB 51 102 153)); reflexivity.
Defined.

(* ================================================================== *)
(** * Neutral colours *)

Lemma band_names_not_neutral (a b : Q) (names : list string) (x : string) :
  In (a, b, names) hueBands -> In x names -> x <> "Neutral".
Proof.
  intros Hb Hx.
  assert (C : forallb (fun band : Q * Q * list string =>
                         forallb (fun n => negb (String.eqb n "Neutral")) (snd band))
                hueBands = true) by reflexivity.
  rewrite forallb_forall in C. specialize (C _ Hb). cbn [snd] in C.
  rewrite forallb_forall in C. specialize (C _ Hx).
  intros ->. discriminate.
Qed.

Lemma rgbToHsl_gray (v : Q) :
  let x := rgbToHsl v v v in h x == 0 /\ s x == 0 /\ l x == v / 255 * 100.
Proof.
  unfold rgbToHsl. cbv zeta.
  set (v' := v / 255). clearbody v'.
  destruct (Qmax3_spec v' v' v') as ((M1 & _) & HM).
  destruct (Qmin3_spec v' v' v') as ((M2 & _) & Hm).
  assert (EM : Qmax3 v' v' v' == v') by (destruct HM as [A|[A|A]]; exact A).
  assert (Em : Qmin3 v' v' v' == v') by (destruct Hm as [A|[A|A]]; exact A).
  set (Mx := Qmax3 v' v' v') in *. set (mn := Qmin3 v' v' v') in *.
  clearbody Mx mn.
  assert (E : Qeq_bool (Mx - mn) 0 = true) by (apply Qeq_bool_iff; lra).
  rewrite E. cbn [negb h s l].
  split; [lra|]. split; [lra|]. rewrite EM, Em. field.
Qed.

(** X21.  The classification of an accepted colour has its HSL
    coordinates in range (hue in [[0, 360)], saturation and lightness in
    [[0, 100]]); its hue group is ["Neutral"] exactly when the saturation is
    below 8; and a gray ([r = g = b]) has hue 0 and saturation 0, so it is
    always named [tone Neutral]. *)
Theorem classifyHexColor_neutral (input : string) (c : ColorClassification) :
  classifyHexColor input = Ok c ->
  ((0 <= h (hsl c) /\ h (hsl c) < 360) /\ (0 <= s (hsl c) /\ s (hsl c) <= 100) /\
   (0 <= l (hsl c) /\ l (hsl c) <= 100)) /\
  (hueGroup c = "Neutral" <-> s (hsl c) < 8) /\
  (forall rgb, hexToRgb input = Ok rgb -> r rgb = g rgb -> g rgb = b rgb ->
     h (hsl c) == 0 /\ s (hsl c) == 0 /\ hueGroup c = "Neutral" /\
     fullName c = (tone c ++ " Neutral")%string).
Proof.
  intros Hc.
  destruct (classifyHexColor_inv _ _ Hc)
    as (rgb & Hrgb & Hhsl & Hhue & _ & Hfull & _).
  destruct (hexToRgb_channels _ _ Hrgb) as (HR & HG & HB).
  destruct (inject_Z_channel _ HR) as [R0 R1].
  destruct (inject_Z_channel _ HG) as [G0 G1].
  destruct (inject_Z_channel _ HB) as [B0 B1].
  destruct (rgbToHsl_hexcone _ _ _ R0 R1 G0 G1 B0 B1)
    as (m0 & M1 & HC & El & _).
  destruct (rgbToHsl_facts _ _ _ R0 R1 G0 G1 B0 B1) as (S0 & S1 & _).
  rewrite <- Hhsl in HC, El, S0, S1.
  destruct (hexcone_hue_range _ _ _ _ _ _ HC) as [Hh0 Hh1].
  assert (Neutral : hueGroup c = "Neutral" <-> s (hsl c) < 8).
  { rewrite Hhue. split.
    - intros E. destruct (Qlt_le_dec (s (hsl c)) 8) as [A|A]; [exact A|].
      exfalso.
      destruct (getHueName_band _ _ Hh0 Hh1 A) as (a & b & names & Hb & _ & _ & Hn).
      apply nth_error_In in Hn.
      exact (band_names_not_neutral _ _ _ _ Hb Hn E).
    - intros A. unfold getHueName. apply Qltb_lt in A. now rewrite A. }
  split.
  - split; [split; assumption|]. split; [split; assumption|].
    destruct HC as (Hr & _). lra.
  - split; [exact Neutral|].
    intros rgb' Hrgb' Erg Egb.
    assert (rgb' = rgb) by congruence. subst rgb'.
    destruct (rgbToHsl_gray (inject_Z (r rgb))) as (Gh & Gs & _).
    rewrite <- Egb, <- Erg in Hhsl. rewrite <- Hhsl in Gh, Gs.
    assert (N : hueGroup c = "Neutral") by (apply Neutral; lra).
    split; [exact Gh|]. split; [exact Gs|]. split; [exact N|].
    rewrite Hfull, N. reflexivity.
Qed.

Lemma classifyHexColor_neutral_witness :
  exists c, classifyHexColor "#808080" = Ok c /\ hueGroup c = "Neutral".
Proof.
  destruct (classifyHexColor_Ok "#808080" _ eq_refl) as (c & Hc & _).
  exists c. split; [exact Hc|].
  destruct (classifyHexColor_neutral "#808080" c Hc) as (_ & _ & G).
  apply (G (mkRGB 128 128 128)); reflexivity.
Defined.

(* ================================================================== *)
(** * Barycentric interpolation *)


(** X22.  [barycentricInterpolation] succeeds exactly when the colours of
    the three vertices are accepted, wherever the points are; otherwise it
    throws the error of [hexToRgb] for the first rejected colour, in the
    order [a], [b], [c]. *)
Theorem barycentricInterpolation_errors (p : Point.t) (a b c : Vertex.t) :
  (HexPattern (Vertex.color a) /\ HexPattern (Vertex.color b) /\
   HexPattern (Vertex.color c)
   <-> exists x, barycentricInterpolation p a b c = Ok x) /\
  (~ HexPattern (Vertex.color a) ->
     barycentricInterpolation p a b c
     = Throw (mkError (invalidHexMessage (Vertex.color a)))) /\
  (HexPattern (Vertex.color a) -> ~ HexPattern (Vertex.color b) ->
     barycentricInterpolation p a b c
     = Throw (mkError (invalidHexMessage (Vertex.color b)))) /\
  (HexPattern (Vertex.color a) -> HexPattern (Vertex.color b) ->
   ~ HexPattern (Vertex.color c) ->
     barycentricInterpolation p a b c
     = Throw (mkError (invalidHexMessage (Vertex.color c)))).
Proof.
  rewrite <- !hexToRgb_Ok_iff.
  unfold barycentricInterpolation. cbv zeta.
  destruct (hexToRgb (Vertex.color a)) as [[rA gA bA]|ea] eqn:Ea; cbn [bind];
    [destruct (hexToRgb (Vertex.color b)) as [[rB gB bB]|eb] eqn:Eb; cbn [bind];
     [destruct (hexToRgb (Vertex.color c)) as [[rC gC bC]|ec] eqn:Ec; cbn [bind]|]|];
    try match goal with
        | H : hexToRgb _ = Throw ?e |- _ =>
            let X := fresh in assert (X := hexToRgb_Throw _ _ H); subst e
        end;
    repeat match goal with
    | |- _ /\ _ => split
    | |- _ <-> _ => split
    | |- _ -> _ => intro
    | H : exists _, Throw _ = Ok _ |- _ => destruct H; discriminate
    | H : _ /\ _ |- _ => destruct H
    | H : ~ (exists _, Ok _ = Ok _) |- _ => exfalso; apply H; eexists; reflexivity
    | |- exists _, Ok _ = Ok _ => eexists; reflexivity
    | |- Throw _ = Throw _ => reflexivity
    end.
Qed.

Lemma barycentricInterpolation_errors_witness :
  barycentricInterpolation (Point.mk 0 0)
    (Vertex.mk 0 0 "#f00") (Vertex.mk 1 0 "#0g0") (Vertex.mk 0 1 "zz")
  = Throw (mkError (invalidHexMessage "#0g0")).
Proof.
  apply (barycentricInterpolation_errors (Point.mk 0 0)
           (Vertex.mk 0 0 "#f00") (Vertex.mk 1 0 "#0g0") (Vertex.mk 0 1 "zz")).
  - apply hexToRgb_Ok_iff. eexists. reflexivity.
  - apply hexToRgb_Throw_iff. reflexivity.
Defined.



Lemma rgbToHex_round (r g b : Q) :
  rgbToHex r g b
  = rgbToHex (inject_Z (Math_round r)) (inject_Z (Math_round g))
             (inject_Z (Math_round b)).
Proof. unfold rgbToHex, toHex. now rewrite !Math_round_inject_Z. Qed.







(* ================================================================== *)
(** * Random colours *)

Lemma Qabs_unit (y : Q) : 0 <= y -> y < 2 -> 0 <= Qabs (y - 1) /\ Qabs (y - 1) <= 1.
Proof.
  intros A B. destruct (Qabs_cases (y - 1)) as [[C E]|[C E]]; rewrite E; lra.
Qed.

(** Two values at least [d] apart are at least [d] apart after rounding. *)
Lemma Math_round_spread (x y : Q) (d : Z) :
  x + inject_Z d <= y -> (Math_round x + d <= Math_round y)%Z.
Proof.
  intros H. apply Math_round_ge.
  assert (A := Qfloor_le (x + (1 # 2))). fold (Math_round x) in A.
  rewrite inject_Z_plus. lra.
Qed.

Lemma generateRandomColor_channels (random1 random2 random3 : Q) :
  0 <= random1 -> random1 < 1 -> 0 <= random2 -> random2 < 1 ->
  0 <= random3 -> random3 < 1 ->
  exists x y z : Q,
    generateRandomColor random1 random2 random3 = rgbToHex x y z /\
    ((3825 # 100) <= x /\ x <= (2397 # 10)) /\
    ((3825 # 100) <= y /\ y <= (2397 # 10)) /\
    ((3825 # 100) <= z /\ z <= (2397 # 10)) /\
    exists lo hi, (lo = x \/ lo = y \/ lo = z) /\ (hi = x \/ hi = y \/ hi = z) /\
                  lo + inject_Z 30 <= hi.
Proof.
  intros A1 B1 A2 B2 A3 B3. unfold generateRandomColor. cbv zeta.
  assert (Xs : (30 + random2 * 40) / 100 == (3 # 10) + random2 * (4 # 10)) by field.
  assert (Xl : (50 + random3 * 30) / 100 == (1 # 2) + random3 * (3 # 10)) by field.
  assert (Xh : random1 * 360 / 360 * 6 == random1 * 6) by field.
  set (sat := (30 + random2 * 40) / 100) in *.
  set (light := (50 + random3 * 30) / 100) in *.
  assert (Ea : Qabs (2 * light - 1) == 2 * light - 1) by (apply Qabs_pos; lra).
  assert (Hc : (1 - Qabs (2 * light - 1)) * sat == (2 - 2 * light) * sat)
    by (rewrite Ea; ring).
  set (c := (1 - Qabs (2 * light - 1)) * sat) in *.
  assert (Hrem : 0 <= Qrem (random1 * 360 / 360 * 6) 2
                 /\ Qrem (random1 * 360 / 360 * 6) 2 < 2).
  { rewrite Qrem_Qmod by lra. apply Qmod_range. lra. }
  destruct (Qabs_unit _ (proj1 Hrem) (proj2 Hrem)) as [K0 K1].
  set (k := Qabs (Qrem (random1 * 360 / 360 * 6) 2 - 1)) in *.
  clearbody k. clear Hrem.
  set (hue := random1 * 360 / 360) in *. clearbody hue.
  assert (C0 : (12 # 100) < c) by nra.
  assert (Hm : light - c / 2 == light - c * (1 # 2)) by field.
  set (m := light - c / 2) in *.
  assert (M0 : (15 # 100) < m) by nra.
  assert (M1 : m + c < (94 # 100)) by nra.
  assert (X0 : 0 <= c * (1 - k) /\ c * (1 - k) <= c) by (split; nra).
  set (x := c * (1 - k)) in *.
  clearbody x m c. clear Ea Hc Xs Xl Xh Hm. clearbody sat light.
  repeat match goal with
  | |- context [Qltb ?a ?b] => destruct (Qltb a b)
  end;
  eexists; eexists; eexists; (split; [reflexivity|]);
  (split; [lra|]); (split; [lra|]); (split; [lra|]);
  exists ((0 + m) * 255), ((c + m) * 255);
  (split; [tauto|]); (split; [tauto|]); unfold inject_Z; lra.
Qed.

(** X25.  Whatever the three draws in [[0, 1)], the colour
    [generateRandomColor] returns is neither dark, nor near white, nor
    gray: it is [#] and six upper-case digits, every channel is between 38
    and 240 (none is clamped), and the greatest channel exceeds the least by
    at least 30. *)
Theorem generateRandomColor_pleasant (random1 random2 random3 : Q) :
  0 <= random1 -> random1 < 1 -> 0 <= random2 -> random2 < 1 ->
  0 <= random3 -> random3 < 1 ->
  exists rgb : RGB,
    generateRandomColor random1 random2 random3
    = rgbToHex (inject_Z (r rgb)) (inject_Z (g rgb)) (inject_Z (b rgb)) /\
    hexToRgb (generateRandomColor random1 random2 random3) = Ok rgb /\
    isUpperHex6 (generateRandomColor random1 random2 random3) = true /\
    channelsWithin 38 240 rgb /\
    (Z.min (r rgb) (Z.min (g rgb) (b rgb)) + 30
     <= Z.max (r rgb) (Z.max (g rgb) (b rgb)))%Z.
Proof.
  intros A1 B1 A2 B2 A3 B3.
  destruct (generateRandomColor_channels _ _ _ A1 B1 A2 B2 A3 B3)
    as (x & y & z & E & Hx & Hy & Hz & lo & hi & Hlo & Hhi & Hd).
  assert (Rx : (38 <= Math_round x <= 240)%Z) by round_bounds Hx.
  assert (Ry : (38 <= Math_round y <= 240)%Z) by round_bounds Hy.
  assert (Rz : (38 <= Math_round z <= 240)%Z) by round_bounds Hz.
  exists (mkRGB (Math_round x) (Math_round y) (Math_round z)).
  cbn [r g b]. rewrite E.
  split; [apply rgbToHex_round|].
  apply Math_round_spread in Hd.
  assert (Hd' : exists lo' hi' : Z,
            (lo' = Math_round x \/ lo' = Math_round y \/ lo' = Math_round z) /\
            (hi' = Math_round x \/ hi' = Math_round y \/ hi' = Math_round z) /\
            (lo' + 30 <= hi')%Z).
  { exists (Math_round lo), (Math_round hi).
    split; [destruct Hlo as [->|[->| ->]]; auto|].
    split; [destruct Hhi as [->|[->| ->]]; auto | exact Hd]. }
  clear Hd Hlo Hhi. destruct Hd' as (lo' & hi' & Hlo & Hhi & Hd).
  rewrite hexToRgb_rgbToHex, rgbToHex_shape. unfold clampByte.
  set (X := Math_round x) in *. set (Y := Math_round y) in *.
  set (Z' := Math_round z) in *. clearbody X Y Z'.
  clear - Rx Ry Rz Hlo Hhi Hd.
  split; [apply f_equal; apply f_equal3; lia|].
  split; [apply isUpperHex6_hexBytes; lia|].
  split; [unfold channelsWithin; cbn [r g b]; lia|].
  destruct Hlo as [->|[->| ->]], Hhi as [->|[->| ->]]; lia.
Qed.

Lemma generateRandomColor_pleasant_witness :
  exists rgb : RGB,
    hexToRgb (generateRandomColor (1 # 2) (1 # 2) (1 # 2)) = Ok rgb /\
    channelsWithin 38 240 rgb.
Proof.
  destruct (generateRandomColor_pleasant (1 # 2) (1 # 2) (1 # 2))
    as (rgb & _ & H & _ & W & _); try lra.
  exists rgb. split; [exact H | exact W].
Defined.

(* ================================================================== *)
(** * Luminance *)

Local Open Scope R_scope.

(** X26.  The luminance of an accepted colour is between 0 and 1 and
    grows with each channel: a colour with no channel smaller than another
    colour's has a luminance at least as large, hence a contrast with white
    at most as large. *)
Theorem getLuminanceHex_monotone (input input' : string) (rgb rgb' : RGB) :
  hexToRgb input = Ok rgb -> hexToRgb input' = Ok rgb' ->
  (r rgb <= r rgb')%Z -> (g rgb <= g rgb')%Z -> (b rgb <= b rgb')%Z ->
  exists lum lum' ratio ratio' : R,
    getLuminanceHex input = Ok lum /\ getLuminanceHex input' = Ok lum' /\
    0 <= lum /\ lum <= lum' /\ lum' <= 1 /\
    getContrastRatio input "#FFFFFF" = Ok ratio /\
    getContrastRatio input' "#FFFFFF" = Ok ratio' /\
    ratio' <= ratio.
Proof.
  intros H H' Hr Hg Hb.
  destruct (hexToRgb_channels _ _ H) as (R0 & G0 & B0).
  destruct (hexToRgb_channels _ _ H') as (R1 & G1 & B1).
  assert (L := luminance_range _ (hexToRgb_channels _ _ H)).
  assert (L' := luminance_range _ (hexToRgb_channels _ _ H')).
  assert (M : luminance rgb <= luminance rgb').
  { unfold luminance.
    assert (Cr := channel_mono (r rgb) (r rgb') ltac:(lia) Hr).
    assert (Cg := channel_mono (g rgb) (g rgb') ltac:(lia) Hg).
    assert (Cb := channel_mono (b rgb) (b rgb') ltac:(lia) Hb).
    lra. }
  exists (luminance rgb), (luminance rgb'),
         (contrast (luminance rgb) (luminance white)),
         (contrast (luminance rgb') (luminance white)).
  split; [now apply getLuminanceHex_Ok|].
  split; [now apply getLuminanceHex_Ok|].
  split; [lra|]. split; [exact M|]. split; [lra|].
  split; [exact (getContrastRatio_Ok _ _ _ _ H hexToRgb_white)|].
  split; [exact (getContrastRatio_Ok _ _ _ _ H' hexToRgb_white)|].
  apply contrast_white_antitone; lra.
Qed.

Lemma getLuminanceHex_monotone_witness :
  exists lum lum' : R,
    getLuminanceHex "#336699" = Ok lum /\ getLuminanceHex "#3377AA" = Ok lum' /\
    lum <= lum'.
Proof.
  destruct (getLuminanceHex_monotone "#336699" "#3377AA"
              (mkRGB 51 102 153) (mkRGB 51 119 170))
    as (lum & lum' & _ & _ & A & B & _ & C & _);
    [reflexivity | reflexivity | cbn; lia | cbn; lia | cbn; lia |].
  exists lum, lum'. split; [exact A|]. split; [exact B | exact C].
Defined.

Local Close Scope R_scope.

(* ================================================================== *)
(** * Hues outside [0, 360) *)








(* ================================================================== *)
(** * The random colour as an HSL colour *)





(* ================================================================== *)
(** * Scenarios *)

Example hexToRgb_shorthand : hexToRgb "#F53" = Ok (mkRGB 255 85 51).
Proof. reflexivity. Qed.

Example hexToRgb_no_hash : hexToRgb "ff5733" = Ok (mkRGB 255 87 51).
Proof. reflexivity. Qed.

Example rgbToHex_example : rgbToHex 255 87 51 = "#FF5733".
Proof. reflexivity. Qed.

Example rgbToHex_clamps : rgbToHex (-3) (2555 # 10) 300 = "#00FFFF".
Proof. vm_compute. reflexivity. Qed.

Example contrast_black_white :
  getContrastRatio "#000000" "#FFFFFF" = Ok 21%R.
Proof.
  rewrite (getContrastRatio_Ok "#000000" "#FFFFFF" (mkRGB 0 0 0) white
             eq_refl eq_refl).
  rewrite luminance_gray, channel_0, contrast_white by lra.
  f_equal. lra.
Qed.

Example black_chosen_step :
  exists p, generateColorPalette "#000000" = Ok p /\ chosenStep p = 900%Z.
Proof.
  destruct (generateColorPalette_Ok "#000000" _ eq_refl) as (c & Hc & Hg).
  destruct (classifyHexColor_inv _ _ Hc) as (rgb & Hrgb & Hhsl & _).
  assert (rgb = mkRGB 0 0 0) by (vm_compute in Hrgb; congruence). subst rgb.
  eexists. split; [exact Hg|]. cbn [chosenStep]. rewrite Hhsl.
  vm_compute. reflexivity.
Qed.
